(** * proglog: the segment storage engine (store, index, segment)

    A shallow embedding of [internal/log]: the length-framed [store], the
    memory-mapped [index] of 12-byte entries, and the [segment] that ties
    one store and one index together.  Go's fixed-width integers are [Z]
    with the wrap-around written out, byte slices are [list byte], and every
    method is a function from the receiver's state to an outcome and the
    receiver's next state.

    What the embedding leaves out: the store's mutex (calls are taken one at
    a time), file names and directories (a file is its content), and the
    failures of [os.OpenFile], [os.Stat], [Sync] and [gommap.Map].  A write
    to the store file can fail: the file has a limit on its length. *)

From Stdlib Require Import ZArith List Lia Bool.
From coqutil Require Import Byte Word.LittleEndianList.
Import ListNotations.
Local Open Scope Z_scope.

Set Implicit Arguments.

(** ** Machine integers *)

(** Conversion to [uint64], [uint32] and [int64]. *)
Definition u64 (z : Z) : Z := z mod 2 ^ 64.
Definition u32 (z : Z) : Z := z mod 2 ^ 32.
Definition i64 (z : Z) : Z := (z + 2 ^ 63) mod 2 ^ 64 - 2 ^ 63.

(** [len(b)] of a slice. *)
Definition len {A : Type} (l : list A) : Z := Z.of_nat (length l).

(** ** Outcomes *)

(** The error values the package can observe.  The code reports both of the
    spec's [NotFound] and [IndexFull] as [io.EOF]. *)
Inductive error : Type :=
| io_EOF        (* io.EOF *)
| os_error      (* an error of a file operation (os, syscall) *)
| proto_error   (* proto.Marshal / proto.Unmarshal failed *)
| go_panic.     (* a run-time panic: slice bounds out of range *)

Inductive result (A : Type) : Type :=
| Ok (a : A)
| Err (e : error).
Arguments Ok {A} a.
Arguments Err {A} e.

(** ** Byte slices *)

(** [b[lo:hi]]; [None] is the slice-bounds panic. *)
Definition slice (b : list byte) (lo hi : Z) : option (list byte) :=
  if (0 <=? lo) && (lo <=? hi) && (hi <=? len b)
  then Some (firstn (Z.to_nat (hi - lo)) (skipn (Z.to_nat lo) b))
  else None.

(** [copy(b[lo:lo+len(src)], src)] for a destination slice that is in
    bounds: the bytes before and after the window are kept. *)
Definition overwrite (b : list byte) (lo : Z) (src : list byte) : list byte :=
  firstn (Z.to_nat lo) b ++ src ++ skipn (Z.to_nat lo + length src) b.

(** ** encoding/binary, [enc = binary.BigEndian]

    The bodies quoted in the comments of [index.go] are the little-endian
    ones; [enc] is [binary.BigEndian], whose methods are these. *)

Definition PutUint32 (v : Z) : list byte :=
  [byte.of_Z (Z.shiftr v 24); byte.of_Z (Z.shiftr v 16);
   byte.of_Z (Z.shiftr v 8); byte.of_Z v].

Definition PutUint64 (v : Z) : list byte :=
  [byte.of_Z (Z.shiftr v 56); byte.of_Z (Z.shiftr v 48);
   byte.of_Z (Z.shiftr v 40); byte.of_Z (Z.shiftr v 32);
   byte.of_Z (Z.shiftr v 24); byte.of_Z (Z.shiftr v 16);
   byte.of_Z (Z.shiftr v 8); byte.of_Z v].

(** [enc.Uint32(b)] and [enc.Uint64(b)]: the bytes [b[0]], [b[1]], ... most
    significant first.  ([b[i]] beyond the slice would panic; every slice
    decoded below has the full width.) *)
Definition at_ (b : list byte) (i : nat) : Z := byte.unsigned (nth i b Byte.x00).

Definition Uint32 (b : list byte) : Z :=
  Z.lor (Z.lor (Z.lor (at_ b 3) (Z.shiftl (at_ b 2) 8)) (Z.shiftl (at_ b 1) 16))
        (Z.shiftl (at_ b 0) 24).

Definition Uint64 (b : list byte) : Z :=
  Z.lor (Z.lor (Z.lor (Z.lor (Z.lor (Z.lor (Z.lor
    (at_ b 7) (Z.shiftl (at_ b 6) 8)) (Z.shiftl (at_ b 5) 16)) (Z.shiftl (at_ b 4) 24))
    (Z.shiftl (at_ b 3) 32)) (Z.shiftl (at_ b 2) 40)) (Z.shiftl (at_ b 1) 48))
    (Z.shiftl (at_ b 0) 56).

(** ** Methods as state transformers *)

(** A method with receiver state [S] and result [A]: it returns an outcome
    together with the receiver as the call leaves it, also when it fails. *)
Definition M (S A : Type) : Type := S -> result A * S.

Definition ret {S A} (a : A) : M S A := fun s => (Ok a, s).
Definition fail {S A} (e : error) : M S A := fun s => (Err e, s).
Definition bind {S A B} (m : M S A) (k : A -> M S B) : M S B :=
  fun s => match m s with
           | (Ok a, s') => k a s'
           | (Err e, s') => (Err e, s')
           end.
Definition get {S} : M S S := fun s => (Ok s, s).
Definition put {S} (s : S) : M S unit := fun _ => (Ok tt, s).
Definition of_result {S A} (r : result A) : M S A := fun s => (r, s).

(** Run a method of a field [T] of the receiver [S]. *)
Definition on {S T A} (proj : S -> T) (upd : T -> S -> S) (m : M T A) : M S A :=
  fun s => let (r, t) := m (proj s) in (r, upd t s).

Declare Scope go_scope.
Delimit Scope go_scope with go.
Notation "x <- m ;; k" := (bind m (fun x => k))
  (at level 61, m at next level, right associativity) : go_scope.
Notation "' p <- m ;; k" := (bind m (fun x => let p := x in k))
  (at level 61, p pattern, m at next level, right associativity) : go_scope.
Notation "m ;;; k" := (bind m (fun _ => k))
  (at level 61, right associativity) : go_scope.
Local Open Scope go_scope.

(** ** os.File *)

Definition MaxInt64 : Z := 2 ^ 63 - 1.

(** A regular file: its bytes, and how many bytes the device lets it hold
    (a full disk, a quota); no file grows past the largest [int64] offset. *)
Record File : Type := mkFile { f_data : list byte; f_limit : Z }.

Definition File_room (f : File) : Z := Z.min (f_limit f) MaxInt64.

(** [File.Write(p)] on a file opened with [O_APPEND]: [p] is appended
    whole, or the write fails and nothing is written. *)
Definition File_Write (p : list byte) : M File Z := fun f =>
  if len (f_data f) + len p <=? File_room f
  then (Ok (len p), mkFile (f_data f ++ p) (f_limit f))
  else (Err os_error, f).

(** [File.ReadAt(b, off)] with [len(b) = n]: a negative offset is an
    error, an empty buffer reads nothing, and fewer than [n] bytes at [off]
    is [io.EOF]. *)
Definition File_ReadAt (n off : Z) (f : File) : result (list byte) :=
  if off <? 0 then Err os_error
  else if n =? 0 then Ok []
  else match slice (f_data f) off (off + n) with
       | Some b => Ok b
       | None => Err io_EOF
       end.

(** [os.Truncate(name, size)]: cut the file, or extend it with zero bytes. *)
Definition os_Truncate (size : Z) (data : list byte) : result (list byte) :=
  if size <? 0 then Err os_error
  else Ok (firstn (Z.to_nat size) data
           ++ repeat Byte.x00 (Z.to_nat size - length data)).

(** ** bufio.Writer *)

(** The writer's pending bytes and its sticky error; the file it writes to
    is the store's own file, so the two travel together. *)
Record Writer : Type := mkWriter { w_buf : list byte; w_err : option error }.

Definition defaultBufSize : Z := 4096.

Definition NewWriter : Writer := mkWriter [] None.

Definition Available (w : Writer) : Z := defaultBufSize - len (w_buf w).
Definition Buffered (w : Writer) : Z := len (w_buf w).

(** [Writer.Flush()]. *)
Definition Flush : M (File * Writer) unit := fun '(f, w) =>
  match w_err w with
  | Some e => (Err e, (f, w))
  | None =>
    if Buffered w =? 0 then (Ok tt, (f, w))
    else match File_Write (w_buf w) f with
         | (Ok _, f') => (Ok tt, (f', mkWriter [] None))
         | (Err e, f') => (Err e, (f', mkWriter (w_buf w) (Some e)))
         end
  end.

(** The loop of [Writer.Write(p)]:
    [for len(p) > b.Available() && b.err == nil].  It carries the unwritten
    rest of [p] and the count [nn]. *)
Fixpoint Write_loop (fuel : nat) (p : list byte) (nn : Z) (fw : File * Writer)
  : list byte * Z * (File * Writer) :=
  match fuel with
  | O => (p, nn, fw)
  | S fuel' =>
    let '(f, w) := fw in
    match w_err w with
    | Some _ => (p, nn, fw)
    | None =>
      if len p >? Available w then
        if Buffered w =? 0 then
          (* large write, empty buffer: write directly from p *)
          match File_Write p f with
          | (Ok n, f') => Write_loop fuel' [] (nn + n) (f', w)
          | (Err e, f') => Write_loop fuel' p nn (f', mkWriter (w_buf w) (Some e))
          end
        else
          let n := Z.to_nat (Available w) in
          let w1 := mkWriter (w_buf w ++ firstn n p) None in
          let '(_, fw') := Flush (f, w1) in
          Write_loop fuel' (skipn n p) (nn + Available w) fw'
      else (p, nn, fw)
    end
  end.

(** [Writer.Write(p)]: the loop runs at most twice (fill and flush, then
    a direct write), see [Write_loop_fuel]. *)
Definition Write (p : list byte) : M (File * Writer) Z := fun fw =>
  let '(p', nn, (f, w)) := Write_loop 2 p 0 fw in
  match w_err w with
  | Some e => (Err e, (f, w))
  | None => (Ok (nn + len p'), (f, mkWriter (w_buf w ++ p') None))
  end.

(** ** The store *)

Definition lenWidth : Z := 8.

(** [s_File] is the embedded [*os.File], [s_buf] the writer over it. *)
Record store : Type := mkStore { s_File : File; s_buf : Writer; s_size : Z }.

Definition store_io {A} (m : M (File * Writer) A) : M store A :=
  on (fun s => (s_File s, s_buf s))
     (fun fw s => mkStore (fst fw) (snd fw) (s_size s)) m.

Definition newStore (f : File) : store :=
  mkStore f NewWriter (u64 (len (f_data f))).

(** [store.Append]: [binary.Write] of the length, then the payload. *)
Definition store_Append (p : list byte) : M store (Z * Z) :=
  s <- get ;;
  let pos := s_size s in
  store_io (Write (PutUint64 (u64 (len p)))) ;;;
  w <- store_io (Write p) ;;
  let w := i64 (w + lenWidth) in
  s <- get ;;
  put (mkStore (s_File s) (s_buf s) (u64 (s_size s + u64 w))) ;;;
  ret (u64 w, pos).

(** [make([]byte, n)] for a [uint64] length panics when [n] is no [int]. *)
Definition make_len {S} (n : Z) : M S Z :=
  if n >? MaxInt64 then fail go_panic else ret n.

(** [store.Read]. *)
Definition store_Read (pos : Z) : M store (list byte) :=
  store_io Flush ;;;
  s <- get ;;
  size <- of_result (File_ReadAt lenWidth (i64 pos) (s_File s)) ;;
  n <- make_len (Uint64 size) ;;
  b <- of_result (File_ReadAt n (i64 (u64 (pos + lenWidth))) (s_File s)) ;;
  ret b.

(** [store.Close]: flush; the file is what remains on disk. *)
Definition store_Close : M store unit := store_io Flush.

(** [File.ReadAt(b, off)] with [len(b) = n], as [store.ReadAt] hands it
    back: the bytes read (their number is the [int] it returns) and the
    error.  Fewer than [n] bytes at [off] are returned together with
    [io.EOF]; a negative offset reads nothing. *)
Definition File_ReadAt_n (n off : Z) (f : File) : list byte * option error :=
  if off <? 0 then ([], Some os_error)
  else
    let got := firstn (Z.to_nat n) (skipn (Z.to_nat off) (f_data f)) in
    (got, if len got <? n then Some io_EOF else None).

(** [store.ReadAt(p, off)] with [len(p) = n]: flush, then read the file.
    A failed flush returns no bytes. *)
Definition store_ReadAt (n off : Z) (s : store)
  : (list byte * option error) * store :=
  match store_io Flush s with
  | (Err e, s') => (([], Some e), s')
  | (Ok _, s') => (File_ReadAt_n n off (s_File s'), s')
  end.

(** ** Config *)

Record Config : Type := mkConfig {
  MaxStoreBytes : Z;
  MaxIndexBytes : Z;
  InitialOffset : Z
}.

(** ** The index *)

Definition offWidth : Z := 4.
Definition posWidth : Z := 8.
Definition entWidth : Z := offWidth + posWidth.

(** [i_mmap] is the mapping of the whole index file (shared: it is the
    file's content while the index is open), [i_size] the bytes in use. *)
Record index : Type := mkIndex { i_mmap : list byte; i_size : Z }.

(** [newIndex] over a file holding [f]: the size is the file's length, the
    file is resized to [MaxIndexBytes] and mapped. *)
Definition newIndex (f : list byte) (c : Config) : result index :=
  let size := u64 (len f) in
  match os_Truncate (i64 (MaxIndexBytes c)) f with
  | Err e => Err e
  | Ok mapped => Ok (mkIndex mapped size)
  end.

(** [index.Close]: sync, then cut the file to [size]; the result is the file
    left on disk. *)
Definition index_Close (i : index) : result (list byte) :=
  os_Truncate (i64 (i_size i)) (i_mmap i).

(** [index.Read]. *)
Definition index_Read (in_ : Z) (i : index) : result (Z * Z) :=
  if i_size i =? 0 then Err io_EOF
  else
    let out := if in_ =? -1
               then u32 (u64 (i_size i / entWidth - 1))
               else u32 in_ in
    let pos := u64 (out * entWidth) in
    if i_size i <? u64 (pos + entWidth) then Err io_EOF
    else
      match slice (i_mmap i) pos (u64 (pos + offWidth)),
            slice (i_mmap i) (u64 (pos + offWidth)) (u64 (pos + entWidth)) with
      | Some o, Some p => Ok (Uint32 o, Uint64 p)
      | _, _ => Err go_panic
      end.

(** [index.Write]. *)
Definition index_Write (off pos : Z) : M index unit := fun i =>
  if len (i_mmap i) <? u64 (i_size i + entWidth) then (Err io_EOF, i)
  else
    match slice (i_mmap i) (i_size i) (u64 (i_size i + offWidth)) with
    | None => (Err go_panic, i)
    | Some _ =>
      let m1 := overwrite (i_mmap i) (i_size i) (PutUint32 off) in
      match slice m1 (u64 (i_size i + offWidth)) (u64 (i_size i + entWidth)) with
      | None => (Err go_panic, mkIndex m1 (i_size i))
      | Some _ =>
        let m2 := overwrite m1 (u64 (i_size i + offWidth)) (PutUint64 pos) in
        (Ok tt, mkIndex m2 (u64 (i_size i + entWidth)))
      end
    end.

(** ** Records and their wire codec *)

(** [api.Record]: the payload and the offset the segment assigns. *)
Record Record_ : Type := mkRecord { Value : list byte; Offset : Z }.

(** [proto.Marshal] and [proto.Unmarshal] for [api.Record] belong to the
    protobuf library; the segment relies on one thing about them: what
    [Marshal] produced, [Unmarshal] reads back. *)
Class Codec : Type := {
  Marshal : Record_ -> result (list byte);
  Unmarshal : list byte -> result Record_;
  Unmarshal_Marshal : forall r p,
    0 <= Offset r < 2 ^ 64 -> Marshal r = Ok p -> Unmarshal p = Ok r
}.

(** ** The segment *)

Record segment : Type := mkSegment {
  seg_store : store;
  seg_index : index;
  baseOffset : Z;
  nextOffset : Z;
  config : Config
}.

Definition with_store (st : store) (s : segment) : segment :=
  mkSegment st (seg_index s) (baseOffset s) (nextOffset s) (config s).
Definition with_index (ix : index) (s : segment) : segment :=
  mkSegment (seg_store s) ix (baseOffset s) (nextOffset s) (config s).
Definition with_nextOffset (n : Z) (s : segment) : segment :=
  mkSegment (seg_store s) (seg_index s) (baseOffset s) n (config s).

Definition on_store {A} (m : M store A) : M segment A := on seg_store with_store m.
Definition on_index {A} (m : M index A) : M segment A := on seg_index with_index m.

(** [newSegment] over the store file [storeFile] and the index file
    [indexFile] as [os.OpenFile] finds them (empty when it creates them).
    A failed [Read(-1)] means an empty index; its panic is not an error
    value and leaves [newSegment]. *)
Definition newSegment (storeFile : File) (indexFile : list byte)
    (baseOffset : Z) (c : Config) : result segment :=
  let st := newStore storeFile in
  match newIndex indexFile c with
  | Err e => Err e
  | Ok ix =>
    match index_Read (-1) ix with
    | Err go_panic => Err go_panic
    | Err _ => Ok (mkSegment st ix baseOffset baseOffset c)
    | Ok (off, _) => Ok (mkSegment st ix baseOffset (u64 (baseOffset + u64 off + 1)) c)
    end
  end.

Section Segment.
Context {codec : Codec}.

(** [segment.Append]. *)
Definition segment_Append (record : Record_) : M segment Z :=
  s <- get ;;
  let cur := nextOffset s in
  let record := mkRecord (Value record) cur in
  p <- of_result (Marshal record) ;;
  '(_, pos) <- on_store (store_Append p) ;;
  on_index (index_Write (u32 (u64 (nextOffset s - u64 (baseOffset s)))) pos) ;;;
  s <- get ;;
  put (with_nextOffset (u64 (nextOffset s + 1)) s) ;;;
  ret cur.

(** [segment.Read]. *)
Definition segment_Read (off : Z) : M segment Record_ :=
  s <- get ;;
  '(_, pos) <- of_result (index_Read (i64 (u64 (off - baseOffset s))) (seg_index s)) ;;
  p <- on_store (store_Read pos) ;;
  of_result (Unmarshal p).

(** [segment.IsMaxed]. *)
Definition segment_IsMaxed (s : segment) : bool :=
  (s_size (seg_store s) >=? MaxStoreBytes (config s))
  || (i_size (seg_index s) >=? MaxStoreBytes (config s)).

(** [segment.CLose]: the index file and the store file left on disk. *)
Definition segment_CLose (s : segment) : result (list byte * File) :=
  match index_Close (seg_index s) with
  | Err e => Err e
  | Ok ixf =>
    match store_Close (seg_store s) with
    | (Err e, _) => Err e
    | (Ok _, st) => Ok (ixf, s_File st)
    end
  end.
End Segment.

(** [nearestMultiple(j, k)].  [j >= 0] holds for every [uint64]; the
    division panics when [k] is zero. *)
Definition nearestMultiple (j k : Z) : result Z :=
  if j >=? 0 then
    if k =? 0 then Err go_panic else Ok (u64 (j / k * k))
  else
    if k =? 0 then Err go_panic else Ok (u64 (u64 (u64 (j - k) + 1) / k * k)).

(** ** The proto3 wire format of [api.Record]

    [message Record { bytes value = 1; uint64 offset = 2; }]: each field
    that is not its zero value is written as a tag and a value, a [bytes]
    field as a varint length and the bytes, a [uint64] as a varint. *)

Module Wire.

(** [protowire.AppendVarint]: base-128 digits, least significant first,
    the top bit set on all but the last; a [uint64] takes at most ten. *)
Fixpoint AppendVarint (digits : nat) (v : Z) : list byte :=
  match digits with
  | O => []
  | S k => if v <? 128 then [byte.of_Z v]
           else byte.of_Z (v mod 128 + 128) :: AppendVarint k (v / 128)
  end.

(** [protowire.ConsumeVarint]: the value and the rest of the input. *)
Fixpoint ConsumeVarint (digits : nat) (b : list byte) : option (Z * list byte) :=
  match digits, b with
  | S k, x :: t =>
    let c := byte.unsigned x in
    if c <? 128 then Some (c, t)
    else match ConsumeVarint k t with
         | Some (v, rest) => Some (c - 128 + 128 * v, rest)
         | None => None
         end
  | _, _ => None
  end.

Definition tag_value : Z := 10.   (* field 1, wire type 2 *)
Definition tag_offset : Z := 16.  (* field 2, wire type 0 *)
Definition max_message : Z := 2 ^ 31 - 1.

Definition encode (r : Record_) : list byte :=
  (match Value r with
   | [] => []
   | _ => AppendVarint 10 tag_value ++ AppendVarint 10 (len (Value r)) ++ Value r
   end)
  ++ (if Offset r =? 0 then []
      else AppendVarint 10 tag_offset ++ AppendVarint 10 (Offset r)).

(** A message over the format's 2 GiB limit is refused. *)
Definition marshal (r : Record_) : result (list byte) :=
  let b := encode r in
  if len b >? max_message then Err proto_error else Ok b.

(** The decoding loop: one field per round, a later occurrence of a field
    replacing an earlier one.  Fields other than 1 and 2, which [encode]
    never writes, are refused. *)
Fixpoint decode (rounds : nat) (b : list byte) (r : Record_) : result Record_ :=
  match b with
  | [] => Ok r
  | _ :: _ =>
    match rounds with
    | O => Err proto_error
    | S k =>
      match ConsumeVarint 10 b with
      | None => Err proto_error
      | Some (tag, b1) =>
        match ConsumeVarint 10 b1 with
        | None => Err proto_error
        | Some (v, b2) =>
          if tag =? tag_value then
            if v <=? len b2
            then decode k (skipn (Z.to_nat v) b2)
                        (mkRecord (firstn (Z.to_nat v) b2) (Offset r))
            else Err proto_error
          else if tag =? tag_offset then
            decode k b2 (mkRecord (Value r) (u64 v))
          else Err proto_error
        end
      end
    end
  end.

Definition unmarshal (b : list byte) : result Record_ :=
  decode (length b) b (mkRecord [] 0).

End Wire.

(** ** The in-memory log of [internal/server]

    [server.Log] keeps its records in a slice; a record's offset is its
    position in the slice.  The mutex is left out, as for the store. *)

Module Server.

(** [server.Record]. *)
Record Record_ : Type := mkRecord { Value : list byte; Offset : Z }.

(** [Record{}]. *)
Definition zero : Record_ := mkRecord [] 0.

(** [ErrOffsetNotFound], and the run-time panic of an index out of range. *)
Inductive error : Type :=
| ErrOffsetNotFound
| index_out_of_range.

Record Log : Type := mkLog { records : list Record_ }.

(** [NewLog()]. *)
Definition NewLog : Log := mkLog [].

(** [Log.Append]: the record is stamped with the length of the slice and
    appended; the error is always [nil]. *)
Definition Append (record : Record_) (c : Log) : (Z * option error) * Log :=
  let record := mkRecord (Value record) (u64 (len (records c))) in
  let c := mkLog (records c ++ [record]) in
  ((Offset record, None), c).

(** [Log.Read].  [c == &Log{}] compares [c] with a pointer allocated for
    the comparison, which no pointer held before equals. *)
Definition Read (offset : Z) (c : Log) : Record_ * option error :=
  if (offset >=? u64 (len (records c))) || false
  then (zero, Some ErrOffsetNotFound)
  else match nth_error (records c) (Z.to_nat offset) with
       | Some r => (r, None)
       | None => (zero, Some index_out_of_range)
       end.

(** Appending the records of a list in order: the offsets returned and the
    log left. *)
Fixpoint Append_all (rs : list Record_) (c : Log) : list Z * Log :=
  match rs with
  | [] => ([], c)
  | r :: t =>
    let '((off, _), c1) := Append r c in
    let '(offs, c2) := Append_all t c1 in
    (off :: offs, c2)
  end.

End Server.

(** ** Vocabulary of the properties *)

(** Entry number [j] of a mapped index: the pair decoded from the twelve
    bytes at [j * entWidth]. *)
Definition entry_at (m : list byte) (j : Z) : Z * Z :=
  (Uint32 (skipn (Z.to_nat (j * entWidth)) m),
   Uint64 (skipn (Z.to_nat (j * entWidth + offWidth)) m)).

(** The twelve bytes [index.Write] stores for an entry. *)
Definition entry_bytes (e : Z * Z) : list byte :=
  PutUint32 (fst e) ++ PutUint64 (snd e).

(** What a read of the store sees: the file followed by the bytes still in
    the writer. *)
Definition store_contents (s : store) : list byte :=
  f_data (s_File s) ++ w_buf (s_buf s).

(** A payload as the store frames it. *)
Definition frame (p : list byte) : list byte := PutUint64 (len p) ++ p.

(** Calling a method on each element of a list in order; the first failure
    ends the run. *)
Fixpoint mapM {S A B} (f : A -> M S B) (l : list A) : M S (list B) :=
  match l with
  | [] => ret []
  | a :: t => b <- f a ;; bs <- mapM f t ;; ret (b :: bs)
  end.

(** An index that holds [K] entries: [size] counts them and they lie in
    the mapped region. *)
Definition holds (i : index) (K : Z) : Prop :=
  i_size i = K * entWidth /\ i_size i <= len (i_mmap i).

(** A writer without error whose buffer is within its capacity. *)
Definition writer_ok (w : Writer) : Prop :=
  w_err w = None /\ len (w_buf w) <= defaultBufSize.

(** A store as [newStore] and its methods keep it: the writer is sound, the
    file is no longer than a file can be, and [size] is the length of what
    has been written. *)
Definition store_ok (s : store) : Prop :=
  writer_ok (s_buf s)
  /\ len (f_data (s_File s)) <= MaxInt64
  /\ s_size s = len (store_contents s).

(** The store of a log of payloads, the position of payload [k] in it, and
    the index entries [Append] writes for them. *)
Definition log_bytes (ps : list (list byte)) : list byte := flat_map frame ps.

Definition position (ps : list (list byte)) (k : nat) : Z :=
  len (log_bytes (firstn k ps)).

Definition index_entries (ps : list (list byte)) : list (Z * Z) :=
  map (fun k => (u32 (Z.of_nat k), position ps k)) (seq 0 (length ps)).

Definition index_bytes (es : list (Z * Z)) : list byte := flat_map entry_bytes es.

Section Representation.
Context {codec : Codec}.

(** The segment holds the log [log] of stamped records and their wire
    bytes: the store is their frames, the index maps entry [k] to the
    position of frame [k], and [nextOffset] counts them. *)
Definition seg_rep (log : list (Record_ * list byte)) (s : segment) : Prop :=
  store_ok (seg_store s)
  /\ store_contents (seg_store s) = log_bytes (map snd log)
  /\ (exists tail, i_mmap (seg_index s) = index_bytes (index_entries (map snd log)) ++ tail)
  /\ i_size (seg_index s) = len log * entWidth
  /\ len (i_mmap (seg_index s)) <= MaxInt64
  /\ 0 <= baseOffset s < 2 ^ 64
  /\ nextOffset s = u64 (baseOffset s + len log)
  /\ Forall (fun rp => Marshal (fst rp) = Ok (snd rp)
                       /\ 0 <= Offset (fst rp) < 2 ^ 64) log.

End Representation.

(** The room the store file must have for a read to flush the writer. *)
Definition store_fits (s : segment) : Prop :=
  len (store_contents (seg_store s)) <= File_room (s_File (seg_store s)).

(** The indexes the package can produce: [newIndex] over a file, then any
    calls of [Write]. *)
Inductive index_reached : index -> Prop :=
| reached_newIndex f c i :
    len f <= MaxInt64 -> newIndex f c = Ok i -> index_reached i
| reached_Write off pos i :
    index_reached i -> index_reached (snd (index_Write off pos i)).

(** The stores the package can produce: [newStore] over a file, then any
    calls of [Append] and [Read], failed ones included. *)
Inductive store_reached : store -> Prop :=
| reached_newStore f :
    len (f_data f) <= MaxInt64 -> store_reached (newStore f)
| reached_Append p s :
    store_reached s -> store_reached (snd (store_Append p s))
| reached_Read pos s :
    store_reached s -> store_reached (snd (store_Read pos s)).

(** What every such store satisfies: once the writer has an error nothing
    is promised about [size]. *)
Definition store_inv (s : store) : Prop :=
  len (w_buf (s_buf s)) <= defaultBufSize
  /\ len (f_data (s_File s)) <= MaxInt64
  /\ (w_err (s_buf s) = None -> s_size s = len (store_contents s)).

(** What [Read] reads at [pos] once the store is flushed to the bytes [d]. *)
Definition read_frame (pos : Z) (d : list byte) : result (list byte) :=
  match File_ReadAt lenWidth (i64 pos) (mkFile d 0) with
  | Err e => Err e
  | Ok size =>
    if Uint64 size >? MaxInt64 then Err go_panic
    else File_ReadAt (Uint64 size) (i64 (u64 (pos + lenWidth))) (mkFile d 0)
  end.

(** [Write] of an entry given as a pair. *)
Definition index_Write_entry (e : Z * Z) : M index unit := index_Write (fst e) (snd e).

(** The index holds the entries [es], in order, from the start of the
    mapped region. *)
Definition index_rep (es : list (Z * Z)) (i : index) : Prop :=
  (exists tail, i_mmap i = index_bytes es ++ tail)
  /\ i_size i = len es * entWidth
  /\ len (i_mmap i) <= MaxInt64.

Section Reached.
Context {codec : Codec}.

(** The segments the package can produce: [newSegment] over two files, then
    any calls of [Append] and [Read], failed ones included. *)
Inductive segment_reached : segment -> Prop :=
| reached_newSegment sf ixf base c s :
    len (f_data sf) <= MaxInt64 -> len ixf <= MaxInt64 ->
    newSegment sf ixf base c = Ok s -> segment_reached s
| reached_segment_Append r s :
    segment_reached s -> segment_reached (snd (segment_Append r s))
| reached_segment_Read off s :
    segment_reached s -> segment_reached (snd (segment_Read off s)).

(** The segments a segment [s0] becomes under calls of [Append] and [Read],
    failed ones included. *)
Inductive segment_from (s0 : segment) : segment -> Prop :=
| from_start : segment_from s0 s0
| from_Append r s : segment_from s0 s -> segment_from s0 (snd (segment_Append r s))
| from_Read off s : segment_from s0 s -> segment_from s0 (snd (segment_Read off s)).

End Reached.

(** The records [Append_all] adds to a log of [n] records. *)
Fixpoint stamped (n : Z) (rs : list Server.Record_) : list Server.Record_ :=
  match rs with
  | [] => []
  | r :: t => Server.mkRecord (Server.Value r) (u64 n) :: stamped (n + 1) t
  end.

(** ** Inputs the properties are run on *)

(** The scenario of the spec: an index of 120 bytes (10 entries), a store
    ceiling of 1024 bytes, the records "a", "bb" and "ccc". *)
Definition spec_config : Config := mkConfig 1024 120 0.
Definition spec_file : File := mkFile [] 65536.
Definition rec_a : Record_ := mkRecord [Byte.x61] 0.
Definition rec_bb : Record_ := mkRecord [Byte.x62; Byte.x62] 0.
Definition rec_ccc : Record_ := mkRecord [Byte.x63; Byte.x63; Byte.x63] 0.
Definition abc : list Record_ := [rec_a; rec_bb; rec_ccc].
Definition abc_fresh : segment :=
  mkSegment (newStore spec_file) (mkIndex (repeat Byte.x00 120) 0) 0 0 spec_config.

(** An index ceiling of 36 bytes: three entries. *)
Definition small_config : Config := mkConfig 1024 36 0.

(** An index file holding the entries (0, 0) and (1, 11), and the index of
    36 mapped bytes opened over it. *)
Definition two_entries_file : list byte := entry_bytes (0, 0) ++ entry_bytes (1, 11).
Definition two_entries : index :=
  mkIndex (entry_bytes (0, 0) ++ entry_bytes (1, 11) ++ repeat Byte.x00 12) 24.
Definition empty_index : index := mkIndex (repeat Byte.x00 12) 0.
Definition small_store : store := newStore (mkFile [] 100).

(** [2^32] records with an empty payload followed by one with the payload
    [01], appended to a fresh segment whose index has room for all of them. *)
Definition r_first : Record_ := mkRecord [] 0.
Definition r_last : Record_ := mkRecord [Byte.x01] 0.
Definition long_run (n : nat) : list Record_ := repeat r_first n ++ [r_last].
Definition long_config : Config := mkConfig (2 ^ 40) (12 * (2 ^ 32 + 1)) 0.
Definition long_file : File := mkFile [] (2 ^ 40).

(** * Properties *)

(** ** The big-endian encoding *)

Lemma len_nonneg {A} (l : list A) : 0 <= len l.
Proof. unfold len. lia. Qed.

Lemma len_app {A} (l1 l2 : list A) : len (l1 ++ l2) = len l1 + len l2.
Proof. unfold len. rewrite length_app. lia. Qed.

Lemma len_nil {A} : len (@nil A) = 0.
Proof. reflexivity. Qed.

Lemma to_nat_len {A} (l : list A) : Z.to_nat (len l) = length l.
Proof. unfold len. apply Nat2Z.id. Qed.

Lemma firstn_len_app {A} (l1 l2 : list A) : firstn (length l1) (l1 ++ l2) = l1.
Proof.
  rewrite firstn_app, firstn_all, Nat.sub_diag. cbn [firstn]. apply app_nil_r.
Qed.

Lemma skipn_len_app {A} (l1 l2 : list A) : skipn (length l1) (l1 ++ l2) = l2.
Proof.
  rewrite skipn_app, skipn_all, Nat.sub_diag. reflexivity.
Qed.

Lemma Uint32_le b :
  Uint32 b = le_combine [nth 3 b Byte.x00; nth 2 b Byte.x00;
                         nth 1 b Byte.x00; nth 0 b Byte.x00].
Proof.
  unfold Uint32, at_. cbv [le_combine].
  rewrite Z.shiftl_0_l, Z.lor_0_r.
  rewrite !Z.shiftl_lor, !Z.shiftl_shiftl by lia. cbn [Z.add Pos.add Pos.succ].
  rewrite !Z.lor_assoc. reflexivity.
Qed.

Lemma Uint64_le b :
  Uint64 b = le_combine [nth 7 b Byte.x00; nth 6 b Byte.x00;
                         nth 5 b Byte.x00; nth 4 b Byte.x00;
                         nth 3 b Byte.x00; nth 2 b Byte.x00;
                         nth 1 b Byte.x00; nth 0 b Byte.x00].
Proof.
  unfold Uint64, at_. cbv [le_combine].
  rewrite Z.shiftl_0_l, Z.lor_0_r.
  rewrite !Z.shiftl_lor, !Z.shiftl_shiftl by lia. cbn [Z.add Pos.add Pos.succ].
  rewrite !Z.lor_assoc. reflexivity.
Qed.

Lemma nth_firstn_lt {A} (l : list A) d : forall n i,
  (i < n)%nat -> nth i (firstn n l) d = nth i l d.
Proof.
  induction l as [|a l IH]; intros n i H.
  - rewrite firstn_nil. reflexivity.
  - destruct n as [|n]; [lia|]. destruct i as [|i]; [reflexivity|].
    cbn [firstn nth]. apply IH. lia.
Qed.

Lemma shiftr_shiftr8 v k : 0 <= k -> Z.shiftr (Z.shiftr v k) 8 = Z.shiftr v (k + 8).
Proof. intros. apply Z.shiftr_shiftr. lia. Qed.

Lemma PutUint32_le v : PutUint32 v = rev (le_split 4 v).
Proof.
  unfold PutUint32. cbv [le_split rev app].
  rewrite !shiftr_shiftr8 by lia. reflexivity.
Qed.

Lemma PutUint64_le v : PutUint64 v = rev (le_split 8 v).
Proof.
  unfold PutUint64. cbv [le_split rev app].
  rewrite !shiftr_shiftr8 by lia. reflexivity.
Qed.

Lemma length_PutUint32 v : length (PutUint32 v) = 4%nat.
Proof. reflexivity. Qed.

Lemma length_PutUint64 v : length (PutUint64 v) = 8%nat.
Proof. reflexivity. Qed.

Lemma Uint32_PutUint32 v rest : Uint32 (PutUint32 v ++ rest) = u32 v.
Proof.
  rewrite Uint32_le. cbn [PutUint32 app nth].
  change [byte.of_Z v; byte.of_Z (Z.shiftr v 8); byte.of_Z (Z.shiftr v 16);
          byte.of_Z (Z.shiftr v 24)] with (rev (PutUint32 v)).
  rewrite PutUint32_le, rev_involutive, le_combine_split. reflexivity.
Qed.

Lemma Uint64_PutUint64 v rest : Uint64 (PutUint64 v ++ rest) = u64 v.
Proof.
  rewrite Uint64_le. cbn [PutUint64 app nth].
  change [byte.of_Z v; byte.of_Z (Z.shiftr v 8); byte.of_Z (Z.shiftr v 16);
          byte.of_Z (Z.shiftr v 24); byte.of_Z (Z.shiftr v 32);
          byte.of_Z (Z.shiftr v 40); byte.of_Z (Z.shiftr v 48);
          byte.of_Z (Z.shiftr v 56)] with (rev (PutUint64 v)).
  rewrite PutUint64_le, rev_involutive, le_combine_split. reflexivity.
Qed.

(** ** The wire codec reads back what it wrote *)

Lemma byte_unsigned_of_Z_small z : 0 <= z < 256 -> byte.unsigned (byte.of_Z z) = z.
Proof.
  intros H. rewrite byte.unsigned_of_Z. unfold byte.wrap.
  apply Z.mod_small. change (2 ^ 8) with 256. lia.
Qed.

Lemma ConsumeVarint_AppendVarint digits : forall v rest,
  0 <= v < 128 ^ Z.of_nat (S digits) ->
  Wire.ConsumeVarint (S digits) (Wire.AppendVarint (S digits) v ++ rest) = Some (v, rest).
Proof.
  induction digits as [|k IH]; intros v rest Hv.
  - change (128 ^ Z.of_nat 1) with 128 in Hv.
    cbn [Wire.AppendVarint]. destruct (Z.ltb_spec v 128) as [Hs|Hl]; [|lia].
    cbn [app Wire.ConsumeVarint]. rewrite byte_unsigned_of_Z_small by lia.
    destruct (Z.ltb_spec v 128); [reflexivity|lia].
  - remember (S k) as d eqn:Ed.
    cbn [Wire.AppendVarint]. destruct (Z.ltb_spec v 128) as [Hs|Hl].
    + cbn [app Wire.ConsumeVarint]. rewrite byte_unsigned_of_Z_small by lia.
      destruct (Z.ltb_spec v 128); [reflexivity|lia].
    + cbn [app Wire.ConsumeVarint].
      assert (Hm : 0 <= v mod 128 < 128) by (apply Z.mod_pos_bound; lia).
      rewrite byte_unsigned_of_Z_small by lia.
      destruct (Z.ltb_spec (v mod 128 + 128) 128); [lia|].
      subst d. rewrite IH.
      * f_equal. f_equal. pose proof (Z.div_mod v 128). lia.
      * rewrite Nat2Z.inj_succ, Z.pow_succ_r in Hv by lia.
        split; [apply Z.div_pos; lia | apply Z.div_lt_upper_bound; lia].
Qed.

Lemma ConsumeVarint_u64 v rest : 0 <= v < 2 ^ 64 ->
  Wire.ConsumeVarint 10 (Wire.AppendVarint 10 v ++ rest) = Some (v, rest).
Proof.
  intros H. apply (ConsumeVarint_AppendVarint 9).
  change (128 ^ Z.of_nat 10) with (2 ^ 70). lia.
Qed.

Lemma AppendVarint_nonempty v : 0 <= v -> Wire.AppendVarint 10 v <> [].
Proof. intros _. cbn [Wire.AppendVarint]. destruct (v <? 128); discriminate. Qed.

Lemma decode_field_value k (val rest : list byte) r :
  0 <= len val < 2 ^ 64 ->
  Wire.decode (S k)
    (Wire.AppendVarint 10 Wire.tag_value ++ Wire.AppendVarint 10 (len val) ++ val ++ rest) r
  = Wire.decode k rest (mkRecord val (Offset r)).
Proof.
  intros Hl.
  destruct (Wire.AppendVarint 10 Wire.tag_value ++
            Wire.AppendVarint 10 (len val) ++ val ++ rest) as [|x t] eqn:E.
  { apply app_eq_nil in E. destruct E as [E _].
    exfalso. revert E. apply AppendVarint_nonempty. unfold Wire.tag_value. lia. }
  rewrite <- E. cbn [Wire.decode].
  rewrite ConsumeVarint_u64 by (unfold Wire.tag_value; lia).
  rewrite ConsumeVarint_u64 by lia.
  change (Wire.tag_value =? Wire.tag_value) with true. cbv iota.
  rewrite len_app.
  destruct (Z.leb_spec (len val) (len val + len rest)) as [_|Hc];
    [|pose proof (len_nonneg rest); lia].
  rewrite to_nat_len, firstn_len_app, skipn_len_app. reflexivity.
Qed.

Lemma decode_field_offset k (v : Z) (rest : list byte) r :
  0 <= v < 2 ^ 64 ->
  Wire.decode (S k) (Wire.AppendVarint 10 Wire.tag_offset ++ Wire.AppendVarint 10 v ++ rest) r
  = Wire.decode k rest (mkRecord (Value r) v).
Proof.
  intros Hv.
  destruct (Wire.AppendVarint 10 Wire.tag_offset ++ Wire.AppendVarint 10 v ++ rest)
    as [|x t] eqn:E.
  { apply app_eq_nil in E. destruct E as [E _].
    exfalso. revert E. apply AppendVarint_nonempty. unfold Wire.tag_offset. lia. }
  rewrite <- E. cbn [Wire.decode].
  rewrite ConsumeVarint_u64 by (unfold Wire.tag_offset; lia).
  rewrite ConsumeVarint_u64 by lia.
  change (Wire.tag_offset =? Wire.tag_value) with false.
  change (Wire.tag_offset =? Wire.tag_offset) with true. cbv iota.
  unfold u64. rewrite Z.mod_small by lia. reflexivity.
Qed.

Lemma decode_nil k r : Wire.decode k [] r = Ok r.
Proof. destruct k; reflexivity. Qed.

Lemma AppendVarint_length v : (1 <= length (Wire.AppendVarint 10 v))%nat.
Proof. cbn [Wire.AppendVarint]. destruct (v <? 128); cbn [length]; lia. Qed.

Lemma Wire_unmarshal_encode r :
  0 <= Offset r < 2 ^ 64 -> len (Wire.encode r) <= Wire.max_message ->
  Wire.unmarshal (Wire.encode r) = Ok r.
Proof.
  intros Ho Hsz. unfold Wire.unmarshal.
  destruct r as [val off]. cbn [Offset] in Ho.
  unfold Wire.encode in *. cbn [Value Offset] in *.
  pose proof (AppendVarint_length Wire.tag_offset) as Lt.
  pose proof (AppendVarint_length off) as Lo.
  pose proof (AppendVarint_length Wire.tag_value) as Lv.
  destruct val as [|x val']; destruct (Z.eqb_spec off 0) as [->|Hnz].
  - reflexivity.
  - cbn [app]. rewrite length_app.
    destruct (length (Wire.AppendVarint 10 Wire.tag_offset)
              + length (Wire.AppendVarint 10 off))%nat as [|k] eqn:E; [lia|].
    rewrite <- (app_nil_r (Wire.AppendVarint 10 off)).
    rewrite decode_field_offset by lia. apply decode_nil.
  - set (val := x :: val') in *. rewrite app_nil_r in *.
    assert (Hl : 0 <= len val < 2 ^ 64).
    { split; [apply len_nonneg|]. rewrite !len_app in Hsz.
      pose proof (len_nonneg (Wire.AppendVarint 10 Wire.tag_value)).
      pose proof (len_nonneg (Wire.AppendVarint 10 (len val))).
      unfold Wire.max_message in Hsz. lia. }
    rewrite length_app.
    destruct (length (Wire.AppendVarint 10 Wire.tag_value)
              + length (Wire.AppendVarint 10 (len val) ++ val))%nat as [|k] eqn:E; [lia|].
    rewrite <- (app_nil_r val) at 2.
    rewrite decode_field_value by lia. apply decode_nil.
  - set (val := x :: val') in *.
    assert (Hl : 0 <= len val < 2 ^ 64).
    { split; [apply len_nonneg|]. rewrite !len_app in Hsz.
      pose proof (len_nonneg (Wire.AppendVarint 10 Wire.tag_value)).
      pose proof (len_nonneg (Wire.AppendVarint 10 (len val))).
      pose proof (len_nonneg (Wire.AppendVarint 10 Wire.tag_offset)).
      pose proof (len_nonneg (Wire.AppendVarint 10 off)).
      unfold Wire.max_message in Hsz. lia. }
    rewrite <- !app_assoc.
    rewrite !length_app.
    destruct (length (Wire.AppendVarint 10 Wire.tag_value)
              + (length (Wire.AppendVarint 10 (len val))
                 + (length val + (length (Wire.AppendVarint 10 Wire.tag_offset)
                    + length (Wire.AppendVarint 10 off)))))%nat as [|[|k]] eqn:E;
      [lia|lia|].
    rewrite decode_field_value by lia.
    rewrite <- (app_nil_r (Wire.AppendVarint 10 off)).
    rewrite decode_field_offset by lia. apply decode_nil.
Qed.

Lemma Wire_roundtrip r p :
  0 <= Offset r < 2 ^ 64 -> Wire.marshal r = Ok p -> Wire.unmarshal p = Ok r.
Proof.
  intros Ho. unfold Wire.marshal.
  destruct (Z.gtb_spec (len (Wire.encode r)) Wire.max_message) as [|Hsz];
    [discriminate|].
  intros [= <-]. apply Wire_unmarshal_encode; assumption.
Qed.

(** The codec the segment runs with. *)
#[export] Instance wire_codec : Codec :=
  {| Marshal := Wire.marshal; Unmarshal := Wire.unmarshal;
     Unmarshal_Marshal := Wire_roundtrip |}.

(** ** Integer conversions *)

Lemma u64_small z : 0 <= z < 2 ^ 64 -> u64 z = z.
Proof. intros. unfold u64. apply Z.mod_small. assumption. Qed.

Lemma u32_small z : 0 <= z < 2 ^ 32 -> u32 z = z.
Proof. intros. unfold u32. apply Z.mod_small. assumption. Qed.

Lemma u64_range z : 0 <= u64 z < 2 ^ 64.
Proof. unfold u64. apply Z.mod_pos_bound. lia. Qed.

Lemma u32_range z : 0 <= u32 z < 2 ^ 32.
Proof. unfold u32. apply Z.mod_pos_bound. lia. Qed.

Lemma i64_small z : - 2 ^ 63 <= z < 2 ^ 63 -> i64 z = z.
Proof. intros. unfold i64. rewrite Z.mod_small; lia. Qed.

Lemma u32_u64 z : u32 (u64 z) = u32 z.
Proof.
  unfold u32, u64. change (2 ^ 64) with (2 ^ 32 * 2 ^ 32).
  rewrite Z.rem_mul_r by lia.
  rewrite (Z.mul_comm (2 ^ 32)), Z.mod_add by lia.
  apply Z.mod_mod. lia.
Qed.

Lemma u64_i64 z : u64 (i64 z) = u64 z.
Proof.
  unfold u64, i64.
  rewrite Zminus_mod, Zmod_mod, <- Zminus_mod.
  f_equal. lia.
Qed.

Lemma u32_i64 z : u32 (i64 z) = u32 z.
Proof. rewrite <- u32_u64, u64_i64. apply u32_u64. Qed.

Lemma u64_add_sub b n : u64 (u64 (b + n) - b) = u64 n.
Proof.
  unfold u64. rewrite Zminus_mod, Zmod_mod, <- Zminus_mod.
  f_equal. lia.
Qed.


(** ** Slices *)

Lemma slice_in_bounds b lo hi :
  0 <= lo -> lo <= hi -> hi <= len b ->
  slice b lo hi = Some (firstn (Z.to_nat (hi - lo)) (skipn (Z.to_nat lo) b)).
Proof.
  intros H1 H2 H3. unfold slice.
  destruct (Z.leb_spec 0 lo); [|lia].
  destruct (Z.leb_spec lo hi); [|lia].
  destruct (Z.leb_spec hi (len b)); [|lia].
  reflexivity.
Qed.

Lemma slice_Some_inv b lo hi x :
  slice b lo hi = Some x -> 0 <= lo /\ lo <= hi /\ hi <= len b.
Proof.
  unfold slice.
  destruct (Z.leb_spec 0 lo); [|discriminate].
  destruct (Z.leb_spec lo hi); [|discriminate].
  destruct (Z.leb_spec hi (len b)); [|discriminate].
  intros _. lia.
Qed.

Lemma slice_app_mid (pre mid post : list byte) :
  slice (pre ++ mid ++ post) (len pre) (len pre + len mid) = Some mid.
Proof.
  rewrite slice_in_bounds.
  - replace (len pre + len mid - len pre) with (len mid) by lia.
    rewrite !to_nat_len, skipn_len_app, firstn_len_app. reflexivity.
  - apply len_nonneg.
  - pose proof (len_nonneg mid). lia.
  - rewrite !len_app. pose proof (len_nonneg post). lia.
Qed.

Lemma Uint32_firstn b : Uint32 (firstn 4 b) = Uint32 b.
Proof. unfold Uint32, at_. rewrite !nth_firstn_lt by lia. reflexivity. Qed.

Lemma Uint64_firstn b : Uint64 (firstn 8 b) = Uint64 b.
Proof. unfold Uint64, at_. rewrite !nth_firstn_lt by lia. reflexivity. Qed.

(** ** The index *)

(** [index.Read] decodes the entry its argument selects, whenever that entry
    lies within [size]. *)
Lemma index_Read_at (i : index) (in_ j : Z) :
  i_size i <> 0 -> i_size i <= len (i_mmap i) ->
  j = (if in_ =? -1 then u32 (u64 (i_size i / entWidth - 1)) else u32 in_) ->
  (j + 1) * entWidth <= i_size i ->
  index_Read in_ i = Ok (entry_at (i_mmap i) j).
Proof.
  intros Hnz Hmap Hj Hin. unfold index_Read.
  destruct (Z.eqb_spec (i_size i) 0) as [|_]; [contradiction|].
  rewrite <- Hj.
  assert (Hr : 0 <= j < 2 ^ 32) by (subst j; destruct (in_ =? -1); apply u32_range).
  unfold entWidth, offWidth, posWidth in *.
  change (4 + 8) with 12 in *.
  rewrite (u64_small (z := j * 12)) by lia.
  rewrite !u64_small by lia.
  destruct (Z.ltb_spec (i_size i) (j * 12 + 12)); [lia|].
  rewrite !slice_in_bounds by lia.
  replace (j * 12 + 4 - j * 12) with 4 by lia.
  replace (j * 12 + 12 - (j * 12 + 4)) with 8 by lia.
  change (Z.to_nat 4) with 4%nat. change (Z.to_nat 8) with 8%nat.
  rewrite Uint32_firstn, Uint64_firstn. reflexivity.
Qed.

Lemma u32_le z : 0 <= z -> u32 z <= z.
Proof. intros. unfold u32. apply Z.mod_le; lia. Qed.

Lemma u64_le z : 0 <= z -> u64 z <= z.
Proof. intros. unfold u64. apply Z.mod_le; lia. Qed.

Lemma last_slot K : 1 <= K -> 0 <= u32 (u64 (K - 1)) <= K - 1.
Proof.
  intros. split; [apply u32_range|].
  pose proof (u64_range (K - 1)). pose proof (u64_le (z := K - 1)).
  pose proof (u32_le (z := u64 (K - 1))). lia.
Qed.

Lemma holds_quot i K : holds i K -> i_size i / entWidth = K.
Proof.
  intros [Hs _]. rewrite Hs. apply Z.div_mul. discriminate.
Qed.

Lemma index_Read_size0 (i : index) (in_ : Z) :
  i_size i = 0 -> index_Read in_ i = Err io_EOF.
Proof.
  intros H. unfold index_Read. rewrite H. reflexivity.
Qed.

(** C7: on an index whose size is 0, [Read] answers [io.EOF] (the spec's
    [NotFound]) whatever its argument, 0 and -1 included; no entry is made
    up. *)
Theorem index_Read_empty (i : index) (in_ : Z) :
  i_size i = 0 -> index_Read in_ i = Err io_EOF.
Proof.
  intros H. unfold index_Read. rewrite H. reflexivity.
Qed.

(** C8: on an index holding [K >= 1] entries, [Read(-1)] and [Read(K-1)]
    both succeed and return the same pair. *)
Theorem index_Read_last (i : index) (K : Z) :
  holds i K -> 1 <= K ->
  exists e, index_Read (-1) i = Ok e /\ index_Read (K - 1) i = Ok e.
Proof.
  intros Hh HK. pose proof (holds_quot Hh) as Hq. destruct Hh as [Hs Hm].
  pose proof (last_slot HK) as Hl.
  exists (entry_at (i_mmap i) (u32 (u64 (K - 1)))). split.
  - apply index_Read_at; try assumption.
    + unfold entWidth, offWidth, posWidth in *. lia.
    + rewrite Hq. reflexivity.
    + unfold entWidth, offWidth, posWidth in *. lia.
  - apply index_Read_at; try assumption.
    + unfold entWidth, offWidth, posWidth in *. lia.
    + destruct (Z.eqb_spec (K - 1) (-1)); [lia|]. apply u32_u64.
    + unfold entWidth, offWidth, posWidth in *. lia.
Qed.

(** C10: [Read] keeps only the low 32 bits of a non-negative argument: on
    an index holding [K >= 1] entries, every [in_ >= 0] whose low 32 bits
    are below [K] reads entry [in_ mod 2^32], however large [in_] is. *)
Theorem index_Read_truncates (i : index) (K in_ : Z) :
  holds i K -> 1 <= K -> 0 <= in_ -> in_ mod 2 ^ 32 < K ->
  index_Read in_ i = Ok (entry_at (i_mmap i) (in_ mod 2 ^ 32)).
Proof.
  intros [Hs Hm] HK Hin Hlt.
  pose proof (u32_range in_) as Hr. unfold u32 in Hr.
  apply index_Read_at; try assumption.
  - unfold entWidth, offWidth, posWidth in *. lia.
  - destruct (Z.eqb_spec in_ (-1)); [lia|]. reflexivity.
  - unfold entWidth, offWidth, posWidth in *. lia.
Qed.

Lemma len_firstn_le {A} (l : list A) n :
  0 <= n <= len l -> len (firstn (Z.to_nat n) l) = n.
Proof. unfold len. intros. rewrite length_firstn. lia. Qed.

Lemma len_overwrite b lo src :
  0 <= lo -> lo + len src <= len b -> len (overwrite b lo src) = len b.
Proof.
  unfold overwrite, len. intros.
  rewrite !length_app, length_firstn, length_skipn. lia.
Qed.

Lemma skipn_len_add_app {A} (l r : list A) k :
  skipn (length l + k) (l ++ r) = skipn k r.
Proof. rewrite Nat.add_comm, <- skipn_skipn, skipn_len_app. reflexivity. Qed.

(** Two adjacent windows written one after the other. *)
Lemma overwrite_adjacent b lo (x y : list byte) :
  0 <= lo -> lo + len x + len y <= len b ->
  overwrite (overwrite b lo x) (lo + len x) y
  = firstn (Z.to_nat lo) b ++ (x ++ y) ++ skipn (Z.to_nat (lo + len x + len y)) b.
Proof.
  intros Hlo Hb. unfold overwrite, len in *.
  replace (Z.to_nat (lo + Z.of_nat (length x))) with (Z.to_nat lo + length x)%nat by lia.
  replace (Z.to_nat (lo + Z.of_nat (length x) + Z.of_nat (length y)))
    with (Z.to_nat lo + length x + length y)%nat by lia.
  assert (Hpre : length (firstn (Z.to_nat lo) b) = Z.to_nat lo)
    by (rewrite length_firstn; lia).
  revert Hpre. generalize (firstn (Z.to_nat lo) b) as pre.
  generalize (Z.to_nat lo) as n. intros n pre <-.
  rewrite <- length_app, (app_assoc pre x), firstn_len_app, skipn_len_add_app.
  rewrite skipn_skipn, <- !app_assoc, (Nat.add_comm (length y)). reflexivity.
Qed.

(** [index.Write] with room for one more entry stores its twelve bytes at
    [size] and moves [size] past them. *)
Lemma index_Write_room (off pos : Z) (i : index) :
  0 <= i_size i -> i_size i + entWidth <= len (i_mmap i) -> len (i_mmap i) < 2 ^ 64 ->
  index_Write off pos i =
  (Ok tt, mkIndex (firstn (Z.to_nat (i_size i)) (i_mmap i) ++ entry_bytes (off, pos)
                   ++ skipn (Z.to_nat (i_size i + entWidth)) (i_mmap i))
                  (i_size i + entWidth)).
Proof.
  intros H0 Hroom Hlen. unfold index_Write.
  unfold entWidth, offWidth, posWidth in *. change (4 + 8) with 12 in *.
  rewrite !u64_small by lia.
  destruct (Z.ltb_spec (len (i_mmap i)) (i_size i + 12)); [lia|].
  rewrite slice_in_bounds by lia.
  assert (L4 : len (PutUint32 off) = 4) by reflexivity.
  assert (L8 : len (PutUint64 pos) = 8) by reflexivity.
  rewrite slice_in_bounds by (rewrite ?len_overwrite; lia).
  f_equal. f_equal.
  rewrite <- L4 at 1. rewrite overwrite_adjacent by lia.
  rewrite L4, L8. replace (i_size i + 4 + 8) with (i_size i + 12) by lia.
  reflexivity.
Qed.

Lemma index_Write_no_room (off pos : Z) (i : index) :
  0 <= i_size i -> i_size i + entWidth < 2 ^ 64 ->
  len (i_mmap i) < i_size i + entWidth ->
  index_Write off pos i = (Err io_EOF, i).
Proof.
  intros H0 H1 H2. unfold index_Write.
  rewrite u64_small by (unfold entWidth, offWidth, posWidth in *; lia).
  destruct (Z.ltb_spec (len (i_mmap i)) (i_size i + entWidth)); [reflexivity|lia].
Qed.


(** ** The file and the buffered writer *)

Lemma File_Write_fits p f :
  len (f_data f) + len p <= File_room f ->
  File_Write p f = (Ok (len p), mkFile (f_data f ++ p) (f_limit f)).
Proof.
  intros H. unfold File_Write.
  destruct (Z.leb_spec (len (f_data f) + len p) (File_room f)); [reflexivity|lia].
Qed.

Lemma File_Write_Ok_inv p f n f' :
  File_Write p f = (Ok n, f') ->
  n = len p /\ f' = mkFile (f_data f ++ p) (f_limit f)
  /\ len (f_data f) + len p <= File_room f.
Proof.
  unfold File_Write.
  destruct (Z.leb_spec (len (f_data f) + len p) (File_room f)); [|discriminate].
  intros [= <- <-]. auto.
Qed.

Lemma File_Write_Err_inv p f e f' : File_Write p f = (Err e, f') -> f' = f.
Proof.
  unfold File_Write.
  destruct (len (f_data f) + len p <=? File_room f); [discriminate|].
  intros [= _ <-]. reflexivity.
Qed.

Lemma File_room_mk d f : File_room (mkFile d (f_limit f)) = File_room f.
Proof. reflexivity. Qed.

Lemma Buffered_nil w : Buffered w = 0 -> w_buf w = [].
Proof.
  unfold Buffered, len. destruct (w_buf w); [reflexivity|]. cbn [length]. lia.
Qed.

Lemma Flush_ok f w :
  w_err w = None -> len (f_data f) + len (w_buf w) <= File_room f ->
  Flush (f, w) = (Ok tt, (mkFile (f_data f ++ w_buf w) (f_limit f), mkWriter [] None)).
Proof.
  intros He Hr. unfold Flush. rewrite He.
  destruct (Z.eqb_spec (Buffered w) 0) as [Hb|Hb].
  - apply Buffered_nil in Hb. destruct w as [b e], f as [d l]. cbn in *. subst.
    rewrite app_nil_r. reflexivity.
  - rewrite File_Write_fits by assumption. reflexivity.
Qed.

(** What [Flush] does in general: on success the pending bytes have moved
    to the file, on failure nothing has moved. *)
Lemma Flush_inv f w r f' w' :
  Flush (f, w) = (r, (f', w')) ->
  f_limit f' = f_limit f /\
  match r with
  | Ok _ => w_err w = None /\ f_data f' = f_data f ++ w_buf w /\ w_buf w' = []
            /\ w_err w' = None /\ len (f_data f') <= Z.max (len (f_data f)) (File_room f)
  | Err e => f' = f /\ w_buf w' = w_buf w /\ w_err w' = Some e
  end.
Proof.
  unfold Flush. destruct (w_err w) as [e|] eqn:He.
  - intros [= <- <- <-]. auto.
  - destruct (Z.eqb_spec (Buffered w) 0) as [Hb|Hb].
    + intros [= <- <- <-]. apply Buffered_nil in Hb. rewrite Hb, app_nil_r.
      repeat split; auto. lia.
    + destruct (File_Write (w_buf w) f) as [[n|e] f1] eqn:Ef.
      * intros [= <- <- <-]. apply File_Write_Ok_inv in Ef.
        destruct Ef as (_ & -> & Hroom). cbn. rewrite len_app.
        repeat split; auto. lia.
      * intros [= <- <- <-]. apply File_Write_Err_inv in Ef. subst. cbn. auto.
Qed.

Lemma Write_loop_exit fuel p nn f w :
  w_err w = None -> len p <= Available w ->
  Write_loop fuel p nn (f, w) = (p, nn, (f, w)).
Proof.
  intros He Ha. destruct fuel; [reflexivity|]. cbn [Write_loop]. rewrite He.
  destruct (Z.gtb_spec (len p) (Available w)); [lia|reflexivity].
Qed.

Lemma Write_loop_err fuel p nn f w e :
  w_err w = Some e -> Write_loop fuel p nn (f, w) = (p, nn, (f, w)).
Proof.
  intros He. destruct fuel; [reflexivity|]. cbn [Write_loop]. rewrite He. reflexivity.
Qed.

Lemma Write_loop_nil fuel nn f w :
  len (w_buf w) <= defaultBufSize -> Write_loop fuel [] nn (f, w) = ([], nn, (f, w)).
Proof.
  intros Hb. destruct (w_err w) eqn:He.
  - eapply Write_loop_err; eassumption.
  - apply Write_loop_exit; [assumption|]. unfold Available. rewrite len_nil. lia.
Qed.

(** The loop on an empty buffer: a payload that fits is left for the final
    copy, a larger one goes to the file directly. *)
Lemma Write_loop_empty fuel p nn f w :
  w_buf w = [] -> w_err w = None ->
  Write_loop (S fuel) p nn (f, w) =
  if len p >? defaultBufSize then
    match File_Write p f with
    | (Ok n, f') => ([], nn + n, (f', w))
    | (Err e, f') => (p, nn, (f', mkWriter [] (Some e)))
    end
  else (p, nn, (f, w)).
Proof.
  intros Hb He. cbn [Write_loop]. rewrite He.
  unfold Available, Buffered. rewrite Hb, len_nil, Z.sub_0_r.
  destruct (len p >? defaultBufSize); [|reflexivity].
  cbn [Z.eqb]. destruct (File_Write p f) as [[n|e] f'].
  - apply Write_loop_nil. rewrite Hb, len_nil. unfold defaultBufSize. lia.
  - apply Write_loop_err with (e := e). reflexivity.
Qed.

(** The loop in closed form: it has left after two rounds. *)
Lemma Write_loop_closed fuel p nn f w :
  Write_loop (S (S fuel)) p nn (f, w) =
  match w_err w with
  | Some _ => (p, nn, (f, w))
  | None =>
    if len p >? Available w then
      if Buffered w =? 0 then
        match File_Write p f with
        | (Ok n, f') => ([], nn + n, (f', w))
        | (Err e, f') => (p, nn, (f', mkWriter (w_buf w) (Some e)))
        end
      else
        let n := Z.to_nat (Available w) in
        match File_Write (w_buf w ++ firstn n p) f with
        | (Ok _, f') =>
          if len (skipn n p) >? defaultBufSize then
            match File_Write (skipn n p) f' with
            | (Ok n2, f'') => ([], nn + Available w + n2, (f'', mkWriter [] None))
            | (Err e, f'') => (skipn n p, nn + Available w, (f'', mkWriter [] (Some e)))
            end
          else (skipn n p, nn + Available w, (f', mkWriter [] None))
        | (Err e, f') =>
          (skipn n p, nn + Available w, (f', mkWriter (w_buf w ++ firstn n p) (Some e)))
        end
    else (p, nn, (f, w))
  end.
Proof.
  destruct (w_err w) as [e|] eqn:He.
  { apply Write_loop_err with (e := e). assumption. }
  destruct (Z.gtb_spec (len p) (Available w)) as [Hg|Hg].
  2:{ apply Write_loop_exit; assumption. }
  destruct (Z.eqb_spec (Buffered w) 0) as [Hb|Hb].
  - pose proof (Buffered_nil _ Hb) as Hnil.
    rewrite Write_loop_empty by assumption.
    unfold Available in Hg. rewrite Hnil, len_nil, Z.sub_0_r in Hg.
    destruct (Z.gtb_spec (len p) defaultBufSize); [|lia].
    rewrite Hnil. reflexivity.
  - remember (S fuel) as k eqn:Ek. cbn [Write_loop]. rewrite He. subst k.
    destruct (Z.gtb_spec (len p) (Available w)); [|lia].
    destruct (Z.eqb_spec (Buffered w) 0); [contradiction|].
    cbv zeta. unfold Flush at 1. cbn [w_err w_buf].
    assert (Hne : Buffered (mkWriter (w_buf w ++ firstn (Z.to_nat (Available w)) p) None) <> 0).
    { unfold Buffered in *. cbn [w_buf]. rewrite len_app.
      pose proof (len_nonneg (w_buf w)).
      pose proof (len_nonneg (firstn (Z.to_nat (Available w)) p)). lia. }
    destruct (Z.eqb_spec
      (Buffered (mkWriter (w_buf w ++ firstn (Z.to_nat (Available w)) p) None)) 0);
      [contradiction|].
    destruct (File_Write (w_buf w ++ firstn (Z.to_nat (Available w)) p) f) as [[n1|e] f1].
    + rewrite Write_loop_empty by reflexivity. reflexivity.
    + apply Write_loop_err with (e := e). reflexivity.
Qed.

(** Any further round of the loop changes nothing. *)
Lemma Write_loop_fuel fuel p nn fw :
  Write_loop (2 + fuel) p nn fw = Write_loop 2 p nn fw.
Proof.
  destruct fw as [f w]. change (2 + fuel)%nat with (S (S fuel)).
  rewrite (Write_loop_closed fuel), (Write_loop_closed 0). reflexivity.
Qed.

(** A successful [Write] has put all of [p] behind what was there: in the
    file, or in the buffer after it. *)
Lemma Write_Ok_inv p f w n f' w' :
  writer_ok w -> Write p (f, w) = (Ok n, (f', w')) ->
  n = len p
  /\ f_data f' ++ w_buf w' = (f_data f ++ w_buf w) ++ p
  /\ writer_ok w'
  /\ f_limit f' = f_limit f
  /\ len (f_data f') <= Z.max (len (f_data f)) (File_room f).
Proof.
  intros [He Hb]. unfold Write. rewrite (Write_loop_closed 0), He.
  pose proof (len_nonneg (w_buf w)) as Hb0.
  destruct (Z.gtb_spec (len p) (Available w)) as [Hg|Hg].
  - destruct (Z.eqb_spec (Buffered w) 0) as [Hz|Hz].
    + destruct (File_Write p f) as [[n1|e] f1] eqn:Ef; cbn [w_err]; rewrite ?He;
        [|discriminate].
      intros [= <- <- <-]. apply File_Write_Ok_inv in Ef. destruct Ef as (-> & -> & Hr).
      apply Buffered_nil in Hz. cbn [f_data f_limit w_buf w_err app].
      rewrite Hz, !app_nil_r, len_nil, len_app. unfold writer_ok. cbn [w_err w_buf].
      unfold defaultBufSize. change (len (@nil byte)) with 0. repeat split; lia.
    + cbv zeta. set (k := Z.to_nat (Available w)).
      assert (Hk : len (firstn k p) = Available w).
      { subst k. apply len_firstn_le. unfold Available in *. lia. }
      assert (Hs : len (skipn k p) = len p - Available w).
      { rewrite <- (firstn_skipn k p) at 2. rewrite len_app. lia. }
      destruct (File_Write (w_buf w ++ firstn k p) f) as [[n1|e] f1] eqn:Ef;
        [|cbn [w_err]; discriminate].
      apply File_Write_Ok_inv in Ef. destruct Ef as (_ & -> & Hr1).
      destruct (Z.gtb_spec (len (skipn k p)) defaultBufSize) as [Hbig|Hsmall].
      * destruct (File_Write (skipn k p) _) as [[n2|e] f2] eqn:Ef2;
          [|cbn [w_err]; discriminate].
        apply File_Write_Ok_inv in Ef2. destruct Ef2 as (-> & -> & Hr2).
        cbn [w_err w_buf f_data f_limit]. intros [= <- <- <-].
        cbn [w_err w_buf f_data f_limit] in *. rewrite File_room_mk in Hr2.
        unfold writer_ok. cbn [w_err w_buf].
        rewrite !app_nil_r, len_nil, !len_app, Hk, Hs in *.
        rewrite <- !app_assoc, firstn_skipn. unfold defaultBufSize.
        repeat split; lia.
      * cbn [w_err w_buf f_data f_limit]. intros [= <- <- <-].
        unfold writer_ok. cbn [w_err w_buf f_data f_limit app].
        rewrite !len_app, Hk, Hs in *.
        rewrite <- !app_assoc, firstn_skipn.
        repeat split; lia.
  - rewrite He. intros [= <- <- <-]. unfold writer_ok. cbn [w_err w_buf].
    unfold Available in Hg. rewrite len_app, app_assoc.
    repeat split; lia.
Qed.

(** [Write] succeeds when the file has room for everything written so far
    and [p]. *)
Lemma Write_fits p f w :
  writer_ok w -> len (f_data f) + len (w_buf w) + len p <= File_room f ->
  exists f' w', Write p (f, w) = (Ok (len p), (f', w')).
Proof.
  intros [He Hb] Hroom. unfold Write. rewrite (Write_loop_closed 0), He.
  pose proof (len_nonneg (w_buf w)) as Hb0.
  pose proof (len_nonneg (f_data f)) as Hd0.
  destruct (Z.gtb_spec (len p) (Available w)) as [Hg|Hg].
  - destruct (Z.eqb_spec (Buffered w) 0) as [Hz|Hz].
    + rewrite File_Write_fits by lia. rewrite He. change (len (@nil byte)) with 0.
      do 2 eexists. apply f_equal2; [f_equal; lia | reflexivity].
    + cbv zeta. set (k := Z.to_nat (Available w)).
      assert (Hk : len (firstn k p) = Available w).
      { subst k. apply len_firstn_le. unfold Available in *. lia. }
      assert (Hs : len (skipn k p) = len p - Available w).
      { rewrite <- (firstn_skipn k p) at 2. rewrite len_app. lia. }
      rewrite File_Write_fits by (rewrite len_app; lia).
      destruct (Z.gtb_spec (len (skipn k p)) defaultBufSize).
      * rewrite File_Write_fits
          by (cbn [f_data]; rewrite File_room_mk, !len_app; lia).
        cbn [w_err]. change (len (@nil byte)) with 0. do 2 eexists.
        apply f_equal2; [f_equal; lia | reflexivity].
      * cbn [w_err]. do 2 eexists. apply f_equal2; [f_equal; lia | reflexivity].
  - rewrite He. do 2 eexists. apply f_equal2; [f_equal; lia | reflexivity].
Qed.

(** ** The store *)

Lemma store_Append_unfold p s :
  store_Append p s =
  match Write (PutUint64 (u64 (len p))) (s_File s, s_buf s) with
  | (Err e, (f, w)) => (Err e, mkStore f w (s_size s))
  | (Ok _, (f, w)) =>
    match Write p (f, w) with
    | (Err e, (f', w')) => (Err e, mkStore f' w' (s_size s))
    | (Ok n, (f', w')) =>
      (Ok (u64 (i64 (n + lenWidth)), s_size s),
       mkStore f' w' (u64 (s_size s + u64 (i64 (n + lenWidth)))))
    end
  end.
Proof.
  unfold store_Append, bind, get, put, ret, store_io, on.
  cbn [s_File s_buf s_size fst snd].
  destruct (Write (PutUint64 (u64 (len p))) (s_File s, s_buf s)) as [[n0|e] [f w]];
    cbn [s_File s_buf s_size fst snd]; [|reflexivity].
  destruct (Write p (f, w)) as [[n|e] [f' w']]; reflexivity.
Qed.

Lemma newStore_ok f : len (f_data f) <= MaxInt64 -> store_ok (newStore f).
Proof.
  intros H. unfold store_ok, newStore, store_contents, writer_ok, NewWriter.
  cbn [s_File s_buf s_size w_buf w_err]. rewrite app_nil_r.
  pose proof (len_nonneg (f_data f)).
  rewrite u64_small by (unfold MaxInt64 in H; lia).
  change (len (@nil byte)) with 0. unfold defaultBufSize.
  repeat split; try reflexivity; lia.
Qed.

(** A successful [store.Append] on a sound store, and what it keeps. *)
Lemma store_Append_Ok_inv p s n pos s' :
  store_ok s -> store_Append p s = (Ok (n, pos), s') ->
  n = lenWidth + len p
  /\ pos = s_size s
  /\ s_size s' = s_size s + lenWidth + len p
  /\ store_contents s' = store_contents s ++ frame p
  /\ store_ok s'
  /\ f_limit (s_File s') = f_limit (s_File s).
Proof.
  intros (Hw & Hd & Hsz). rewrite store_Append_unfold.
  destruct (Write (PutUint64 (u64 (len p))) (s_File s, s_buf s))
    as [[n0|e] [f w]] eqn:E1; [|discriminate].
  apply Write_Ok_inv in E1; [|assumption].
  destruct E1 as (_ & Hc1 & Hw1 & Hl1 & Hd1).
  destruct (Write p (f, w)) as [[n1|e] [f' w']] eqn:E2; [|discriminate].
  apply Write_Ok_inv in E2; [|assumption].
  destruct E2 as (-> & Hc2 & Hw2 & Hl2 & Hd2).
  intros [= <- <- <-]. cbn [s_File s_buf s_size].
  assert (Hroom : forall g : File, File_room g <= MaxInt64)
    by (intro g; unfold File_room; lia).
  pose proof (Hroom (s_File s)). pose proof (Hroom f).
  assert (Hdf : len (f_data f') <= MaxInt64) by lia.
  assert (Hlen : len (f_data f' ++ w_buf w') = len (store_contents s) + 8 + len p).
  { rewrite Hc2, Hc1. unfold store_contents. rewrite !len_app.
    change (len (PutUint64 (u64 (len p)))) with 8. lia. }
  rewrite len_app in Hlen.
  destruct Hw2 as [He2 Hb2]. unfold defaultBufSize, MaxInt64, lenWidth in *.
  pose proof (len_nonneg p). pose proof (len_nonneg (store_contents s)).
  pose proof (len_nonneg (f_data f')). pose proof (len_nonneg (w_buf w')).
  assert (Hp : u64 (len p) = len p) by (apply u64_small; lia).
  rewrite u64_i64, (u64_small (z := len p + 8)) by lia.
  rewrite u64_small by lia.
  unfold store_ok, store_contents, writer_ok, frame. cbn [s_File s_buf s_size].
  rewrite Hc2, Hc1, Hp, len_app, <- app_assoc.
  unfold store_contents in *.
  repeat split; try assumption; try lia; try congruence.
  rewrite len_app. change (len (PutUint64 (len p))) with 8. lia.
Qed.

(** [store.Append] succeeds when the file has room for the frame. *)
Lemma store_Append_fits p s :
  store_ok s -> s_size s + lenWidth + len p <= File_room (s_File s) ->
  exists s', store_Append p s = (Ok (lenWidth + len p, s_size s), s').
Proof.
  intros (Hw & Hd & Hsz) Hroom. rewrite store_Append_unfold.
  unfold store_contents in Hsz. rewrite len_app in Hsz. unfold lenWidth in *.
  pose proof (len_nonneg p).
  destruct (Write_fits (PutUint64 (u64 (len p))) (s_File s) Hw) as (f & w & E1).
  { change (len (PutUint64 (u64 (len p)))) with 8. lia. }
  rewrite E1. apply Write_Ok_inv in E1; [|assumption].
  destruct E1 as (_ & Hc1 & Hw1 & Hl1 & Hd1).
  assert (Hlen : len (f_data f) + len (w_buf w) = s_size s + 8).
  { rewrite <- len_app, Hc1, !len_app.
    change (len (PutUint64 (u64 (len p)))) with 8. lia. }
  assert (Hrf : File_room f = File_room (s_File s))
    by (unfold File_room; rewrite Hl1; reflexivity).
  destruct (Write_fits p f Hw1) as (f' & w' & E2); [lia|].
  rewrite E2.
  assert (File_room (s_File s) <= MaxInt64) by (unfold File_room; lia).
  unfold MaxInt64 in *. pose proof (len_nonneg (f_data (s_File s))).
  pose proof (len_nonneg (w_buf (s_buf s))).
  rewrite u64_i64, (u64_small (z := len p + 8)) by lia.
  eexists. f_equal. f_equal. f_equal. lia.
Qed.

Lemma Uint64_PutUint64_exact v : Uint64 (PutUint64 v) = u64 v.
Proof. rewrite <- (app_nil_r (PutUint64 v)). apply Uint64_PutUint64. Qed.

Lemma File_ReadAt_mid (pre mid post : list byte) limit :
  File_ReadAt (len mid) (len pre) (mkFile (pre ++ mid ++ post) limit) = Ok mid.
Proof.
  unfold File_ReadAt. cbn [f_data]. pose proof (len_nonneg pre).
  destruct (Z.ltb_spec (len pre) 0); [lia|].
  destruct (Z.eqb_spec (len mid) 0) as [Hz|Hz].
  - destruct mid; [reflexivity|]. unfold len in Hz. cbn [length] in Hz. lia.
  - rewrite slice_app_mid. reflexivity.
Qed.

(** [store.Read] at the position of a frame returns its payload, once the
    file has taken the pending bytes. *)
Lemma store_Read_frame (pre p post : list byte) s :
  store_ok s ->
  store_contents s = pre ++ frame p ++ post ->
  len (store_contents s) <= File_room (s_File s) ->
  store_Read (len pre) s =
  (Ok p, mkStore (mkFile (store_contents s) (f_limit (s_File s))) NewWriter (s_size s)).
Proof.
  intros ((He & Hb) & Hd & Hsz) Hc Hroom.
  assert (Hmax : File_room (s_File s) <= MaxInt64) by (unfold File_room; lia).
  pose proof (len_nonneg pre) as Hpre. pose proof (len_nonneg p) as Hp.
  pose proof (len_nonneg post) as Hpost.
  assert (Hlen : len (store_contents s) = len pre + 8 + len p + len post).
  { rewrite Hc. unfold frame. rewrite !len_app.
    change (len (PutUint64 (len p))) with 8. lia. }
  unfold store_Read, bind, store_io, on, get, of_result.
  cbn [s_File s_buf s_size fst snd].
  rewrite Flush_ok
    by (try assumption; rewrite <- len_app; exact Hroom).
  cbn [s_File s_buf s_size fst snd]. fold (store_contents s). fold NewWriter.
  unfold MaxInt64 in Hmax.
  rewrite i64_small by lia.
  rewrite Hc at 1. unfold frame at 1. rewrite <- app_assoc.
  change lenWidth with (len (PutUint64 (len p))).
  rewrite File_ReadAt_mid.
  rewrite Uint64_PutUint64_exact, (u64_small (z := len p)) by lia.
  unfold make_len, MaxInt64, ret.
  destruct (Z.gtb_spec (len p) (2 ^ 63 - 1)); [lia|].
  change (len (PutUint64 (len p))) with 8.
  rewrite u64_small, i64_small by lia.
  replace (len pre + 8) with (len (pre ++ PutUint64 (len p)))
    by (rewrite len_app; reflexivity).
  rewrite Hc at 1. unfold frame at 1. rewrite <- app_assoc, (app_assoc pre).
  rewrite File_ReadAt_mid. reflexivity.
Qed.

Lemma store_Read_keeps s :
  store_ok s -> len (store_contents s) <= File_room (s_File s) ->
  let s' := mkStore (mkFile (store_contents s) (f_limit (s_File s))) NewWriter (s_size s) in
  store_ok s' /\ store_contents s' = store_contents s
  /\ File_room (s_File s') = File_room (s_File s) /\ s_size s' = s_size s.
Proof.
  intros (Hw & Hd & Hsz) Hroom. cbv zeta.
  unfold store_ok, store_contents, writer_ok at 1, NewWriter.
  cbn [s_File s_buf s_size f_data f_limit w_buf w_err].
  rewrite app_nil_r. change (len (@nil byte)) with 0.
  fold (store_contents s).
  assert (File_room (s_File s) <= MaxInt64) by (unfold File_room; lia).
  unfold defaultBufSize. repeat split; try assumption; lia.
Qed.

Lemma Write_err_first p f w e :
  w_err w = Some e -> Write p (f, w) = (Err e, (f, w)).
Proof.
  intros He. unfold Write. rewrite (Write_loop_closed 0), He. rewrite He. reflexivity.
Qed.

(** A failed [Write] leaves the writer with an error, and both the buffer
    and the file within their bounds. *)
Lemma Write_Err_inv p f w e f' w' :
  len (w_buf w) <= defaultBufSize -> len (f_data f) <= MaxInt64 ->
  Write p (f, w) = (Err e, (f', w')) ->
  w_err w' <> None
  /\ len (w_buf w') <= defaultBufSize
  /\ len (f_data f') <= MaxInt64.
Proof.
  intros Hb Hd. unfold Write. rewrite (Write_loop_closed 0).
  pose proof (len_nonneg (w_buf w)) as Hb0.
  assert (Hroom : forall g : File, File_room g <= MaxInt64)
    by (intro g; unfold File_room; lia).
  destruct (w_err w) as [e0|] eqn:He.
  { rewrite He. intros [= <- <- <-]. rewrite He. repeat split; congruence || assumption. }
  destruct (Z.gtb_spec (len p) (Available w)) as [Hg|Hg].
  2:{ rewrite He. discriminate. }
  destruct (Z.eqb_spec (Buffered w) 0) as [Hz|Hz].
  - destruct (File_Write p f) as [[n1|e1] f1] eqn:Ef; cbn [w_err]; rewrite ?He;
      [discriminate|].
    intros [= <- <- <-]. apply File_Write_Err_inv in Ef. subst f1.
    cbn [w_err w_buf]. repeat split; congruence || assumption.
  - cbv zeta. set (k := Z.to_nat (Available w)).
    assert (Hk : len (firstn k p) = Available w).
    { subst k. apply len_firstn_le. unfold Available in *. lia. }
    destruct (File_Write (w_buf w ++ firstn k p) f) as [[n1|e1] f1] eqn:Ef.
    + apply File_Write_Ok_inv in Ef. destruct Ef as (_ & -> & Hr1).
      destruct (Z.gtb_spec (len (skipn k p)) defaultBufSize).
      * destruct (File_Write (skipn k p) _) as [[n2|e2] f2] eqn:Ef2;
          cbn [w_err]; [discriminate|].
        intros [= <- <- <-]. apply File_Write_Err_inv in Ef2. subst f2.
        cbn [w_err w_buf f_data]. pose proof (Hroom f).
        change (len (@nil byte)) with 0. unfold defaultBufSize.
        rewrite len_app. repeat split; try congruence; lia.
      * cbn [w_err]. discriminate.
    + cbn [w_err]. intros [= <- <- <-]. apply File_Write_Err_inv in Ef. subst f1.
      cbn [w_err w_buf]. rewrite len_app, Hk. unfold Available.
      repeat split; try congruence; try assumption; lia.
Qed.

Lemma store_ok_inv s : store_ok s -> store_inv s.
Proof. intros ((He & Hb) & Hd & Hs). unfold store_inv. auto. Qed.

Lemma store_inv_ok s : store_inv s -> w_err (s_buf s) = None -> store_ok s.
Proof. intros (Hb & Hd & Hs) He. unfold store_ok, writer_ok. auto. Qed.

Lemma store_Append_inv p s : store_inv s -> store_inv (snd (store_Append p s)).
Proof.
  intros Hinv. destruct Hinv as (Hb & Hd & Hs).
  destruct (store_Append p s) as [r s'] eqn:E. cbn [snd].
  destruct r as [[n pos]|e].
  - apply store_ok_inv.
    destruct (w_err (s_buf s)) as [e0|] eqn:He.
    + rewrite store_Append_unfold, (Write_err_first _ _ _ He) in E. discriminate.
    + assert (Hok : store_ok s) by (unfold store_ok, writer_ok; auto).
      apply (store_Append_Ok_inv p Hok E).
  - rewrite store_Append_unfold in E.
    destruct (Write (PutUint64 (u64 (len p))) (s_File s, s_buf s))
      as [[n0|e0] [f w]] eqn:E1.
    + destruct (w_err (s_buf s)) as [e1|] eqn:He.
      { rewrite (Write_err_first _ _ _ He) in E1. discriminate. }
      apply Write_Ok_inv in E1; [|split; assumption].
      destruct E1 as (_ & _ & (_ & Hb1) & _ & Hd1).
      assert (Hd1' : len (f_data f) <= MaxInt64).
      { assert (File_room (s_File s) <= MaxInt64) by (unfold File_room; lia). lia. }
      destruct (Write p (f, w)) as [[n1|e1] [f' w']] eqn:E2; [discriminate|].
      injection E as _ <-.
      destruct (@Write_Err_inv p f w e1 f' w' Hb1 Hd1' E2) as (Hne & Hb2 & Hd2).
      unfold store_inv. cbn [s_File s_buf s_size]. repeat split; try assumption.
      intros Hn. contradiction.
    + injection E as _ <-.
      destruct (@Write_Err_inv _ _ _ _ _ _ Hb Hd E1) as (Hne & Hb2 & Hd2).
      unfold store_inv. cbn [s_File s_buf s_size]. repeat split; try assumption.
      intros Hn. contradiction.
Qed.

Lemma store_Read_state pos s : snd (store_Read pos s) = snd (store_io Flush s).
Proof.
  unfold store_Read, bind, get, of_result, make_len, ret, fail.
  destruct (store_io Flush s) as [[u|e] s1]; [|reflexivity]. cbn [snd].
  destruct (File_ReadAt lenWidth (i64 pos) (s_File s1)) as [sz|e]; [|reflexivity].
  destruct (Uint64 sz >? MaxInt64); [reflexivity|].
  destruct (File_ReadAt _ _ (s_File s1)); reflexivity.
Qed.

Lemma store_Read_inv pos s : store_inv s -> store_inv (snd (store_Read pos s)).
Proof.
  intros (Hb & Hd & Hs). rewrite store_Read_state.
  unfold store_io, on. cbn [fst snd].
  destruct (Flush (s_File s, s_buf s)) as [r [f' w']] eqn:E. cbn [snd fst].
  apply Flush_inv in E. destruct E as [Hl E].
  unfold store_inv, store_contents. cbn [s_File s_buf s_size].
  assert (File_room (s_File s) <= MaxInt64) by (unfold File_room; lia).
  destruct r as [u|e].
  - destruct E as (He & Hdata & Hbuf & He' & Hlen).
    rewrite Hbuf, Hdata, app_nil_r. change (len (@nil byte)) with 0.
    unfold defaultBufSize. rewrite Hdata in Hlen.
    repeat split; try lia. intros _. apply Hs. assumption.
  - destruct E as (-> & -> & He'). repeat split; try assumption.
    intros Hn. congruence.
Qed.

Lemma store_reached_inv s : store_reached s -> store_inv s.
Proof.
  induction 1 as [f Hf|p s _ IH|pos s _ IH].
  - apply store_ok_inv, newStore_ok. assumption.
  - apply store_Append_inv. assumption.
  - apply store_Read_inv. assumption.
Qed.


(** ** What a segment holds *)

Lemma len_entry_bytes e : len (entry_bytes e) = 12.
Proof. reflexivity. Qed.

Lemma len_index_bytes es : len (index_bytes es) = len es * entWidth.
Proof.
  induction es as [|e es IH]; [reflexivity|].
  cbn [index_bytes flat_map]. fold (index_bytes es).
  rewrite len_app, len_entry_bytes, IH. unfold len. cbn [length].
  unfold entWidth, offWidth, posWidth. lia.
Qed.

Lemma index_bytes_app es1 es2 :
  index_bytes (es1 ++ es2) = index_bytes es1 ++ index_bytes es2.
Proof. unfold index_bytes. apply flat_map_app. Qed.

Lemma log_bytes_app ps1 ps2 : log_bytes (ps1 ++ ps2) = log_bytes ps1 ++ log_bytes ps2.
Proof. unfold log_bytes. apply flat_map_app. Qed.

Lemma index_entries_length ps : length (index_entries ps) = length ps.
Proof. unfold index_entries. rewrite length_map, length_seq. reflexivity. Qed.

Lemma position_app ps qs k : (k <= length ps)%nat -> position (ps ++ qs) k = position ps k.
Proof.
  intros H. unfold position. rewrite firstn_app.
  replace (k - length ps)%nat with 0%nat by lia.
  cbn [firstn]. rewrite app_nil_r. reflexivity.
Qed.

Lemma position_all ps : position ps (length ps) = len (log_bytes ps).
Proof. unfold position. rewrite firstn_all. reflexivity. Qed.

Lemma index_entries_snoc ps p :
  index_entries (ps ++ [p]) = index_entries ps ++ [(u32 (len ps), len (log_bytes ps))].
Proof.
  unfold index_entries. rewrite length_app. cbn [length].
  rewrite seq_app, map_app. cbn [seq map Nat.add]. f_equal.
  - apply map_ext_in. intros k Hk. apply in_seq in Hk.
    rewrite position_app by lia. reflexivity.
  - rewrite position_app, position_all by lia. reflexivity.
Qed.

Lemma index_entries_nth ps k d :
  (k < length ps)%nat -> nth k (index_entries ps) d = (u32 (Z.of_nat k), position ps k).
Proof.
  intros H. unfold index_entries.
  rewrite (nth_indep _ d (u32 (Z.of_nat 0), position ps 0))
    by (rewrite length_map, length_seq; lia).
  rewrite (map_nth (fun k => (u32 (Z.of_nat k), position ps k))).
  rewrite seq_nth by lia. reflexivity.
Qed.

Lemma entry_at_here e m : entry_at (entry_bytes e ++ m) 0 = (u32 (fst e), u64 (snd e)).
Proof.
  unfold entry_at, entry_bytes.
  change (Z.to_nat (0 * entWidth)) with 0%nat.
  change (Z.to_nat (0 * entWidth + offWidth)) with (length (PutUint32 (fst e))).
  cbn [skipn]. rewrite <- !app_assoc, skipn_len_app.
  rewrite Uint32_PutUint32, Uint64_PutUint64. reflexivity.
Qed.

Lemma entry_at_next e m j :
  0 <= j -> entry_at (entry_bytes e ++ m) (j + 1) = entry_at m j.
Proof.
  intros Hj. unfold entry_at.
  assert (E : forall c, 0 <= c ->
    skipn (Z.to_nat ((j + 1) * entWidth + c)) (entry_bytes e ++ m)
    = skipn (Z.to_nat (j * entWidth + c)) m).
  { intros c Hc.
    replace (Z.to_nat ((j + 1) * entWidth + c))
      with (length (entry_bytes e) + Z.to_nat (j * entWidth + c))%nat.
    - apply skipn_len_add_app.
    - change (length (entry_bytes e)) with 12%nat.
      unfold entWidth, offWidth, posWidth. lia. }
  pose proof (E 0) as E0. rewrite !Z.add_0_r in E0.
  rewrite E0, E by (unfold offWidth; lia). reflexivity.
Qed.

(** Entry [j] of a mapping that starts with the bytes of [es]. *)
Lemma entry_at_index_bytes es tail : forall (j : nat) d,
  (j < length es)%nat ->
  entry_at (index_bytes es ++ tail) (Z.of_nat j)
  = (u32 (fst (nth j es d)), u64 (snd (nth j es d))).
Proof.
  induction es as [|e es IH]; intros j d Hj; [cbn [length] in Hj; lia|].
  cbn [index_bytes flat_map]. fold (index_bytes es). rewrite <- app_assoc.
  destruct j as [|j].
  - apply entry_at_here.
  - rewrite Nat2Z.inj_succ, <- Z.add_1_r, entry_at_next by lia.
    cbn [nth]. apply IH. cbn [length] in Hj. lia.
Qed.

Lemma log_bytes_split ps (j : nat) d :
  (j < length ps)%nat ->
  log_bytes ps = log_bytes (firstn j ps) ++ frame (nth j ps d) ++ log_bytes (skipn (S j) ps).
Proof.
  intros Hj. rewrite <- (firstn_skipn j ps) at 1. rewrite log_bytes_app. f_equal.
  assert (E : skipn j ps = nth j ps d :: skipn (S j) ps).
  { revert j Hj. induction ps as [|a ps IH]; intros j Hj; [cbn [length] in Hj; lia|].
    destruct j as [|j]; [reflexivity|].
    cbn [length] in Hj. cbn [skipn nth]. apply IH. lia. }
  rewrite E. reflexivity.
Qed.

Lemma position_le ps k : 0 <= position ps k <= len (log_bytes ps).
Proof.
  unfold position. split; [apply len_nonneg|].
  rewrite <- (firstn_skipn k ps) at 2. rewrite log_bytes_app, len_app.
  pose proof (len_nonneg (log_bytes (skipn k ps))). lia.
Qed.

Section SegmentFacts.
Context {codec : Codec}.

Lemma segment_Append_unfold r s :
  segment_Append r s =
  match Marshal (mkRecord (Value r) (nextOffset s)) with
  | Err e => (Err e, s)
  | Ok p =>
    match store_Append p (seg_store s) with
    | (Err e, st) => (Err e, with_store st s)
    | (Ok (_, pos), st) =>
      match index_Write (u32 (u64 (nextOffset s - u64 (baseOffset s)))) pos (seg_index s) with
      | (Err e, ix) => (Err e, with_index ix (with_store st s))
      | (Ok _, ix) =>
        (Ok (nextOffset s),
         with_nextOffset (u64 (nextOffset s + 1)) (with_index ix (with_store st s)))
      end
    end
  end.
Proof.
  unfold segment_Append, bind, get, put, ret, of_result, on_store, on_index, on.
  destruct (Marshal (mkRecord (Value r) (nextOffset s))) as [p|e]; [|reflexivity].
  destruct (store_Append p (seg_store s)) as [[[n pos]|e] st]; [|reflexivity].
  cbn [with_store seg_index seg_store].
  destruct (index_Write _ pos (seg_index s)) as [[u|e] ix]; reflexivity.
Qed.

Lemma segment_Read_unfold off s :
  segment_Read off s =
  match index_Read (i64 (u64 (off - baseOffset s))) (seg_index s) with
  | Err e => (Err e, s)
  | Ok (_, pos) =>
    match store_Read pos (seg_store s) with
    | (Err e, st) => (Err e, with_store st s)
    | (Ok p, st) => (Unmarshal p, with_store st s)
    end
  end.
Proof.
  unfold segment_Read, bind, get, of_result, on_store, on.
  destruct (index_Read _ (seg_index s)) as [[o pos]|e]; [|reflexivity].
  destruct (store_Read pos (seg_store s)) as [[p|e] st]; reflexivity.
Qed.

End SegmentFacts.

Section SegmentLog.
Context {codec : Codec}.

Lemma len_repeat {A} (x : A) n : len (repeat x n) = Z.of_nat n.
Proof. unfold len. rewrite repeat_length. reflexivity. Qed.

(** Opening a segment over two empty files. *)
Lemma newSegment_fresh limit base c s :
  newSegment (mkFile [] limit) [] base c = Ok s ->
  0 <= i64 (MaxIndexBytes c)
  /\ s = mkSegment (newStore (mkFile [] limit))
                   (mkIndex (repeat Byte.x00 (Z.to_nat (i64 (MaxIndexBytes c)))) 0)
                   base base c.
Proof.
  unfold newSegment, newIndex, os_Truncate.
  destruct (Z.ltb_spec (i64 (MaxIndexBytes c)) 0) as [|Hm]; [discriminate|].
  rewrite firstn_nil. cbn [app length]. rewrite Nat.sub_0_r.
  change (u64 (len (@nil byte))) with 0.
  rewrite index_Read_size0 by reflexivity.
  intros [= <-]. split; [assumption|reflexivity].
Qed.

Lemma i64_le_max z : i64 z <= MaxInt64.
Proof.
  unfold i64, MaxInt64. pose proof (Z.mod_pos_bound (z + 2 ^ 63) (2 ^ 64)). lia.
Qed.

Lemma seg_rep_fresh limit base c s :
  0 <= base < 2 ^ 64 ->
  newSegment (mkFile [] limit) [] base c = Ok s ->
  seg_rep [] s
  /\ baseOffset s = base /\ config s = c
  /\ f_limit (s_File (seg_store s)) = limit
  /\ len (i_mmap (seg_index s)) = i64 (MaxIndexBytes c).
Proof.
  intros Hb E. apply newSegment_fresh in E. destruct E as [Hm ->].
  unfold seg_rep.
  cbn [seg_store seg_index baseOffset nextOffset config i_mmap i_size map].
  rewrite len_repeat, Z2Nat.id by assumption.
  pose proof (i64_le_max (MaxIndexBytes c)).
  repeat split; try lia; try reflexivity.
  - apply newStore_ok. cbn [f_data]. change (len (@nil byte)) with 0.
    unfold MaxInt64. lia.
  - cbn. lia.
  - exists (repeat Byte.x00 (Z.to_nat (i64 (MaxIndexBytes c)))). reflexivity.
  - change (len (@nil (Record_ * list byte))) with 0.
    rewrite Z.add_0_r, u64_small by lia. reflexivity.
  - constructor.
Qed.

Local Arguments entry_bytes : simpl never.

(** A successful [Append] adds the stamped record to the log. *)
Lemma segment_Append_rep log r s off s' :
  seg_rep log s -> segment_Append r s = (Ok off, s') ->
  exists p,
    Marshal (mkRecord (Value r) (nextOffset s)) = Ok p
    /\ seg_rep (log ++ [(mkRecord (Value r) (nextOffset s), p)]) s'
    /\ off = u64 (baseOffset s + len log)
    /\ baseOffset s' = baseOffset s
    /\ f_limit (s_File (seg_store s')) = f_limit (s_File (seg_store s))
    /\ len (i_mmap (seg_index s')) = len (i_mmap (seg_index s)).
Proof.
  intros (Hst & Hc & (tail & Hmap) & Hsz & Hml & Hb & Hn & Hall).
  rewrite segment_Append_unfold.
  destruct (Marshal _) as [p|e] eqn:Em; [|discriminate].
  destruct (store_Append p (seg_store s)) as [[[n pos]|e] st] eqn:Es; [|discriminate].
  destruct (store_Append_Ok_inv p Hst Es) as (_ & -> & Hsz' & Hc' & Hst' & Hlim).
  assert (Hlen : len (index_bytes (index_entries (map snd log))) = i_size (seg_index s)).
  { rewrite len_index_bytes, Hsz. unfold len.
    rewrite index_entries_length, length_map. reflexivity. }
  pose proof (len_nonneg log) as Hl0.
  assert (Hin : i_size (seg_index s) <= len (i_mmap (seg_index s))).
  { rewrite Hmap, len_app, Hlen. pose proof (len_nonneg tail). lia. }
  assert (He12 : entWidth = 12) by reflexivity.
  destruct (Z.lt_ge_cases (len (i_mmap (seg_index s))) (i_size (seg_index s) + entWidth))
    as [Hfull|Hroom].
  { rewrite index_Write_no_room by (unfold MaxInt64 in *; lia). discriminate. }
  rewrite index_Write_room by (unfold MaxInt64 in *; lia).
  intros E. apply pair_equal_spec in E. destruct E as [Eo <-].
  injection Eo as <-. exists p. split; [reflexivity|].
  cbn [seg_store seg_index baseOffset nextOffset config with_store with_index
       with_nextOffset i_mmap i_size].
  assert (Hlm : len (firstn (Z.to_nat (i_size (seg_index s))) (i_mmap (seg_index s))
                     ++ entry_bytes (u32 (u64 (nextOffset s - u64 (baseOffset s))),
                                     s_size (seg_store s))
                     ++ skipn (Z.to_nat (i_size (seg_index s) + entWidth))
                              (i_mmap (seg_index s)))
                = len (i_mmap (seg_index s))).
  { unfold len. rewrite !length_app, length_firstn, length_skipn.
    unfold len, MaxInt64 in *. change (length (entry_bytes _)) with 12%nat. lia. }
  split; [|repeat split; assumption].
  unfold seg_rep.
  cbn [seg_store seg_index baseOffset nextOffset config with_store with_index
       with_nextOffset i_mmap i_size].
  rewrite map_app. cbn [map snd].
  split; [assumption|]. split.
  { rewrite Hc', Hc, log_bytes_app. cbn [log_bytes flat_map].
    rewrite app_nil_r. reflexivity. }
  split.
  { exists (skipn (Z.to_nat entWidth) tail).
    rewrite index_entries_snoc, index_bytes_app.
    cbn [index_bytes flat_map]. rewrite app_nil_r.
    rewrite Hmap, <- Hlen, !to_nat_len, firstn_len_app.
    rewrite <- app_assoc. f_equal.
    pose proof (len_nonneg (index_bytes (index_entries (map snd log)))).
    rewrite Z2Nat.inj_add, to_nat_len, skipn_len_add_app by lia.
    f_equal.
    destruct Hst as (_ & _ & Hss). rewrite Hss, Hc.
    rewrite Hn, (u64_small (z := baseOffset s)) by lia.
    rewrite u64_add_sub, u32_u64.
    unfold len. rewrite length_map. reflexivity. }
  split.
  { rewrite len_app. change (len [(mkRecord (Value r) (nextOffset s), p)]) with 1. lia. }
  split; [lia|]. split; [assumption|]. split.
  { rewrite len_app. change (len [(mkRecord (Value r) (nextOffset s), p)]) with 1.
    rewrite Hn. unfold u64. rewrite Zplus_mod_idemp_l. f_equal. lia. }
  apply Forall_app. split; [assumption|].
  constructor; [|constructor]. cbn [fst snd Offset].
  split; [assumption|]. rewrite Hn. apply u64_range.
Qed.

(** [Append] succeeds when the codec accepts the record and both files
    have room. *)
Lemma segment_Append_fits log r s p :
  seg_rep log s ->
  Marshal (mkRecord (Value r) (nextOffset s)) = Ok p ->
  s_size (seg_store s) + lenWidth + len p <= File_room (s_File (seg_store s)) ->
  i_size (seg_index s) + entWidth <= len (i_mmap (seg_index s)) ->
  exists s', segment_Append r s = (Ok (nextOffset s), s').
Proof.
  intros (Hst & Hc & (tail & Hmap) & Hsz & Hml & Hb & Hn & Hall) Em Hroom Hix.
  rewrite segment_Append_unfold, Em.
  destruct (store_Append_fits p Hst Hroom) as (st & ->).
  pose proof (len_nonneg log). assert (He12 : entWidth = 12) by reflexivity.
  rewrite index_Write_room by (unfold MaxInt64 in *; lia).
  eexists. reflexivity.
Qed.

(** [Read] of an offset that selects entry [j] of the index returns
    record [j] of the log. *)
Lemma segment_Read_rep log s off (j : nat) d :
  seg_rep log s -> store_fits s ->
  (j < length log)%nat ->
  Z.of_nat j = (if i64 (u64 (off - baseOffset s)) =? -1
                then u32 (u64 (len log - 1))
                else u32 (i64 (u64 (off - baseOffset s)))) ->
  exists s', segment_Read off s = (Ok (fst (nth j log d)), s')
             /\ seg_rep log s' /\ store_fits s' /\ baseOffset s' = baseOffset s.
Proof.
  intros (Hst & Hc & (tail & Hmap) & Hsz & Hml & Hb & Hn & Hall) Hfit Hj Hsel.
  assert (He12 : entWidth = 12) by reflexivity.
  assert (Hlen : len (index_bytes (index_entries (map snd log))) = i_size (seg_index s)).
  { rewrite len_index_bytes, Hsz. unfold len.
    rewrite index_entries_length, length_map. reflexivity. }
  assert (Hin : i_size (seg_index s) <= len (i_mmap (seg_index s))).
  { rewrite Hmap, len_app, Hlen. pose proof (len_nonneg tail). lia. }
  assert (HjZ : Z.of_nat j < len log) by (unfold len; lia).
  rewrite segment_Read_unfold.
  rewrite (@index_Read_at _ _ (Z.of_nat j)); try assumption; try lia.
  2:{ rewrite Hsz, Z.div_mul by discriminate. exact Hsel. }
  rewrite Hmap, (entry_at_index_bytes _ _ (0, 0))
    by (rewrite index_entries_length, length_map; lia).
  rewrite index_entries_nth by (rewrite length_map; lia). cbn [fst snd].
  pose proof (position_le (map snd log) j) as Hp. rewrite <- Hc in Hp.
  unfold store_fits in Hfit.
  assert (File_room (s_File (seg_store s)) <= MaxInt64) by (unfold File_room; lia).
  rewrite (u64_small (z := position _ _)) by (unfold MaxInt64 in *; lia).
  unfold position.
  rewrite (store_Read_frame (log_bytes (firstn j (map snd log)))
             (nth j (map snd log) (snd d))
             (log_bytes (skipn (S j) (map snd log)))); try assumption.
  2:{ rewrite Hc. apply log_bytes_split. rewrite length_map. assumption. }
  rewrite map_nth.
  assert (Hnth : In (nth j log d) log) by (apply nth_In; assumption).
  destruct (proj1 (Forall_forall _ _) Hall _ Hnth) as [Hm Ho].
  rewrite (Unmarshal_Marshal _ Ho Hm).
  eexists. split; [reflexivity|].
  destruct (store_Read_keeps Hst Hfit) as (Hok' & Hc'' & Hr' & Hs').
  unfold seg_rep, store_fits.
  cbn [seg_store seg_index baseOffset nextOffset config with_store] in *.
  split; [|split; [rewrite Hc'', Hr'; assumption|reflexivity]].
  split; [exact Hok'|]. split; [rewrite Hc''; exact Hc|].
  split; [exists tail; assumption|].
  repeat split; try assumption; lia.
Qed.
End SegmentLog.

(** ** Runs of appends and reads *)

Lemma mapM_cons {S A B} (f : A -> M S B) a t s :
  mapM f (a :: t) s =
  match f a s with
  | (Ok b, s1) =>
    match mapM f t s1 with
    | (Ok bs, s2) => (Ok (b :: bs), s2)
    | (Err e, s2) => (Err e, s2)
    end
  | (Err e, s1) => (Err e, s1)
  end.
Proof.
  cbn [mapM]. unfold bind, ret. destruct (f a s) as [[b|e] s1]; [|reflexivity].
  destruct (mapM f t s1) as [[bs|e] s2]; reflexivity.
Qed.

Lemma len_cons {A} (a : A) l : len (a :: l) = 1 + len l.
Proof. unfold len. cbn [length]. lia. Qed.

Lemma len_log_bytes_snoc ps p :
  len (log_bytes (ps ++ [p])) = len (log_bytes ps) + lenWidth + len p.
Proof.
  rewrite log_bytes_app, len_app. cbn [log_bytes flat_map]. rewrite app_nil_r.
  unfold frame. rewrite len_app. change (len (PutUint64 (len p))) with 8.
  unfold lenWidth. lia.
Qed.

Section Runs.
Context {codec : Codec}.

Lemma seg_rep_sizes log s :
  seg_rep log s ->
  s_size (seg_store s) = len (log_bytes (map snd log))
  /\ i_size (seg_index s) = len log * entWidth.
Proof.
  intros ((_ & _ & Hs) & Hc & _ & Hi & _). rewrite Hs, Hc. auto.
Qed.

(** A run of successful appends extends the log by the records given,
    stamped, and returns consecutive offsets. *)
Lemma segment_Append_all_rep rs : forall log s offs s',
  seg_rep log s -> mapM segment_Append rs s = (Ok offs, s') ->
  exists log',
    seg_rep (log ++ log') s'
    /\ map (fun rp => Value (fst rp)) log' = map Value rs
    /\ offs = map (fun k => u64 (baseOffset s + len log + Z.of_nat k)) (seq 0 (length rs))
    /\ baseOffset s' = baseOffset s
    /\ f_limit (s_File (seg_store s')) = f_limit (s_File (seg_store s))
    /\ len (i_mmap (seg_index s')) = len (i_mmap (seg_index s)).
Proof.
  induction rs as [|r rs IH]; intros log s offs s' Hrep E.
  - cbn [mapM] in E. unfold ret in E. injection E as <- <-.
    exists []. rewrite app_nil_r. split; [assumption|]. repeat split.
  - rewrite mapM_cons in E.
    destruct (segment_Append r s) as [[off|e] s1] eqn:E1; [|discriminate].
    destruct (mapM segment_Append rs s1) as [[offs1|e] s2] eqn:E2; [|discriminate].
    injection E as <- <-.
    destruct (segment_Append_rep r Hrep E1) as (p & Hm & Hrep1 & -> & Hb1 & Hl1 & Hm1).
    destruct (IH _ _ _ _ Hrep1 E2) as (log' & Hrep2 & Hv & -> & Hb2 & Hl2 & Hm2).
    exists ((mkRecord (Value r) (nextOffset s), p) :: log').
    rewrite <- app_assoc in Hrep2. cbn [app] in Hrep2.
    split; [assumption|]. split; [cbn [map fst Value]; f_equal; assumption|].
    split.
    { cbn [length seq map]. f_equal; [f_equal; lia|].
      rewrite <- seq_shift, map_map. apply map_ext. intros k.
      rewrite Hb1, len_app. change (len [(mkRecord (Value r) (nextOffset s), p)]) with 1.
      f_equal. lia. }
    repeat split; congruence.
Qed.

(** Reading the offsets [base + k], [k] below the number of records:
    each read succeeds and returns record [k mod 2^32]. *)
Lemma segment_Read_all log d (ks : list nat) : forall s,
  seg_rep log s -> store_fits s -> len log < 2 ^ 63 ->
  Forall (fun k => (k < length log)%nat) ks ->
  exists s',
    mapM segment_Read (map (fun k => u64 (baseOffset s + Z.of_nat k)) ks) s
    = (Ok (map (fun k => fst (nth (Z.to_nat (u32 (Z.of_nat k))) log d)) ks), s')
    /\ seg_rep log s' /\ store_fits s' /\ baseOffset s' = baseOffset s.
Proof.
  induction ks as [|k ks IH]; intros s Hrep Hfit Hlen Hks.
  - exists s. cbn [map mapM]. unfold ret. split; [reflexivity|].
    split; [assumption|]. split; [assumption|reflexivity].
  - inversion Hks as [|k' ks' Hk Hks']; subst.
    pose proof (u32_range (Z.of_nat k)) as Hr.
    pose proof (u32_le (z := Z.of_nat k)) as Hle.
    assert (HkZ : Z.of_nat k < 2 ^ 63) by (unfold len in Hlen; lia).
    destruct (@segment_Read_rep _ log s (u64 (baseOffset s + Z.of_nat k))
                (Z.to_nat (u32 (Z.of_nat k))) d Hrep Hfit)
      as (s1 & E1 & Hrep1 & Hfit1 & Hb1).
    { lia. }
    { rewrite u64_add_sub, (u64_small (z := Z.of_nat k)), i64_small by lia.
      destruct (Z.eqb_spec (Z.of_nat k) (-1)); lia. }
    destruct (IH s1 Hrep1 Hfit1 Hlen Hks') as (s2 & E2 & Hrep2 & Hfit2 & Hb2).
    exists s2. cbn [map]. rewrite mapM_cons, E1.
    rewrite Hb1 in E2. rewrite E2.
    split; [reflexivity|]. split; [assumption|]. split; [assumption|congruence].
Qed.
End Runs.

Lemma map_nth_seq {A B} (g : A -> B) (l : list A) d :
  map (fun k => g (nth k l d)) (seq 0 (length l)) = map g l.
Proof.
  apply nth_ext with (d := g d) (d' := g d).
  - rewrite !length_map, length_seq. reflexivity.
  - intros n Hn. rewrite length_map, length_seq in Hn.
    rewrite (map_nth g l d).
    rewrite (nth_indep _ (g d) ((fun k => g (nth k l d)) 0%nat))
      by (rewrite length_map, length_seq; assumption).
    rewrite (map_nth (fun k => g (nth k l d))), seq_nth by assumption.
    reflexivity.
Qed.

Section RoundTrip.
Context {codec : Codec}.

(** What the reads of the returned offsets give, whatever the number of
    records below [2^63]: read [k] returns record [k mod 2^32]. *)
Lemma segment_reads_after_appends limit base c rs s0 offs s1 d :
  0 <= base < 2 ^ 64 ->
  newSegment (mkFile [] limit) [] base c = Ok s0 ->
  mapM segment_Append rs s0 = (Ok offs, s1) ->
  store_fits s1 -> len rs < 2 ^ 63 ->
  exists log s2,
    seg_rep log s1
    /\ map (fun rp => Value (fst rp)) log = map Value rs
    /\ offs = map (fun k => u64 (base + Z.of_nat k)) (seq 0 (length rs))
    /\ mapM segment_Read offs s1
       = (Ok (map (fun k => fst (nth (Z.to_nat (u32 (Z.of_nat k))) log d))
                  (seq 0 (length rs))), s2).
Proof.
  intros Hb E0 E1 Hfit Hlen.
  destruct (@seg_rep_fresh _ limit base c s0 Hb E0) as (Hrep0 & Hbase & _).
  destruct (@segment_Append_all_rep _ rs [] s0 offs s1 Hrep0 E1)
    as (log & Hrep1 & Hv & Hoffs & Hb1 & _).
  cbn [app] in Hrep1.
  assert (Hll : length log = length rs).
  { apply (f_equal (@length _)) in Hv. rewrite !length_map in Hv. assumption. }
  destruct (@segment_Read_all _ log d (seq 0 (length rs)) s1 Hrep1 Hfit)
    as (s2 & E2 & _).
  { unfold len in *. lia. }
  { apply Forall_forall. intros k Hk. apply in_seq in Hk. lia. }
  exists log, s2. split; [assumption|]. split; [assumption|].
  assert (Ho : offs = map (fun k => u64 (base + Z.of_nat k)) (seq 0 (length rs))).
  { rewrite Hoffs. apply map_ext. intros k. rewrite Hbase.
    change (len (@nil (Record_ * list byte))) with 0. f_equal. lia. }
  split; [assumption|].
  rewrite Ho, <- E2. f_equal. apply map_ext. intros k. congruence.
Qed.

(** C1 (as amended): at most [2^32] records appended to a fresh segment,
    the store file taking every byte; reading the returned offsets in
    order succeeds and returns the payloads appended, in order.  The
    offsets returned are [base, base + 1, ...]. *)
Theorem segment_roundtrip (limit base : Z) (c : Config) (rs : list Record_)
    (s0 s1 : segment) (offs : list Z) :
  0 <= base < 2 ^ 64 ->
  newSegment (mkFile [] limit) [] base c = Ok s0 ->
  mapM segment_Append rs s0 = (Ok offs, s1) ->
  store_fits s1 ->
  len rs <= 2 ^ 32 ->
  offs = map (fun k => u64 (base + Z.of_nat k)) (seq 0 (length rs))
  /\ exists rs' s2,
       mapM segment_Read offs s1 = (Ok rs', s2)
       /\ map Value rs' = map Value rs.
Proof.
  intros Hb E0 E1 Hfit Hlen.
  destruct (@segment_reads_after_appends limit base c rs s0 offs s1
              (mkRecord [] 0, []) Hb E0 E1 Hfit)
    as (log & s2 & Hrep & Hv & Ho & E2); [lia|].
  split; [assumption|]. eexists _, s2. split; [exact E2|].
  rewrite <- Hv, map_map.
  assert (Hll : length log = length rs).
  { apply (f_equal (@length _)) in Hv. rewrite !length_map in Hv. assumption. }
  rewrite <- Hll.
  rewrite <- (map_nth_seq (fun rp => Value (fst rp)) log (mkRecord [] 0, [])).
  apply map_ext_in. intros k Hk. apply in_seq in Hk.
  rewrite u32_small, Nat2Z.id by (unfold len in Hlen; lia). reflexivity.
Qed.
End RoundTrip.

Section BelowBase.
Context {codec : Codec}.


End BelowBase.

(** ** Opening a segment *)

Lemma Uint32_range b : 0 <= Uint32 b < 2 ^ 32.
Proof. rewrite Uint32_le. apply (le_combine_bound [_; _; _; _]). Qed.

Lemma len_os_Truncate size data mapped :
  os_Truncate size data = Ok mapped -> 0 <= size /\ len mapped = size.
Proof.
  unfold os_Truncate. destruct (Z.ltb_spec size 0); [discriminate|].
  intros [= <-]. split; [assumption|].
  unfold len. rewrite length_app, length_firstn, repeat_length. lia.
Qed.

Lemma firstn_os_Truncate size data mapped n :
  os_Truncate size data = Ok mapped ->
  (n <= Z.to_nat size)%nat -> (n <= length data)%nat ->
  firstn n mapped = firstn n data.
Proof.
  unfold os_Truncate. destruct (Z.ltb_spec size 0); [discriminate|].
  intros [= <-] H1 H2.
  rewrite firstn_app, length_firstn.
  replace (n - Nat.min (Z.to_nat size) (length data))%nat with 0%nat by lia.
  cbn [firstn]. rewrite app_nil_r, firstn_firstn. f_equal. lia.
Qed.

Lemma index_reached_bounds i :
  index_reached i -> 0 <= i_size i <= MaxInt64 /\ len (i_mmap i) <= MaxInt64.
Proof.
  induction 1 as [f c i Hf E|off pos i _ [Hs Hm]].
  - unfold newIndex in E.
    destruct (os_Truncate (i64 (MaxIndexBytes c)) f) as [mapped|e] eqn:Et; [|discriminate].
    injection E as <-. cbn [i_size i_mmap].
    destruct (len_os_Truncate _ _ Et) as [_ ->].
    pose proof (len_nonneg f). pose proof (i64_le_max (MaxIndexBytes c)).
    rewrite u64_small by (unfold MaxInt64 in *; lia). lia.
  - assert (He : entWidth = 12) by reflexivity.
    destruct (Z.lt_ge_cases (len (i_mmap i)) (i_size i + entWidth)) as [Hfull|Hroom].
    + rewrite index_Write_no_room by (unfold MaxInt64 in *; lia). cbn [snd]. lia.
    + rewrite index_Write_room by (unfold MaxInt64 in *; lia). cbn [snd i_size i_mmap].
      split; [lia|].
      unfold len in *. rewrite !length_app, length_firstn, length_skipn.
      change (length (entry_bytes (off, pos))) with 12%nat. lia.
Qed.

(** C5: on an index that [newIndex] and [Write] have produced,
    [index.Write] fails, with [io.EOF] (the spec's [IndexFull]), exactly
    when one more 12-byte entry does not fit the mapped region; a failed
    call leaves the size and every byte of the index as they were;
    a successful call moves [size] on by 12, keeps the entries before it and
    stores the new entry at the old [size]. *)
Theorem index_Write_full (off pos : Z) (i : index) :
  index_reached i ->
  let (r, i') := index_Write off pos i in
  (r = Err io_EOF <-> len (i_mmap i) < i_size i + entWidth)
  /\ (r <> Ok tt -> r = Err io_EOF /\ i' = i)
  /\ (r = Ok tt ->
      i_size i' = i_size i + 12
      /\ firstn (Z.to_nat (i_size i)) (i_mmap i') = firstn (Z.to_nat (i_size i)) (i_mmap i)
      /\ entry_at (skipn (Z.to_nat (i_size i)) (i_mmap i')) 0 = (u32 off, u64 pos)
      /\ len (i_mmap i') = len (i_mmap i)).
Proof.
  intros Hr. destruct (index_reached_bounds Hr) as [Hs Hm]. unfold MaxInt64 in *.
  assert (He : entWidth = 12) by reflexivity.
  destruct (Z.lt_ge_cases (len (i_mmap i)) (i_size i + entWidth)) as [Hfull|Hroom].
  - rewrite index_Write_no_room by lia.
    split; [tauto|]. split; [tauto|]. discriminate.
  - rewrite index_Write_room by lia. cbn [i_size i_mmap].
    split; [split; [discriminate|lia]|].
    split; [congruence|]. intros _.
    assert (Hpre : length (firstn (Z.to_nat (i_size i)) (i_mmap i)) = Z.to_nat (i_size i)).
    { rewrite length_firstn. unfold len in Hroom. lia. }
    split; [lia|]. split; [|split].
    + rewrite <- Hpre at 1. apply firstn_len_app.
    + rewrite <- Hpre at 1. rewrite skipn_len_app.
      unfold entry_at, entry_bytes. cbn [fst snd].
      change (Z.to_nat (0 * entWidth)) with 0%nat.
      change (Z.to_nat (0 * entWidth + offWidth)) with (length (PutUint32 off)).
      rewrite <- app_assoc, skipn_len_app. cbn [skipn].
      rewrite Uint32_PutUint32, Uint64_PutUint64. reflexivity.
    + unfold len. rewrite !length_app, length_firstn, length_skipn.
      unfold len in Hroom. change (length (entry_bytes (off, pos))) with 12%nat. lia.
Qed.

(** An entry depends only on the bytes up to its end. *)
Lemma entry_at_firstn m n j :
  0 <= j -> ((Z.to_nat ((j + 1) * entWidth)) <= n)%nat ->
  entry_at (firstn n m) j = entry_at m j.
Proof.
  intros Hj Hn. unfold entry_at.
  assert (E : forall p w, (p + w <= n)%nat ->
            firstn w (skipn p (firstn n m)) = firstn w (skipn p m)).
  { intros p w Hpw.
    replace n with (p + (n - p))%nat at 1 by lia.
    rewrite <- firstn_skipn_comm, firstn_firstn. f_equal. lia. }
  unfold entWidth, offWidth, posWidth in *.
  rewrite <- (Uint32_firstn (skipn _ (firstn n m))).
  rewrite <- (Uint64_firstn (skipn _ (firstn n m))).
  rewrite !E by lia. rewrite Uint32_firstn, Uint64_firstn. reflexivity.
Qed.

(** What a successful [index.Read] has done. *)
Lemma index_Read_Ok_inv in_ i e :
  index_Read in_ i = Ok e ->
  let j := if in_ =? -1 then u32 (u64 (i_size i / entWidth - 1)) else u32 in_ in
  i_size i <> 0
  /\ (j + 1) * entWidth <= i_size i
  /\ (j + 1) * entWidth <= len (i_mmap i)
  /\ e = entry_at (i_mmap i) j.
Proof.
  unfold index_Read. cbv zeta.
  destruct (Z.eqb_spec (i_size i) 0) as [|Hnz]; [discriminate|].
  set (j := if in_ =? -1 then _ else _).
  assert (Hr : 0 <= j < 2 ^ 32) by (subst j; destruct (in_ =? -1); apply u32_range).
  unfold entWidth, offWidth, posWidth. change (4 + 8) with 12.
  rewrite (u64_small (z := j * 12)) by lia. rewrite !u64_small by lia.
  destruct (Z.ltb_spec (i_size i) (j * 12 + 12)); [discriminate|].
  destruct (slice (i_mmap i) (j * 12) (j * 12 + 4)) as [o|] eqn:E1; [|discriminate].
  destruct (slice (i_mmap i) (j * 12 + 4) (j * 12 + 12)) as [p|] eqn:E2; [|discriminate].
  intros [= <-].
  pose proof (slice_Some_inv _ _ _ E2) as (_ & _ & Hb).
  rewrite slice_in_bounds in E1, E2 by lia.
  injection E1 as <-. injection E2 as <-.
  replace (j * 12 + 4 - j * 12) with 4 by lia.
  replace (j * 12 + 12 - (j * 12 + 4)) with 8 by lia.
  change (Z.to_nat 4) with 4%nat. change (Z.to_nat 8) with 8%nat.
  rewrite Uint32_firstn, Uint64_firstn.
  repeat split; try assumption; lia.
Qed.

(** C3 (as amended): after [newSegment] over an index file of [K] 12-byte
    entries, [nextOffset] is [baseOffset] when [K = 0], and otherwise
    [baseOffset] plus the relative offset stored in entry [(K-1) mod 2^32]
    plus 1 - which is [baseOffset + K] whenever the last entry stores
    [K - 1], as in an index that [Append] wrote and [Close] cut to size. *)
Theorem newSegment_nextOffset (storeFile : File) (indexFile : list byte)
    (base : Z) (c : Config) (s : segment) :
  len indexFile < 2 ^ 64 ->
  newSegment storeFile indexFile base c = Ok s ->
  let K := len indexFile / entWidth in
  (K = 0 -> nextOffset s = base)
  /\ (1 <= K ->
      nextOffset s = u64 (base + fst (entry_at indexFile ((K - 1) mod 2 ^ 32)) + 1))
  /\ (1 <= K -> fst (entry_at indexFile (K - 1)) = K - 1 ->
      nextOffset s = u64 (base + K)).
Proof.
  intros Hfile E. cbv zeta.
  pose proof (len_nonneg indexFile) as H0.
  unfold newSegment, newIndex in E. rewrite u64_small in E by lia.
  destruct (os_Truncate (i64 (MaxIndexBytes c)) indexFile) as [mapped|e] eqn:Et;
    [|discriminate].
  assert (He12 : entWidth = 12) by reflexivity.
  pose proof (Z.div_mod (len indexFile) entWidth ltac:(lia)) as Hdm.
  pose proof (Z.mod_pos_bound (len indexFile) entWidth ltac:(lia)) as Hmb.
  set (K := len indexFile / entWidth) in *.
  assert (Hgen : 1 <= K ->
            nextOffset s = u64 (base + fst (entry_at indexFile ((K - 1) mod 2 ^ 32)) + 1)).
  { intros HK.
    destruct (index_Read (-1) (mkIndex mapped (len indexFile))) as [[off pos]|e] eqn:Er.
    - injection E as <-. cbn [nextOffset].
      apply index_Read_Ok_inv in Er. cbv zeta in Er. cbn [i_size i_mmap] in Er.
      change (-1 =? -1) with true in Er. cbv iota in Er. fold K in Er.
      rewrite u32_u64 in Er. unfold u32 in Er.
      destruct Er as (_ & Hs & Hm & Hent).
      pose proof (Z.mod_pos_bound (K - 1) (2 ^ 32) ltac:(lia)) as Hj.
      rewrite <- (entry_at_firstn mapped
                    (n := Z.to_nat (((K - 1) mod 2 ^ 32 + 1) * entWidth))) in Hent
        by lia.
      destruct (len_os_Truncate _ _ Et) as [Hsz Hlm].
      rewrite (firstn_os_Truncate _ _ Et) in Hent by (unfold len in *; lia).
      rewrite entry_at_firstn in Hent by lia.
      apply (f_equal fst) in Hent. cbn [fst] in Hent. subst off.
      pose proof (Uint32_range
        (skipn (Z.to_nat ((K - 1) mod 2 ^ 32 * entWidth)) indexFile)) as Hu.
      unfold entry_at. cbn [fst]. rewrite (u64_small (z := Uint32 _)) by lia.
      reflexivity.
    - exfalso.
      unfold index_Read in Er. cbn [i_size i_mmap] in Er.
      destruct (Z.eqb_spec (len indexFile) 0); [lia|].
      change (-1 =? -1) with true in Er. cbv iota in Er. fold K in Er.
      pose proof (last_slot HK) as Hl.
      rewrite (u64_small (z := _ * entWidth)) in Er by lia.
      rewrite (u64_small (z := _ + entWidth)) in Er by lia.
      destruct (Z.ltb_spec (len indexFile) (u32 (u64 (K - 1)) * entWidth + entWidth));
        [lia|].
      destruct (slice mapped _ _); [destruct (slice mapped _ _)|];
        [discriminate| |]; injection Er as <-; discriminate. }
  split; [|split; [exact Hgen|]].
  - intros HK.
    assert (Er : index_Read (-1) (mkIndex mapped (len indexFile)) = Err io_EOF).
    { unfold index_Read. cbn [i_size i_mmap].
      destruct (Z.eqb_spec (len indexFile) 0); [reflexivity|].
      change (-1 =? -1) with true. cbv iota. fold K. rewrite HK.
      change (u32 (u64 (0 - 1))) with (2 ^ 32 - 1).
      rewrite (u64_small (z := _ * entWidth)) by lia.
      rewrite (u64_small (z := _ + entWidth)) by lia.
      destruct (Z.ltb_spec (len indexFile) ((2 ^ 32 - 1) * entWidth + entWidth));
        [reflexivity|lia]. }
    rewrite Er in E. injection E as <-. reflexivity.
  - intros HK Hlast. rewrite (Hgen HK).
    pose proof (Uint32_range (skipn (Z.to_nat ((K - 1) * entWidth)) indexFile)) as Hu.
    assert (HK32 : K - 1 < 2 ^ 32).
    { rewrite <- Hlast. unfold entry_at. cbn [fst]. lia. }
    rewrite Z.mod_small by lia. rewrite Hlast. f_equal. lia.
Qed.

(** The index file [CLose] leaves of a segment that holds at most [2^32]
    records: one entry per record, the last one carrying the relative offset
    of the last record. *)
Lemma segment_CLose_index {codec : Codec} log s ixf sf :
  seg_rep log s -> len log <= 2 ^ 32 ->
  segment_CLose s = Ok (ixf, sf) ->
  len ixf / entWidth = len log
  /\ (1 <= len log -> fst (entry_at ixf (len log - 1)) = len log - 1).
Proof.
  intros (Hst & Hc & (tail & Hmap) & Hsz & Hml & Hb & Hn & Hall) HK E.
  assert (Hlen : len (index_bytes (index_entries (map snd log))) = i_size (seg_index s)).
  { rewrite len_index_bytes, Hsz. unfold len.
    rewrite index_entries_length, length_map. reflexivity. }
  pose proof (len_nonneg log) as H0. pose proof (len_nonneg tail) as Ht.
  assert (He12 : entWidth = 12) by reflexivity.
  unfold segment_CLose, index_Close, os_Truncate in E.
  assert (Hin : i_size (seg_index s) <= len (i_mmap (seg_index s))).
  { rewrite Hmap, len_app, Hlen. lia. }
  rewrite i64_small in E by (unfold MaxInt64 in *; lia).
  destruct (Z.ltb_spec (i_size (seg_index s)) 0); [lia|].
  destruct (store_Close (seg_store s)) as [[u|e] st]; [|discriminate].
  injection E as <- _.
  replace (Z.to_nat (i_size (seg_index s)) - length (i_mmap (seg_index s)))%nat
    with 0%nat by (unfold len in Hin; lia).
  cbn [repeat]. rewrite app_nil_r, Hmap, <- Hlen, to_nat_len, firstn_len_app.
  rewrite Hlen, Hsz. split; [apply Z.div_mul; discriminate|].
  intros HK1.
  rewrite <- (app_nil_r (index_bytes _)).
  replace (len log - 1) with (Z.of_nat (length log - 1)) by (unfold len in *; lia).
  rewrite (entry_at_index_bytes _ _ (0, 0))
    by (rewrite index_entries_length, length_map; unfold len in *; lia).
  rewrite index_entries_nth by (rewrite length_map; unfold len in *; lia).
  cbn [fst]. unfold u32 at 1. rewrite Z.mod_small by apply u32_range.
  apply u32_small. unfold len in *. lia.
Qed.

(** ** Appends that must succeed *)

Section Progress.
Context {codec : Codec}.

(** A run of appends succeeds when the codec accepts every record with
    at most [B] bytes and both files have room for the whole run. *)
Lemma segment_Append_all_fits (B : Z) rs : forall log s,
  seg_rep log s -> 0 <= B ->
  (forall r off, In r rs -> 0 <= off < 2 ^ 64 ->
     exists p, Marshal (mkRecord (Value r) off) = Ok p /\ len p <= B) ->
  s_size (seg_store s) + len rs * (lenWidth + B) <= File_room (s_File (seg_store s)) ->
  i_size (seg_index s) + len rs * entWidth <= len (i_mmap (seg_index s)) ->
  exists offs s',
    mapM segment_Append rs s = (Ok offs, s')
    /\ s_size (seg_store s') <= File_room (s_File (seg_store s')).
Proof.
  induction rs as [|r rs IH]; intros log s Hrep HB Hacc Hst Hix.
  - exists [], s. split; [reflexivity|].
    change (len (@nil Record_)) with 0 in Hst. lia.
  - rewrite len_cons in Hst, Hix.
    pose proof (len_nonneg rs) as Hrs.
    assert (He12 : entWidth = 12) by reflexivity.
    assert (Hl8 : lenWidth = 8) by reflexivity.
    assert (Hn : 0 <= nextOffset s < 2 ^ 64).
    { destruct Hrep as (_ & _ & _ & _ & _ & _ & -> & _). apply u64_range. }
    destruct (Hacc r (nextOffset s) (or_introl eq_refl) Hn) as (p & Em & Hp).
    pose proof (len_nonneg p) as Hp0.
    destruct (@segment_Append_fits _ log r s p Hrep Em) as (s1 & E1); [nia|nia|].
    destruct (@segment_Append_rep _ log r s _ s1 Hrep E1)
      as (p' & Em' & Hrep1 & _ & _ & Hlim & Hmap).
    assert (p' = p) by congruence. subst p'.
    destruct (seg_rep_sizes Hrep) as [Hs0 Hi0].
    destruct (seg_rep_sizes Hrep1) as [Hs1 Hi1].
    rewrite map_app in Hs1. cbn [map snd] in Hs1.
    rewrite len_log_bytes_snoc, <- Hs0 in Hs1.
    rewrite len_app in Hi1.
    change (len [(mkRecord (Value r) (nextOffset s), p)]) with 1 in Hi1.
    assert (Hroom : File_room (s_File (seg_store s1)) = File_room (s_File (seg_store s)))
      by (unfold File_room; rewrite Hlim; reflexivity).
    destruct (IH _ s1 Hrep1 HB) as (offs & s2 & E2 & Hfit2).
    + intros r0 off Hin. apply Hacc. right. assumption.
    + rewrite Hroom. nia.
    + rewrite Hmap. nia.
    + exists (nextOffset s :: offs), s2. rewrite mapM_cons, E1, E2.
      split; [reflexivity|assumption].
Qed.

Lemma seg_rep_store_fits log s :
  seg_rep log s -> s_size (seg_store s) <= File_room (s_File (seg_store s)) ->
  store_fits s.
Proof.
  intros ((_ & _ & Hs) & _) H. unfold store_fits. rewrite <- Hs. assumption.
Qed.
End Progress.

Lemma newSegment_fresh_Ok limit base c :
  0 <= i64 (MaxIndexBytes c) ->
  newSegment (mkFile [] limit) [] base c
  = Ok (mkSegment (newStore (mkFile [] limit))
                  (mkIndex (repeat Byte.x00 (Z.to_nat (i64 (MaxIndexBytes c)))) 0)
                  base base c).
Proof.
  intros Hm. unfold newSegment, newIndex, os_Truncate.
  destruct (Z.ltb_spec (i64 (MaxIndexBytes c)) 0); [lia|].
  rewrite firstn_nil. cbn [app length]. rewrite Nat.sub_0_r.
  reflexivity.
Qed.

(** The wire codec accepts every record with a payload far below its
    limit, with at most 22 bytes around the payload. *)
Lemma AppendVarint_le n v : (length (Wire.AppendVarint n v) <= n)%nat.
Proof.
  revert v. induction n as [|n IH]; intros v; cbn [Wire.AppendVarint length]; [lia|].
  destruct (v <? 128); cbn [length]; [lia|]. specialize (IH (v / 128)). lia.
Qed.

Lemma Wire_marshal_accepts (v : list byte) (off : Z) :
  len v <= 2 ^ 30 ->
  exists p, Wire.marshal (mkRecord v off) = Ok p /\ len p <= len v + 22.
Proof.
  intros Hv. unfold Wire.marshal.
  assert (Hl : len (Wire.encode (mkRecord v off)) <= len v + 22).
  { unfold Wire.encode. cbn [Value Offset].
    pose proof (AppendVarint_le 10 Wire.tag_value).
    pose proof (AppendVarint_le 10 (len v)).
    pose proof (AppendVarint_le 10 Wire.tag_offset).
    pose proof (AppendVarint_le 10 off).
    assert (Ht1 : length (Wire.AppendVarint 10 Wire.tag_value) = 1%nat) by reflexivity.
    assert (Ht2 : length (Wire.AppendVarint 10 Wire.tag_offset) = 1%nat) by reflexivity.
    pose proof (len_nonneg v).
    destruct v as [|x v']; destruct (off =? 0);
      rewrite ?len_app; unfold len in *; cbn [length] in *; try lia.
    all: rewrite ?length_app; cbn [length]; rewrite ?length_app; cbn [length]; lia. }
  destruct (Z.gtb_spec (len (Wire.encode (mkRecord v off))) Wire.max_message) as [Hg|Hg].
  - unfold Wire.max_message in Hg. lia.
  - eexists. split; [reflexivity|assumption].
Qed.

(** ** A segment of more than [2^32] records *)

Lemma len_long_run n : len (long_run n) = Z.of_nat n + 1.
Proof.
  unfold long_run, len. rewrite length_app, repeat_length. cbn [length]. lia.
Qed.

Lemma long_run_first n d : (0 < n)%nat -> nth 0 (long_run n) d = r_first.
Proof.
  intros H. unfold long_run. destruct n; [lia|]. reflexivity.
Qed.

Lemma long_run_last n d : nth n (long_run n) d = r_last.
Proof.
  unfold long_run. rewrite app_nth2 by (rewrite repeat_length; lia).
  rewrite repeat_length, Nat.sub_diag. reflexivity.
Qed.

Lemma long_run_values n r : In r (long_run n) -> len (Value r) <= 1.
Proof.
  unfold long_run. intros H. apply in_app_or in H. destruct H as [H|[<-|[]]].
  - apply repeat_spec in H. subst r. cbn. lia.
  - cbn. lia.
Qed.

(** The run succeeds, and the segment then holds it. *)
Lemma long_segment (n : nat) :
  Z.of_nat n = 2 ^ 32 ->
  exists s0 offs s1 log,
    newSegment long_file [] 0 long_config = Ok s0
    /\ mapM segment_Append (long_run n) s0 = (Ok offs, s1)
    /\ offs = map (fun k => u64 (0 + Z.of_nat k)) (seq 0 (length (long_run n)))
    /\ store_fits s1
    /\ seg_rep log s1
    /\ baseOffset s1 = 0
    /\ map (fun rp => Value (fst rp)) log = map Value (long_run n).
Proof.
  intros Hn.
  assert (Hmax : i64 (MaxIndexBytes long_config) = 12 * (2 ^ 32 + 1)) by reflexivity.
  pose proof (@newSegment_fresh_Ok (2 ^ 40) 0 long_config ltac:(rewrite Hmax; lia)) as E0.
  fold long_file in E0.
  set (s0 := mkSegment _ _ _ _ _) in E0.
  assert (Hb : 0 <= 0 < 2 ^ 64) by lia.
  destruct (@seg_rep_fresh _ (2 ^ 40) 0 long_config s0 Hb E0)
    as (Hrep0 & Hbase & _ & Hlim & Hmap).
  destruct (seg_rep_sizes Hrep0) as [Hs0 Hi0].
  change (len (log_bytes (map snd (@nil (Record_ * list byte))))) with 0 in Hs0.
  change (len (@nil (Record_ * list byte)) * entWidth) with 0 in Hi0.
  assert (Hroom : File_room (s_File (seg_store s0)) = 2 ^ 40).
  { unfold File_room. rewrite Hlim. reflexivity. }
  destruct (@segment_Append_all_fits _ 23 (long_run n) [] s0 Hrep0)
    as (offs & s1 & E1 & Hfit1).
  - lia.
  - intros r off Hin _. pose proof (long_run_values _ _ Hin) as Hv.
    destruct (Wire_marshal_accepts (Value r) off) as (p & Hp & Hl); [lia|].
    exists p. split; [exact Hp|lia].
  - rewrite Hs0, Hroom, len_long_run, Hn. unfold lenWidth. lia.
  - rewrite Hi0, Hmap, Hmax, len_long_run, Hn. unfold entWidth, offWidth, posWidth. lia.
  - destruct (@segment_Append_all_rep _ (long_run n) [] s0 offs s1 Hrep0 E1)
      as (log & Hrep1 & Hv & Ho & Hb1 & _).
    cbn [app] in Hrep1.
    exists s0, offs, s1, log. split; [exact E0|]. split; [exact E1|].
    split.
    { rewrite Ho, Hbase. apply map_ext. intros k.
      change (len (@nil (Record_ * list byte))) with 0. f_equal. }
    split; [apply (seg_rep_store_fits Hrep1 Hfit1)|].
    split; [assumption|]. split; [congruence|assumption].
Qed.

Lemma long_log_first n log d :
  (0 < n)%nat ->
  map (fun rp : Record_ * list byte => Value (fst rp)) log = map Value (long_run n) ->
  Value (fst (nth 0 log (r_first, d))) = [].
Proof.
  intros Hn Hv.
  change (Value (fst (nth 0 log (r_first, d))))
    with ((fun rp : Record_ * list byte => Value (fst rp)) (nth 0 log (r_first, d))).
  rewrite <- map_nth, Hv. cbn [fst].
  rewrite (map_nth Value (long_run n) r_first), long_run_first by assumption.
  reflexivity.
Qed.

(** Reading back the offsets of the long run: the read of the last offset,
    [2^32], selects index entry 0 and returns the first record. *)
Lemma long_run_reads_alias (n : nat) :
  Z.of_nat n = 2 ^ 32 ->
  exists s0 offs s1,
    newSegment long_file [] 0 long_config = Ok s0
    /\ mapM segment_Append (long_run n) s0 = (Ok offs, s1)
    /\ store_fits s1
    /\ ~ (exists rs' s2,
            mapM segment_Read offs s1 = (Ok rs', s2)
            /\ map Value rs' = map Value (long_run n)).
Proof.
  intros Hn.
  destruct (long_segment n Hn) as (s0 & offs & s1 & log & E0 & E1 & Ho & Hfit & Hrep & Hb & Hv).
  exists s0, offs, s1. split; [exact E0|]. split; [exact E1|]. split; [exact Hfit|].
  intros (rs' & s2 & E2 & Hv').
  assert (Hll : length log = length (long_run n)).
  { apply (f_equal (@length _)) in Hv. rewrite !length_map in Hv. assumption. }
  assert (Hlr : length (long_run n) = S n).
  { unfold long_run. rewrite length_app, repeat_length. cbn [length]. lia. }
  destruct (@segment_Read_all _ log (r_first, []) (seq 0 (length (long_run n))) s1 Hrep Hfit)
    as (s2' & E2' & _).
  { unfold len. lia. }
  { apply Forall_forall. intros k Hk. apply in_seq in Hk. lia. }
  rewrite Hb, <- Ho, E2 in E2'. injection E2' as -> _.
  apply (f_equal (fun l => nth n l [])) in Hv'.
  change (@nil byte) with (Value r_first) in Hv' at 2.
  rewrite (map_nth Value (long_run n) r_first), long_run_last in Hv'.
  rewrite map_map, Hlr in Hv'.
  rewrite (nth_indep _ [] ((fun k => Value (fst (nth (Z.to_nat (u32 (Z.of_nat k))) log
                                                     (r_first, [])))) 0%nat)) in Hv'
    by (rewrite length_map, length_seq; lia).
  rewrite (map_nth (fun k => Value (fst (nth (Z.to_nat (u32 (Z.of_nat k))) log
                                             (r_first, []))))) in Hv'.
  rewrite seq_nth in Hv' by lia. cbn [Nat.add] in Hv'.
  rewrite Hn in Hv'. change (Z.to_nat (u32 (2 ^ 32))) with 0%nat in Hv'.
  rewrite (long_log_first (n := n)) in Hv' by (assumption || lia).
  discriminate Hv'.
Qed.


(** ** Where the properties stop *)

(** C1, where it fails: [2^32 + 1] records are appended to a fresh segment
    with room for them and every append succeeds, yet the reads of the
    returned offsets do not give back the payloads: the read of offset
    [2^32] returns the first record. *)
Lemma roundtrip_fails_past_2_32 :
  exists s0 offs s1,
    newSegment long_file [] 0 long_config = Ok s0
    /\ mapM segment_Append (long_run (Z.to_nat (2 ^ 32))) s0 = (Ok offs, s1)
    /\ store_fits s1
    /\ ~ (exists rs' s2,
            mapM segment_Read offs s1 = (Ok rs', s2)
            /\ map Value rs' = map Value (long_run (Z.to_nat (2 ^ 32)))).
Proof. apply long_run_reads_alias. apply Z2Nat.id. lia. Qed.


(** C2, at its failing input: after ten appends the index has reached its
    own ceiling, [MaxIndexBytes], the store is below [MaxStoreBytes], and
    [IsMaxed] answers false, because it compares the index size with
    [MaxStoreBytes]. *)
Theorem IsMaxed_misses_index_ceiling :
  exists s0 offs s,
    newSegment spec_file [] 0 spec_config = Ok s0
    /\ mapM segment_Append (repeat rec_a 10) s0 = (Ok offs, s)
    /\ i_size (seg_index s) >= MaxIndexBytes (config s)
    /\ s_size (seg_store s) < MaxStoreBytes (config s)
    /\ segment_IsMaxed s = false.
Proof.
  eexists _, _, _. split; [vm_compute; reflexivity|].
  split; [vm_compute; reflexivity|].
  repeat split; vm_compute; congruence.
Qed.

(** C3, where it fails: two records are appended under an index ceiling of
    36 bytes and the segment is opened again without [Close].  The index
    file is the 36 mapped bytes, three 12-byte entries, the last one zero;
    [nextOffset] comes out as 1, neither 3 nor the 2 the first segment had. *)
Lemma reopen_unclosed_nextOffset :
  exists s0 offs s1 s2,
    newSegment spec_file [] 0 small_config = Ok s0
    /\ mapM segment_Append [rec_a; rec_bb] s0 = (Ok offs, s1)
    /\ nextOffset s1 = 2
    /\ newSegment (s_File (seg_store s1)) (i_mmap (seg_index s1)) 0 small_config = Ok s2
    /\ len (i_mmap (seg_index s1)) / entWidth = 3
    /\ nextOffset s2 = 1
    /\ nextOffset s2 <> 0 + len (i_mmap (seg_index s1)) / entWidth.
Proof.
  eexists _, _, _, _. split; [vm_compute; reflexivity|].
  split; [vm_compute; reflexivity|].
  split; [vm_compute; reflexivity|].
  split; [vm_compute; reflexivity|].
  repeat split; vm_compute; congruence.
Qed.

(** ** The properties at concrete inputs *)

Definition abc_appended : segment :=
  Eval vm_compute in snd (mapM segment_Append abc abc_fresh).

Lemma segment_roundtrip_witness :
  0 <= 0 < 2 ^ 64
  /\ newSegment spec_file [] 0 spec_config = Ok abc_fresh
  /\ mapM segment_Append abc abc_fresh = (Ok [0; 1; 2], abc_appended)
  /\ store_fits abc_appended
  /\ len abc <= 2 ^ 32
  /\ ([0; 1; 2] = map (fun k => u64 (0 + Z.of_nat k)) (seq 0 (length abc))
      /\ exists rs' s2,
           mapM segment_Read [0; 1; 2] abc_appended = (Ok rs', s2)
           /\ map Value rs' = map Value abc).
Proof.
  assert (H1 : 0 <= 0 < 2 ^ 64) by lia.
  assert (H2 : newSegment spec_file [] 0 spec_config = Ok abc_fresh) by reflexivity.
  assert (H3 : mapM segment_Append abc abc_fresh = (Ok [0; 1; 2], abc_appended))
    by (vm_compute; reflexivity).
  assert (H4 : store_fits abc_appended) by (vm_compute; discriminate).
  assert (H5 : len abc <= 2 ^ 32) by (vm_compute; discriminate).
  repeat (split; [assumption|]).
  exact (@segment_roundtrip wire_codec 65536 0 spec_config abc abc_fresh abc_appended
           [0; 1; 2] H1 H2 H3 H4 H5).
Defined.


(** The files [CLose] leaves of the scenario's segment, and the segment
    opened over them again. *)
Definition abc_index_file : list byte :=
  Eval vm_compute in
    match segment_CLose abc_appended with Ok (ixf, _) => ixf | Err _ => [] end.
Definition abc_store_file : File :=
  Eval vm_compute in
    match segment_CLose abc_appended with Ok (_, sf) => sf | Err _ => spec_file end.
Definition abc_reopened : segment :=
  Eval vm_compute in
    match newSegment abc_store_file abc_index_file 0 spec_config with
    | Ok s => s
    | Err _ => abc_fresh
    end.

Lemma newSegment_nextOffset_witness :
  segment_CLose abc_appended = Ok (abc_index_file, abc_store_file)
  /\ len abc_index_file < 2 ^ 64
  /\ newSegment abc_store_file abc_index_file 0 spec_config = Ok abc_reopened
  /\ 1 <= len abc_index_file / entWidth
  /\ fst (entry_at abc_index_file (len abc_index_file / entWidth - 1))
     = len abc_index_file / entWidth - 1
  /\ nextOffset abc_reopened = u64 (0 + len abc_index_file / entWidth)
  /\ nextOffset abc_reopened = 3.
Proof.
  assert (H0 : segment_CLose abc_appended = Ok (abc_index_file, abc_store_file))
    by (vm_compute; reflexivity).
  assert (H1 : len abc_index_file < 2 ^ 64) by (vm_compute; reflexivity).
  assert (H2 : newSegment abc_store_file abc_index_file 0 spec_config = Ok abc_reopened)
    by (vm_compute; reflexivity).
  assert (H3 : 1 <= len abc_index_file / entWidth) by (vm_compute; discriminate).
  assert (H4 : fst (entry_at abc_index_file (len abc_index_file / entWidth - 1))
               = len abc_index_file / entWidth - 1) by (vm_compute; reflexivity).
  repeat (split; [assumption|]).
  split; [|reflexivity].
  exact (proj2 (proj2 (@newSegment_nextOffset abc_store_file abc_index_file 0 spec_config
                          abc_reopened H1 H2)) H3 H4).
Defined.


Lemma index_Write_full_witness :
  len two_entries_file <= MaxInt64
  /\ newIndex two_entries_file small_config = Ok two_entries
  /\ (let (r, i') := index_Write 2 25 two_entries in
      (r = Err io_EOF <-> len (i_mmap two_entries) < i_size two_entries + entWidth)
      /\ (r <> Ok tt -> r = Err io_EOF /\ i' = two_entries)
      /\ (r = Ok tt ->
          i_size i' = i_size two_entries + 12
          /\ firstn (Z.to_nat (i_size two_entries)) (i_mmap i')
             = firstn (Z.to_nat (i_size two_entries)) (i_mmap two_entries)
          /\ entry_at (skipn (Z.to_nat (i_size two_entries)) (i_mmap i')) 0
             = (u32 2, u64 25)
          /\ len (i_mmap i') = len (i_mmap two_entries))).
Proof.
  assert (H1 : len two_entries_file <= MaxInt64) by (vm_compute; discriminate).
  assert (H2 : newIndex two_entries_file small_config = Ok two_entries)
    by (vm_compute; reflexivity).
  repeat (split; [assumption|]).
  exact (index_Write_full 2 25 (reached_newIndex two_entries_file small_config H1 H2)).
Defined.

Definition small_store_appended : store :=
  Eval vm_compute in snd (store_Append [Byte.x61] small_store).


Lemma index_Read_empty_witness :
  i_size empty_index = 0
  /\ index_Read 0 empty_index = Err io_EOF
  /\ index_Read (-1) empty_index = Err io_EOF.
Proof.
  assert (H1 : i_size empty_index = 0) by reflexivity.
  split; [assumption|].
  split; [exact (index_Read_empty empty_index 0 H1)
         |exact (index_Read_empty empty_index (-1) H1)].
Defined.

Lemma index_Read_last_witness :
  holds two_entries 2 /\ 1 <= 2
  /\ exists e, index_Read (-1) two_entries = Ok e /\ index_Read (2 - 1) two_entries = Ok e.
Proof.
  assert (H1 : holds two_entries 2) by (split; [reflexivity|vm_compute; discriminate]).
  assert (H2 : 1 <= 2) by lia.
  repeat (split; [assumption|]).
  exact (@index_Read_last two_entries 2 H1 H2).
Defined.

Lemma index_Read_truncates_witness :
  holds two_entries 2 /\ 1 <= 2 /\ 0 <= 2 ^ 32 + 1 /\ (2 ^ 32 + 1) mod 2 ^ 32 < 2
  /\ index_Read (2 ^ 32 + 1) two_entries
     = Ok (entry_at (i_mmap two_entries) ((2 ^ 32 + 1) mod 2 ^ 32)).
Proof.
  assert (H1 : holds two_entries 2) by (split; [reflexivity|vm_compute; discriminate]).
  assert (H2 : 1 <= 2) by lia.
  assert (H3 : 0 <= 2 ^ 32 + 1) by lia.
  assert (H4 : (2 ^ 32 + 1) mod 2 ^ 32 < 2) by (vm_compute; reflexivity).
  repeat (split; [assumption|]).
  exact (@index_Read_truncates two_entries 2 (2 ^ 32 + 1) H1 H2 H3 H4).
Defined.

(** ** The three ways [Append] fails *)

(** A codec that refuses every record. *)
Lemma refusing_law (r : Record_) (p : list byte) :
  0 <= Offset r < 2 ^ 64 ->
  (Err proto_error : result (list byte)) = Ok p ->
  (Err proto_error : result Record_) = Ok r.
Proof. discriminate. Qed.

Definition refusing_codec : Codec :=
  {| Marshal := fun _ => Err proto_error;
     Unmarshal := fun _ => Err proto_error;
     Unmarshal_Marshal := refusing_law |}.

(** Marshalling fails: nothing is written and [nextOffset] stays. *)
Example Append_marshal_fails :
  @segment_Append refusing_codec rec_a abc_fresh = (Err proto_error, abc_fresh).
Proof. reflexivity. Qed.

(** The store fails: a payload larger than the writer's buffer, on a file
    that takes no more than 10 bytes. *)
Example Append_store_fails :
  let s := mkSegment (newStore (mkFile [] 10)) (mkIndex (repeat Byte.x00 120) 0)
                     0 0 spec_config in
  let (r, s') := segment_Append (mkRecord (repeat Byte.x61 5000) 0) s in
  r = Err os_error /\ nextOffset s' = nextOffset s /\ i_size (seg_index s') = 0.
Proof. vm_compute. repeat split. Qed.

(** The index fails: an eleventh record under an index ceiling of 120
    bytes.  Its frame stays in the store. *)
Example Append_index_fails :
  let (_, s) := mapM segment_Append (repeat rec_a 10) abc_fresh in
  let (r, s') := segment_Append rec_a s in
  r = Err io_EOF /\ nextOffset s' = nextOffset s /\ nextOffset s = 10
  /\ s_size (seg_store s') = s_size (seg_store s) + 8 + 5
  /\ i_size (seg_index s') = i_size (seg_index s).
Proof. vm_compute. repeat split. Qed.

(** * The rest of the package

    [nearestMultiple], the in-memory log of [internal/server], and more of
    what the store, the index and the segment do: reads of what was never
    written, failures, closing and reopening. *)

(** ** [nearestMultiple] *)

(** X1: for [uint64] arguments with [k] not zero, [nearestMultiple(j, k)] is
    [j - j mod k]: a multiple of [k], at most [j], less than [k] below [j],
    and no multiple of [k] lies between it and [j].  With [k] zero the
    division panics. *)
Theorem nearestMultiple_floor (j k : Z) :
  0 <= j < 2 ^ 64 -> 0 <= k < 2 ^ 64 ->
  (k = 0 -> nearestMultiple j k = Err go_panic)
  /\ (0 < k ->
      exists m, nearestMultiple j k = Ok m
        /\ m = j - j mod k
        /\ m mod k = 0
        /\ m <= j < m + k
        /\ (forall q, q * k <= j -> q * k <= m)).
Proof.
  intros Hj Hk. unfold nearestMultiple.
  replace (j >=? 0) with true by (symmetry; apply Z.geb_le; lia).
  split.
  - intros ->. reflexivity.
  - intros Hpos.
    replace (k =? 0) with false by (symmetry; apply Z.eqb_neq; lia).
    assert (Hdm : j = k * (j / k) + j mod k) by (apply Z.div_mod; lia).
    assert (Hm : 0 <= j mod k < k) by (apply Z.mod_pos_bound; lia).
    assert (Hq : 0 <= j / k) by (apply Z.div_pos; lia).
    assert (E : j / k * k = j - j mod k) by lia.
    exists (j - j mod k). split.
    + f_equal. rewrite E. apply u64_small. lia.
    + split; [reflexivity|]. split.
      * rewrite <- E. apply Z.mod_mul. lia.
      * split; [lia|]. intros q Hle. rewrite <- E.
        apply Z.mul_le_mono_nonneg_r; [lia|].
        apply Z.div_le_lower_bound; lia.
Qed.

(** [nearestMultiple(9, 4) == 8], the example of the source, and a zero [k]. *)
Lemma nearestMultiple_floor_witness :
  (0 <= 9 < 2 ^ 64 /\ 0 <= 4 < 2 ^ 64
   /\ (4 = 0 -> nearestMultiple 9 4 = Err go_panic)
   /\ (0 < 4 ->
       exists m, nearestMultiple 9 4 = Ok m
         /\ m = 9 - 9 mod 4 /\ m mod 4 = 0 /\ m <= 9 < m + 4
         /\ (forall q, q * 4 <= 9 -> q * 4 <= m)))
  /\ nearestMultiple 9 0 = Err go_panic.
Proof.
  assert (H1 : 0 <= 9 < 2 ^ 64) by lia.
  assert (H2 : 0 <= 4 < 2 ^ 64) by lia.
  assert (H3 : 0 <= 0 < 2 ^ 64) by lia.
  split.
  - repeat (split; [assumption|]). exact (@nearestMultiple_floor 9 4 H1 H2).
  - exact (proj1 (@nearestMultiple_floor 9 0 H1 H3) eq_refl).
Defined.

(** ** The in-memory log *)

Lemma geb_false a b : a < b -> (a >=? b) = false.
Proof. intros H. rewrite Z.geb_leb. apply Z.leb_gt. exact H. Qed.

Lemma geb_true a b : b <= a -> (a >=? b) = true.
Proof. intros H. rewrite Z.geb_leb. apply Z.leb_le. exact H. Qed.

Lemma stamped_length n rs : length (stamped n rs) = length rs.
Proof. revert n. induction rs; intros; simpl; auto. Qed.

Lemma stamped_nth rs : forall n k d,
  (k < length rs)%nat ->
  nth_error (stamped n rs) k
  = Some (Server.mkRecord (Server.Value (nth k rs d)) (u64 (n + Z.of_nat k))).
Proof.
  induction rs as [|r t IH]; intros n k d Hk; simpl in Hk; [lia|].
  destruct k as [|k]; simpl.
  - do 3 f_equal. lia.
  - rewrite (IH (n + 1) k d) by lia. do 3 f_equal. lia.
Qed.

Lemma Append_all_spec rs : forall c,
  Server.Append_all rs c
  = (map (fun k => u64 (len (Server.records c) + Z.of_nat k)) (seq 0 (length rs)),
     Server.mkLog (Server.records c ++ stamped (len (Server.records c)) rs)).
Proof.
  induction rs as [|r t IH]; intros c.
  - simpl. rewrite app_nil_r. destruct c; reflexivity.
  - cbn [Server.Append_all Server.Append Server.Offset Server.Value].
    rewrite IH. cbn [Server.records length seq map stamped].
    rewrite len_app, <- app_assoc. cbn [app].
    change (len [ {| Server.Value := Server.Value r;
                     Server.Offset := u64 (len (Server.records c)) |} ]) with 1.
    f_equal.
    + f_equal; [f_equal; lia|].
      rewrite <- seq_shift, map_map. apply map_ext. intros k. f_equal. lia.
Qed.

Lemma Read_found (c : Server.Log) (k : nat) r :
  len (Server.records c) < 2 ^ 64 ->
  nth_error (Server.records c) k = Some r ->
  Server.Read (Z.of_nat k) c = (r, None).
Proof.
  intros Hlen Hk. unfold Server.Read.
  assert (Hlt : (k < length (Server.records c))%nat)
    by (apply nth_error_Some; congruence).
  rewrite u64_small by (pose proof (len_nonneg (Server.records c)); lia).
  replace (Z.of_nat k >=? len (Server.records c)) with false
    by (symmetry; apply geb_false; unfold len; lia).
  cbn [orb]. rewrite Nat2Z.id, Hk. reflexivity.
Qed.

(** X2: appending [N] records to a new log returns the offsets
    [0, 1, ..., N-1], and reading offset [k] afterwards returns the [k]-th
    payload with [Offset] set to [k]. *)
Theorem Log_roundtrip (rs : list Server.Record_) (offs : list Z) (c : Server.Log) :
  len rs < 2 ^ 64 ->
  Server.Append_all rs Server.NewLog = (offs, c) ->
  offs = map Z.of_nat (seq 0 (length rs))
  /\ forall k, (k < length rs)%nat ->
       Server.Read (Z.of_nat k) c
       = (Server.mkRecord (Server.Value (nth k rs Server.zero)) (Z.of_nat k), None).
Proof.
  intros Hlen E. rewrite Append_all_spec in E.
  cbn [Server.NewLog Server.records app] in E.
  change (len (@nil Server.Record_)) with 0 in E.
  apply pair_equal_spec in E. destruct E as [<- <-]. split.
  - apply map_ext_in. intros k Hk. apply in_seq in Hk.
    apply u64_small. unfold len in Hlen. lia.
  - intros k Hk. apply Read_found.
    + cbn [Server.records]. unfold len. rewrite stamped_length. exact Hlen.
    + cbn [Server.records]. rewrite (stamped_nth rs 0 Server.zero Hk).
      do 2 f_equal. apply u64_small. unfold len in Hlen. lia.
Qed.

(** Three records, the second with an offset of the caller's that [Append]
    replaces. *)
Definition three_records : list Server.Record_ :=
  [Server.mkRecord [Byte.x61] 0; Server.mkRecord [Byte.x62] 7; Server.mkRecord [] 0].

Definition three_log : Server.Log :=
  Server.mkLog [Server.mkRecord [Byte.x61] 0; Server.mkRecord [Byte.x62] 1;
                Server.mkRecord [] 2].

Lemma Log_roundtrip_witness :
  len three_records < 2 ^ 64
  /\ Server.Append_all three_records Server.NewLog = ([0; 1; 2], three_log)
  /\ [0; 1; 2] = map Z.of_nat (seq 0 (length three_records))
  /\ forall k, (k < length three_records)%nat ->
       Server.Read (Z.of_nat k) three_log
       = (Server.mkRecord (Server.Value (nth k three_records Server.zero)) (Z.of_nat k),
          None).
Proof.
  assert (H1 : len three_records < 2 ^ 64) by (vm_compute; reflexivity).
  assert (H2 : Server.Append_all three_records Server.NewLog = ([0; 1; 2], three_log))
    by (vm_compute; reflexivity).
  repeat (split; [assumption|]).
  exact (@Log_roundtrip three_records [0; 1; 2] three_log H1 H2).
Defined.

(** X3: [Read] of an offset at or past the number of records returns the
    zero record with [ErrOffsetNotFound], on a new log for every offset;
    below it, [Read] returns the record stored at that position without
    error.  The indexing never panics. *)
Theorem Log_Read_found_iff (c : Server.Log) (offset : Z) :
  0 <= offset < 2 ^ 64 -> len (Server.records c) < 2 ^ 64 ->
  (len (Server.records c) <= offset ->
     Server.Read offset c = (Server.zero, Some Server.ErrOffsetNotFound))
  /\ (offset < len (Server.records c) ->
      exists r, nth_error (Server.records c) (Z.to_nat offset) = Some r
                /\ Server.Read offset c = (r, None)).
Proof.
  intros Ho Hlen. pose proof (len_nonneg (Server.records c)) as H0. split.
  - intros Hge. unfold Server.Read. rewrite u64_small by lia.
    replace (offset >=? len (Server.records c)) with true
      by (symmetry; apply geb_true; lia).
    reflexivity.
  - intros Hlt.
    destruct (nth_error (Server.records c) (Z.to_nat offset)) as [r|] eqn:E.
    + exists r. split; [reflexivity|].
      rewrite <- (Z2Nat.id offset) by lia. apply Read_found; assumption.
    + apply nth_error_None in E. unfold len in Hlt. lia.
Qed.

Lemma Log_Read_found_iff_witness :
  len (Server.records three_log) < 2 ^ 64
  /\ Server.Read 3 three_log = (Server.zero, Some Server.ErrOffsetNotFound)
  /\ exists r, nth_error (Server.records three_log) (Z.to_nat 2) = Some r
               /\ Server.Read 2 three_log = (r, None).
Proof.
  assert (H1 : len (Server.records three_log) < 2 ^ 64) by (vm_compute; reflexivity).
  assert (H2 : 0 <= 3 < 2 ^ 64) by lia.
  assert (H3 : 0 <= 2 < 2 ^ 64) by lia.
  assert (H4 : len (Server.records three_log) <= 3) by (vm_compute; discriminate).
  assert (H5 : 2 < len (Server.records three_log)) by (vm_compute; reflexivity).
  split; [assumption|]. split.
  - exact (proj1 (@Log_Read_found_iff three_log 3 H2 H1) H4).
  - exact (proj2 (@Log_Read_found_iff three_log 2 H3 H1) H5).
Defined.

(** X4: [Append] on any log never fails, returns the number of records the
    log held, stores the payload under that offset whatever offset the
    caller's record carried, and leaves every earlier offset reading as it
    did. *)
Theorem Log_Append_step (r : Server.Record_) (c : Server.Log) :
  len (Server.records c) < 2 ^ 63 ->
  let '((off, err), c') := Server.Append r c in
  err = None
  /\ off = len (Server.records c)
  /\ len (Server.records c') = len (Server.records c) + 1
  /\ Server.Read off c' = (Server.mkRecord (Server.Value r) off, None)
  /\ (forall o, 0 <= o < off -> Server.Read o c' = Server.Read o c).
Proof.
  intros Hlen. pose proof (len_nonneg (Server.records c)) as H0.
  cbn [Server.Append Server.Offset Server.Value].
  assert (Hu : u64 (len (Server.records c)) = len (Server.records c))
    by (apply u64_small; lia).
  rewrite Hu.
  assert (Hl : len (Server.records c
                    ++ [Server.mkRecord (Server.Value r) (len (Server.records c))])
               = len (Server.records c) + 1).
  { rewrite len_app. reflexivity. }
  split; [reflexivity|]. split; [reflexivity|].
  split; [exact Hl|]. split.
  - unfold len at 1 3. apply Read_found.
    + cbn [Server.records]. rewrite Hl. lia.
    + cbn [Server.records]. rewrite nth_error_app2 by lia.
      rewrite Nat.sub_diag. reflexivity.
  - intros o Ho. unfold Server.Read. cbn [Server.records].
    rewrite Hl, Hu. rewrite (u64_small (z := len (Server.records c) + 1)) by lia.
    replace (o >=? len (Server.records c) + 1) with false
      by (symmetry; apply geb_false; lia).
    replace (o >=? len (Server.records c)) with false
      by (symmetry; apply geb_false; lia).
    cbn [orb]. rewrite nth_error_app1 by (unfold len in Ho; lia). reflexivity.
Qed.

Lemma Log_Append_step_witness :
  len (Server.records three_log) < 2 ^ 63
  /\ let '((off, err), c') := Server.Append (Server.mkRecord [Byte.x64] 9) three_log in
     err = None
     /\ off = len (Server.records three_log)
     /\ len (Server.records c') = len (Server.records three_log) + 1
     /\ Server.Read off c'
        = (Server.mkRecord (Server.Value (Server.mkRecord [Byte.x64] 9)) off, None)
     /\ (forall o, 0 <= o < off -> Server.Read o c' = Server.Read o three_log).
Proof.
  assert (H1 : len (Server.records three_log) < 2 ^ 63) by (vm_compute; reflexivity).
  split; [assumption|].
  exact (@Log_Append_step (Server.mkRecord [Byte.x64] 9) three_log H1).
Defined.

(** ** More of the store *)

Lemma store_eta s : mkStore (s_File s) (s_buf s) (s_size s) = s.
Proof. destruct s; reflexivity. Qed.

(** What the flush at the head of [Read], [ReadAt] and [Close] does to a
    store. *)
Lemma store_Flush_inv s r s' :
  store_io Flush s = (r, s') ->
  s_size s' = s_size s
  /\ store_contents s' = store_contents s
  /\ f_limit (s_File s') = f_limit (s_File s)
  /\ match r with
     | Ok _ => w_err (s_buf s) = None /\ s_buf s' = NewWriter
               /\ f_data (s_File s') = store_contents s
               /\ len (f_data (s_File s'))
                  <= Z.max (len (f_data (s_File s))) (File_room (s_File s))
     | Err e => s_File s' = s_File s /\ w_err (s_buf s') = Some e
     end.
Proof.
  unfold store_io, on. cbn [s_File s_buf].
  destruct (Flush (s_File s, s_buf s)) as [r0 [f' w']] eqn:E.
  intros H. apply pair_equal_spec in H. destruct H as [-> <-].
  cbn [fst snd s_size s_File s_buf]. unfold store_contents. cbn [s_File s_buf].
  destruct (Flush_inv _ _ E) as (Hl & Hr).
  destruct r as [u|e].
  - destruct Hr as (He & Hd & Hb & He' & Hm).
    split; [reflexivity|]. split; [rewrite Hd, Hb, app_nil_r; reflexivity|].
    split; [exact Hl|]. split; [exact He|]. split.
    + destruct w' as [b' e']. cbn in Hb, He'. subst. reflexivity.
    + split; [exact Hd | exact Hm].
  - destruct Hr as (-> & Hb & He).
    split; [reflexivity|]. split; [rewrite Hb; reflexivity|].
    split; [reflexivity|]. split; [reflexivity | exact He].
Qed.

(** With the writer in error the flush fails and changes nothing. *)
Lemma store_Flush_err s e :
  w_err (s_buf s) = Some e -> store_io Flush s = (Err e, s).
Proof.
  intros He. unfold store_io, on, Flush. cbn [s_File s_buf]. rewrite He.
  cbn [fst snd]. rewrite store_eta. reflexivity.
Qed.

Lemma File_ReadAt_data n off f :
  File_ReadAt n off f = File_ReadAt n off (mkFile (f_data f) 0).
Proof. reflexivity. Qed.

Lemma store_Read_flushed pos s u s1 :
  store_io Flush s = (Ok u, s1) ->
  store_Read pos s = (read_frame pos (store_contents s), s1).
Proof.
  intros E. destruct (store_Flush_inv _ E) as (_ & _ & _ & _ & _ & Hd & _).
  unfold store_Read, bind, get, of_result, make_len, ret, fail. rewrite E.
  unfold read_frame. rewrite <- Hd.
  rewrite (File_ReadAt_data lenWidth).
  destruct (File_ReadAt lenWidth (i64 pos) (mkFile (f_data (s_File s1)) 0)) as [sz|e];
    [|reflexivity].
  destruct (Uint64 sz >? MaxInt64); [reflexivity|].
  rewrite (File_ReadAt_data (Uint64 sz)).
  destruct (File_ReadAt (Uint64 sz) _ (mkFile (f_data (s_File s1)) 0)); reflexivity.
Qed.

Lemma store_Read_unflushed pos s e s1 :
  store_io Flush s = (Err e, s1) -> store_Read pos s = (Err e, s1).
Proof. intros E. unfold store_Read, bind. rewrite E. reflexivity. Qed.

(** A read that succeeds is a read of the flushed contents. *)
Lemma store_Read_Ok_inv pos s q s1 :
  store_Read pos s = (Ok q, s1) ->
  store_io Flush s = (Ok tt, s1) /\ read_frame pos (store_contents s) = Ok q.
Proof.
  intros E. destruct (store_io Flush s) as [[[]|e] s0] eqn:EF.
  - rewrite (store_Read_flushed pos _ EF) in E.
    apply pair_equal_spec in E. destruct E as [E ->]. auto.
  - rewrite (store_Read_unflushed pos _ EF) in E. discriminate.
Qed.

Lemma slice_app_l (d x : list byte) lo hi b :
  slice d lo hi = Some b -> slice (d ++ x) lo hi = Some b.
Proof.
  intros E. destruct (slice_Some_inv _ _ _ E) as (Hlo & Hh & Hl).
  rewrite slice_in_bounds in E by assumption.
  rewrite slice_in_bounds
    by (try assumption; rewrite len_app; pose proof (len_nonneg x); lia).
  rewrite <- E. f_equal. unfold len in *.
  rewrite skipn_app, firstn_app.
  replace (Z.to_nat (hi - lo) - length (skipn (Z.to_nat lo) d))%nat with O
    by (rewrite length_skipn; lia).
  cbn [firstn]. apply app_nil_r.
Qed.

Lemma File_ReadAt_app n off d x l l' b :
  File_ReadAt n off (mkFile d l) = Ok b -> File_ReadAt n off (mkFile (d ++ x) l') = Ok b.
Proof.
  unfold File_ReadAt. cbn [f_data].
  destruct (off <? 0); [discriminate|].
  destruct (n =? 0); [auto|].
  destruct (slice d off (off + n)) as [b0|] eqn:E; [|discriminate].
  rewrite (@slice_app_l d x _ _ _ E). auto.
Qed.

Lemma read_frame_app pos d x q :
  read_frame pos d = Ok q -> read_frame pos (d ++ x) = Ok q.
Proof.
  unfold read_frame.
  destruct (File_ReadAt lenWidth (i64 pos) (mkFile d 0)) as [sz|e] eqn:E1; [|discriminate].
  rewrite (@File_ReadAt_app _ _ d x 0 0 _ E1).
  destruct (Uint64 sz >? MaxInt64); [discriminate|].
  apply (@File_ReadAt_app _ _ d x 0 0).
Qed.

(** A flush of a sound store whose contents fit the file succeeds. *)
Lemma store_Flush_fits s :
  store_ok s -> len (store_contents s) <= File_room (s_File s) ->
  exists s1, store_io Flush s = (Ok tt, s1).
Proof.
  intros ((He & _) & _) Hroom. unfold store_io, on. cbn [s_File s_buf].
  rewrite Flush_ok by (try assumption; rewrite <- len_app; exact Hroom).
  eexists. reflexivity.
Qed.

(** A store the package produced is sound while its writer has no error;
    an append or a flush that succeeded shows it has none. *)
Lemma store_reached_Append_ok p s r s' :
  store_reached s -> store_Append p s = (Ok r, s') -> store_ok s.
Proof.
  intros Hr E. apply store_reached_inv in Hr.
  apply (store_inv_ok Hr).
  destruct (w_err (s_buf s)) as [e|] eqn:He; [|reflexivity].
  rewrite store_Append_unfold, (Write_err_first _ _ _ He) in E. discriminate.
Qed.

Lemma store_reached_Flush_ok s u s' :
  store_reached s -> store_io Flush s = (Ok u, s') -> store_ok s /\ store_ok s'.
Proof.
  intros Hr E. pose proof (store_reached_inv Hr) as Hi.
  destruct (store_Flush_inv _ E) as (Hsz & Hc & Hl & He & Hb & Hd & Hm).
  pose proof (store_inv_ok Hi He) as Hok. split; [exact Hok|].
  destruct Hok as (_ & Hmax & Hs).
  unfold store_ok, writer_ok. rewrite Hb. cbn [w_err w_buf NewWriter].
  split; [split; [reflexivity | vm_compute; discriminate]|].
  split.
  - unfold File_room in Hm. lia.
  - rewrite Hsz, Hc. exact Hs.
Qed.

(** X5: on a store the package produced, the payload of a successful
    [Append] is what [Read] returns at the position [Append] reported, when
    the file has room for the bytes the read flushes. *)
Theorem store_Append_Read (p : list byte) (s s' : store) (n pos : Z) :
  store_reached s -> store_Append p s = (Ok (n, pos), s') ->
  len (store_contents s') <= File_room (s_File s') ->
  fst (store_Read pos s') = Ok p.
Proof.
  intros Hr E Hroom. pose proof (store_reached_Append_ok _ Hr E) as Hok.
  destruct (store_Append_Ok_inv p Hok E) as (_ & Hpos & _ & Hc & Hok' & _).
  destruct Hok as (_ & _ & Hsz). rewrite Hpos, Hsz.
  rewrite (@store_Read_frame (store_contents s) p [] s' Hok'); [reflexivity| |exact Hroom].
  rewrite app_nil_r. exact Hc.
Qed.

(** X6: a payload [Read] returned at a position is returned there again
    after a later successful [Append]: appending never changes what is
    stored. *)
Theorem store_Append_keeps_reads (p q : list byte) (s s1 s2 : store) (pos n pos' : Z) :
  store_reached s ->
  store_Read pos s = (Ok q, s1) ->
  store_Append p s1 = (Ok (n, pos'), s2) ->
  len (store_contents s2) <= File_room (s_File s2) ->
  fst (store_Read pos s2) = Ok q.
Proof.
  intros Hr ER EA Hroom.
  destruct (store_Read_Ok_inv _ _ ER) as (EF & Hq).
  destruct (store_reached_Flush_ok Hr EF) as (_ & Hok1).
  destruct (store_Flush_inv _ EF) as (_ & Hc1 & _).
  destruct (store_Append_Ok_inv p Hok1 EA) as (_ & _ & _ & Hc2 & Hok2 & _).
  destruct (store_Flush_fits Hok2 Hroom) as (s3 & EF2).
  rewrite (store_Read_flushed pos _ EF2). cbn [fst].
  rewrite Hc2, Hc1. apply read_frame_app. exact Hq.
Qed.

Lemma Write_Err_err p fw e f' w' :
  Write p fw = (Err e, (f', w')) -> w_err w' = Some e.
Proof.
  unfold Write. destruct (Write_loop 2 p 0 fw) as [[p' nn] [f1 w1]].
  destruct (w_err w1) as [e1|] eqn:E; [|discriminate].
  intros H. apply pair_equal_spec in H. destruct H as [H1 H2].
  apply pair_equal_spec in H2. destruct H2 as [_ <-]. congruence.
Qed.

Lemma store_Append_Err_inv p s e s' :
  store_Append p s = (Err e, s') ->
  s_size s' = s_size s /\ w_err (s_buf s') = Some e.
Proof.
  rewrite store_Append_unfold.
  destruct (Write (PutUint64 (u64 (len p))) (s_File s, s_buf s)) as [[n1|e1] [f1 w1]] eqn:E1.
  - destruct (Write p (f1, w1)) as [[n2|e2] [f2 w2]] eqn:E2; [discriminate|].
    intros H. apply pair_equal_spec in H. destruct H as [H <-].
    cbn [s_size s_buf]. split; [reflexivity|].
    rewrite (Write_Err_err _ _ E2). congruence.
  - intros H. apply pair_equal_spec in H. destruct H as [H <-].
    cbn [s_size s_buf]. split; [reflexivity|].
    rewrite (Write_Err_err _ _ E1). congruence.
Qed.

Lemma store_Append_err q s e :
  w_err (s_buf s) = Some e -> store_Append q s = (Err e, s).
Proof.
  intros He. rewrite store_Append_unfold, (Write_err_first _ _ _ He).
  rewrite store_eta. reflexivity.
Qed.

(** X7: an [Append] that fails leaves [size] as it was and the writer in
    error: every later [Append], [Read], [ReadAt] and [Close] of the store
    fails with the same error and changes nothing. *)
Theorem store_failure_sticks (p : list byte) (s s' : store) (e : error) :
  store_Append p s = (Err e, s') ->
  s_size s' = s_size s
  /\ (forall q, store_Append q s' = (Err e, s'))
  /\ (forall pos, store_Read pos s' = (Err e, s'))
  /\ (forall n off, store_ReadAt n off s' = (([], Some e), s'))
  /\ store_Close s' = (Err e, s').
Proof.
  intros E. destruct (store_Append_Err_inv _ _ E) as (Hsz & He).
  pose proof (store_Flush_err _ He) as EF.
  split; [exact Hsz|]. split; [intros q; apply store_Append_err; exact He|].
  split; [intros pos; apply store_Read_unflushed; exact EF|].
  split; [|exact EF].
  intros n off. unfold store_ReadAt. rewrite EF. reflexivity.
Qed.

(** X8: [Read], [ReadAt] and [Close] never change what the store holds,
    whether they succeed or fail: the bytes of the file and the writer
    together, and [size], are the same after the call. *)
Theorem store_reads_keep_contents (s : store) (pos n off : Z) :
  (store_contents (snd (store_Read pos s)) = store_contents s
   /\ s_size (snd (store_Read pos s)) = s_size s)
  /\ (store_contents (snd (store_ReadAt n off s)) = store_contents s
      /\ s_size (snd (store_ReadAt n off s)) = s_size s)
  /\ (store_contents (snd (store_Close s)) = store_contents s
      /\ s_size (snd (store_Close s)) = s_size s).
Proof.
  assert (H : store_contents (snd (store_io Flush s)) = store_contents s
              /\ s_size (snd (store_io Flush s)) = s_size s).
  { destruct (store_io Flush s) as [r s1] eqn:EF.
    destruct (store_Flush_inv _ EF) as (Hsz & Hc & _). auto. }
  split; [rewrite store_Read_state; exact H|]. split; [|exact H].
  unfold store_ReadAt. destruct (store_io Flush s) as [[u|e] s1]; exact H.
Qed.

Lemma File_ReadAt_n_mid (pre mid post : list byte) limit :
  File_ReadAt_n (len mid) (len pre) (mkFile (pre ++ mid ++ post) limit) = (mid, None).
Proof.
  unfold File_ReadAt_n. cbn [f_data].
  pose proof (len_nonneg pre) as Hp.
  replace (len pre <? 0) with false by (symmetry; apply Z.ltb_ge; lia).
  rewrite !to_nat_len, skipn_len_app, firstn_len_app.
  rewrite Z.ltb_irrefl. reflexivity.
Qed.

Lemma File_ReadAt_n_short (pre mid : list byte) limit extra :
  0 < extra ->
  File_ReadAt_n (len mid + extra) (len pre) (mkFile (pre ++ mid) limit)
  = (mid, Some io_EOF).
Proof.
  intros Hx. unfold File_ReadAt_n. cbn [f_data].
  pose proof (len_nonneg pre) as Hp.
  replace (len pre <? 0) with false by (symmetry; apply Z.ltb_ge; lia).
  rewrite to_nat_len, skipn_len_app.
  rewrite firstn_all2 by (unfold len; lia).
  replace (len mid <? len mid + extra) with true by (symmetry; apply Z.ltb_lt; lia).
  reflexivity.
Qed.

(** X9: [ReadAt] with a buffer of the [n] bytes [Append] reported, at the
    position it reported, reads the record as the store holds it: the
    8-byte big-endian length, then the payload, and no error.  With a
    longer buffer at the end of the store it reads the same bytes and
    returns [io.EOF]. *)
Theorem store_ReadAt_frame (p : list byte) (s s' : store) (n pos extra : Z) :
  store_reached s -> store_Append p s = (Ok (n, pos), s') ->
  len (store_contents s') <= File_room (s_File s') ->
  0 < extra ->
  fst (store_ReadAt n (i64 pos) s') = (PutUint64 (len p) ++ p, None)
  /\ fst (store_ReadAt (n + extra) (i64 pos) s') = (PutUint64 (len p) ++ p, Some io_EOF).
Proof.
  intros Hr E Hroom Hx. pose proof (store_reached_Append_ok _ Hr E) as Hok.
  destruct (store_Append_Ok_inv p Hok E) as (Hn & Hpos & _ & Hc & Hok' & _).
  destruct (store_Flush_fits Hok' Hroom) as (s1 & EF).
  destruct (store_Flush_inv _ EF) as (_ & _ & _ & _ & _ & Hd & _).
  destruct Hok as (_ & Hmax & Hsz).
  assert (Hlen : len (store_contents s') <= MaxInt64) by (unfold File_room in Hroom; lia).
  assert (Hn' : n = len (frame p)).
  { rewrite Hn. unfold frame. rewrite len_app. reflexivity. }
  assert (Hp : i64 pos = len (store_contents s)).
  { rewrite Hpos, Hsz. apply i64_small.
    rewrite Hc, len_app in Hlen. pose proof (len_nonneg (store_contents s)).
    pose proof (len_nonneg (frame p)). unfold MaxInt64 in Hlen. lia. }
  unfold store_ReadAt. rewrite EF. cbn [fst]. rewrite Hp, Hn'.
  destruct (s_File s1) as [d l]. cbn [f_data] in Hd. subst d. rewrite Hc.
  split.
  - rewrite <- (app_nil_r (frame p)) at 2. apply File_ReadAt_n_mid.
  - apply File_ReadAt_n_short. exact Hx.
Qed.

(** X10: after a [Close] that succeeded, the file holds everything that was
    appended, and a store opened over it has the same [size] and answers
    every [Read] as the closed store did. *)
Theorem store_Close_reopen (s s' : store) :
  store_reached s -> store_Close s = (Ok tt, s') ->
  f_data (s_File s') = store_contents s
  /\ s_size (newStore (s_File s')) = s_size s
  /\ forall pos, fst (store_Read pos (newStore (s_File s'))) = fst (store_Read pos s).
Proof.
  unfold store_Close. intros Hr EF.
  destruct (store_reached_Flush_ok Hr EF) as (Hok & Hok').
  destruct (store_Flush_inv _ EF) as (_ & _ & _ & _ & _ & Hd & _).
  destruct Hok as (_ & _ & Hsz). destruct Hok' as (_ & Hmax & _).
  split; [exact Hd|]. split.
  - unfold newStore. cbn [s_size]. rewrite Hsz, <- Hd. apply u64_small.
    pose proof (len_nonneg (f_data (s_File s'))). unfold MaxInt64 in Hmax. lia.
  - intros pos. rewrite (store_Read_flushed pos _ EF). cbn [fst].
    assert (EN : store_io Flush (newStore (s_File s')) = (Ok tt, newStore (s_File s'))).
    { unfold store_io, on, newStore, Flush. cbn. reflexivity. }
    rewrite (store_Read_flushed pos _ EN). cbn [fst].
    unfold store_contents at 1, newStore. cbn [s_File s_buf NewWriter w_buf].
    rewrite app_nil_r, Hd. reflexivity.
Qed.

(** X11: [Read] at or past the end of the store finds no record: on a
    sound store whose contents fit the file, a position from [size] up to
    the largest [int64] returns [io.EOF], and a larger [uint64] position,
    a negative file offset, returns the file's error. *)
Theorem store_Read_past_end (s : store) (pos : Z) :
  store_reached s -> w_err (s_buf s) = None ->
  len (store_contents s) <= File_room (s_File s) ->
  s_size s <= pos < 2 ^ 64 ->
  fst (store_Read pos s) = Err (if pos <? 2 ^ 63 then io_EOF else os_error).
Proof.
  intros Hr He Hroom Hpos.
  pose proof (store_inv_ok (store_reached_inv Hr) He) as Hok.
  destruct (store_Flush_fits Hok Hroom) as (s1 & EF).
  rewrite (store_Read_flushed pos _ EF). cbn [fst].
  destruct Hok as (_ & _ & Hsz). rewrite Hsz in Hpos.
  pose proof (len_nonneg (store_contents s)) as H0.
  unfold read_frame, File_ReadAt. cbn [f_data].
  destruct (Z.ltb_spec pos (2 ^ 63)) as [Hlt|Hge].
  - rewrite i64_small by lia.
    destruct (Z.ltb_spec pos 0); [lia|].
    change (lenWidth =? 0) with false. cbv iota.
    destruct (slice (store_contents s) pos (pos + lenWidth)) as [b|] eqn:E; [|reflexivity].
    apply slice_Some_inv in E. unfold lenWidth in E. lia.
  - assert (Hneg : i64 pos < 0).
    { unfold i64. replace (pos + 2 ^ 63) with (pos - 2 ^ 63 + 1 * 2 ^ 64) by lia.
      rewrite Z.mod_add by lia. rewrite Z.mod_small by lia. lia. }
    destruct (Z.ltb_spec (i64 pos) 0); [reflexivity | lia].
Qed.

(** The store of the 100-byte file after [Append("a")], after a [Read], and
    after a further [Append("bb")]; the same store closed; and the store
    after an [Append] of 4089 bytes, which the file has no room for. *)
Definition small_store_read : store :=
  Eval vm_compute in snd (store_Read 0 small_store_appended).

Definition small_store_two : store :=
  Eval vm_compute in snd (store_Append [Byte.x62; Byte.x62] small_store_read).

Definition small_store_closed : store :=
  Eval vm_compute in snd (store_Close small_store_appended).

Definition small_store_failed : store :=
  Eval vm_compute in snd (store_Append (repeat Byte.x00 4089) small_store).

Lemma store_Append_Read_witness :
  store_reached small_store
  /\ store_Append [Byte.x61] small_store = (Ok (9, 0), small_store_appended)
  /\ len (store_contents small_store_appended) <= File_room (s_File small_store_appended)
  /\ fst (store_Read 0 small_store_appended) = Ok [Byte.x61].
Proof.
  assert (H1 : store_reached small_store).
  { apply reached_newStore. vm_compute. discriminate. }
  assert (H2 : store_Append [Byte.x61] small_store = (Ok (9, 0), small_store_appended))
    by (vm_compute; reflexivity).
  assert (H3 : len (store_contents small_store_appended)
               <= File_room (s_File small_store_appended))
    by (vm_compute; discriminate).
  repeat (split; [assumption|]).
  exact (@store_Append_Read [Byte.x61] small_store small_store_appended 9 0 H1 H2 H3).
Defined.

Lemma store_Append_keeps_reads_witness :
  store_reached small_store_appended
  /\ store_Read 0 small_store_appended = (Ok [Byte.x61], small_store_read)
  /\ store_Append [Byte.x62; Byte.x62] small_store_read = (Ok (10, 9), small_store_two)
  /\ len (store_contents small_store_two) <= File_room (s_File small_store_two)
  /\ fst (store_Read 0 small_store_two) = Ok [Byte.x61].
Proof.
  assert (H1 : store_reached small_store_appended).
  { apply (@reached_Append [Byte.x61] small_store).
    apply reached_newStore. vm_compute. discriminate. }
  assert (H2 : store_Read 0 small_store_appended = (Ok [Byte.x61], small_store_read))
    by (vm_compute; reflexivity).
  assert (H3 : store_Append [Byte.x62; Byte.x62] small_store_read
               = (Ok (10, 9), small_store_two))
    by (vm_compute; reflexivity).
  assert (H4 : len (store_contents small_store_two) <= File_room (s_File small_store_two))
    by (vm_compute; discriminate).
  repeat (split; [assumption|]).
  exact (@store_Append_keeps_reads [Byte.x62; Byte.x62] [Byte.x61]
           small_store_appended small_store_read small_store_two 0 10 9 H1 H2 H3 H4).
Defined.

Lemma store_failure_sticks_witness :
  store_Append (repeat Byte.x00 4089) small_store = (Err os_error, small_store_failed)
  /\ s_size small_store_failed = s_size small_store
  /\ (forall q, store_Append q small_store_failed = (Err os_error, small_store_failed))
  /\ (forall pos, store_Read pos small_store_failed = (Err os_error, small_store_failed))
  /\ (forall n off, store_ReadAt n off small_store_failed
                    = (([], Some os_error), small_store_failed))
  /\ store_Close small_store_failed = (Err os_error, small_store_failed).
Proof.
  assert (H1 : store_Append (repeat Byte.x00 4089) small_store
               = (Err os_error, small_store_failed))
    by (vm_compute; reflexivity).
  split; [assumption|].
  exact (@store_failure_sticks (repeat Byte.x00 4089) small_store small_store_failed
           os_error H1).
Defined.

Lemma store_ReadAt_frame_witness :
  store_reached small_store
  /\ store_Append [Byte.x61] small_store = (Ok (9, 0), small_store_appended)
  /\ len (store_contents small_store_appended) <= File_room (s_File small_store_appended)
  /\ 0 < 1
  /\ fst (store_ReadAt 9 (i64 0) small_store_appended)
     = (PutUint64 (len [Byte.x61]) ++ [Byte.x61], None)
  /\ fst (store_ReadAt (9 + 1) (i64 0) small_store_appended)
     = (PutUint64 (len [Byte.x61]) ++ [Byte.x61], Some io_EOF).
Proof.
  assert (H1 : store_reached small_store).
  { apply reached_newStore. vm_compute. discriminate. }
  assert (H2 : store_Append [Byte.x61] small_store = (Ok (9, 0), small_store_appended))
    by (vm_compute; reflexivity).
  assert (H3 : len (store_contents small_store_appended)
               <= File_room (s_File small_store_appended))
    by (vm_compute; discriminate).
  assert (H4 : 0 < 1) by lia.
  repeat (split; [assumption|]).
  exact (@store_ReadAt_frame [Byte.x61] small_store small_store_appended 9 0 1 H1 H2 H3 H4).
Defined.

Lemma store_Close_reopen_witness :
  store_reached small_store_appended
  /\ store_Close small_store_appended = (Ok tt, small_store_closed)
  /\ f_data (s_File small_store_closed) = store_contents small_store_appended
  /\ s_size (newStore (s_File small_store_closed)) = s_size small_store_appended
  /\ forall pos, fst (store_Read pos (newStore (s_File small_store_closed)))
                 = fst (store_Read pos small_store_appended).
Proof.
  assert (H1 : store_reached small_store_appended).
  { apply (@reached_Append [Byte.x61] small_store).
    apply reached_newStore. vm_compute. discriminate. }
  assert (H2 : store_Close small_store_appended = (Ok tt, small_store_closed))
    by (vm_compute; reflexivity).
  repeat (split; [assumption|]).
  exact (@store_Close_reopen small_store_appended small_store_closed H1 H2).
Defined.

Lemma store_Read_past_end_witness :
  store_reached small_store_appended
  /\ w_err (s_buf small_store_appended) = None
  /\ len (store_contents small_store_appended) <= File_room (s_File small_store_appended)
  /\ s_size small_store_appended <= 9 < 2 ^ 64
  /\ fst (store_Read 9 small_store_appended) = Err io_EOF.
Proof.
  assert (H1 : store_reached small_store_appended).
  { apply (@reached_Append [Byte.x61] small_store).
    apply reached_newStore. vm_compute. discriminate. }
  assert (H2 : w_err (s_buf small_store_appended) = None) by reflexivity.
  assert (H3 : len (store_contents small_store_appended)
               <= File_room (s_File small_store_appended))
    by (vm_compute; discriminate).
  assert (H4 : s_size small_store_appended <= 9 < 2 ^ 64)
    by (vm_compute; split; [discriminate|reflexivity]).
  repeat (split; [assumption|]).
  exact (@store_Read_past_end small_store_appended 9 H1 H2 H3 H4).
Defined.

(** ** More of the index *)

(** [Read] past the entries in use: the check against [size] fails. *)
Lemma index_Read_past (in_ : Z) (i : index) :
  i_size i < ((if in_ =? -1 then u32 (u64 (i_size i / entWidth - 1)) else u32 in_) + 1)
             * entWidth ->
  index_Read in_ i = Err io_EOF.
Proof.
  intros H. unfold index_Read.
  destruct (i_size i =? 0); [reflexivity|].
  set (j := if in_ =? -1 then u32 (u64 (i_size i / entWidth - 1)) else u32 in_) in *.
  assert (Hr : 0 <= j < 2 ^ 32) by (subst j; destruct (in_ =? -1); apply u32_range).
  unfold entWidth, offWidth, posWidth in *. change (4 + 8) with 12 in *.
  rewrite (u64_small (z := j * 12)) by lia.
  rewrite (u64_small (z := j * 12 + 12)) by lia.
  destruct (Z.ltb_spec (i_size i) (j * 12 + 12)); [reflexivity | lia].
Qed.

(** [Read] sees the index through [size] and the bytes below it only. *)
Lemma index_Read_ext (in_ : Z) (i i' : index) :
  i_size i' = i_size i ->
  0 <= i_size i <= len (i_mmap i) -> i_size i <= len (i_mmap i') ->
  firstn (Z.to_nat (i_size i)) (i_mmap i') = firstn (Z.to_nat (i_size i)) (i_mmap i) ->
  index_Read in_ i' = index_Read in_ i.
Proof.
  intros Hs Hm Hm' Hf.
  destruct (Z.eq_dec (i_size i) 0) as [Hz|Hnz].
  { rewrite !index_Read_size0 by congruence. reflexivity. }
  set (j := if in_ =? -1 then u32 (u64 (i_size i / entWidth - 1)) else u32 in_).
  assert (Hr : 0 <= j < 2 ^ 32) by (subst j; destruct (in_ =? -1); apply u32_range).
  destruct (Z.le_gt_cases ((j + 1) * entWidth) (i_size i)) as [Hin|Hout].
  - rewrite (@index_Read_at i' in_ j), (@index_Read_at i in_ j);
      try (rewrite ?Hs; first [assumption | reflexivity | lia]).
    f_equal.
    rewrite <- (@entry_at_firstn (i_mmap i') (Z.to_nat (i_size i)) j),
            <- (@entry_at_firstn (i_mmap i) (Z.to_nat (i_size i)) j);
      try lia.
    rewrite Hf. reflexivity.
  - rewrite !index_Read_past; [reflexivity| |]; rewrite ?Hs; exact Hout.
Qed.

Lemma entry_at_skipn m K :
  0 <= K -> entry_at m K = entry_at (skipn (Z.to_nat (K * entWidth)) m) 0.
Proof.
  intros HK. unfold entry_at. cbn [Z.mul Z.to_nat skipn Z.add].
  rewrite skipn_skipn. do 2 f_equal.
  unfold entWidth, offWidth, posWidth. f_equal. lia.
Qed.

(** A [Write] that succeeded on an index the package produced. *)
Lemma index_Write_Ok_inv off pos i i' :
  index_reached i -> index_Write off pos i = (Ok tt, i') ->
  i_size i + entWidth <= len (i_mmap i)
  /\ i' = mkIndex (firstn (Z.to_nat (i_size i)) (i_mmap i) ++ entry_bytes (off, pos)
                   ++ skipn (Z.to_nat (i_size i + entWidth)) (i_mmap i))
                  (i_size i + entWidth).
Proof.
  intros Hr E. destruct (index_reached_bounds Hr) as (Hs & Hm).
  assert (He : entWidth = 12) by reflexivity. unfold MaxInt64 in *.
  destruct (Z.lt_ge_cases (len (i_mmap i)) (i_size i + entWidth)) as [Hfull|Hroom].
  - rewrite index_Write_no_room in E by lia. discriminate.
  - split; [exact Hroom|].
    rewrite index_Write_room in E by lia. congruence.
Qed.

Lemma index_Write_Ok_facts off pos i i' K :
  index_reached i -> holds i K -> index_Write off pos i = (Ok tt, i') ->
  0 <= K
  /\ holds i' (K + 1)
  /\ firstn (Z.to_nat (i_size i)) (i_mmap i') = firstn (Z.to_nat (i_size i)) (i_mmap i)
  /\ entry_at (i_mmap i') K = (u32 off, u64 pos).
Proof.
  intros Hr (HK & Hle) E. destruct (index_reached_bounds Hr) as (Hs & Hm).
  destruct (@index_Write_Ok_inv _ _ _ _ Hr E) as (Hroom & ->).
  assert (He : entWidth = 12) by reflexivity.
  assert (HK0 : 0 <= K) by lia.
  assert (Hl : length (firstn (Z.to_nat (i_size i)) (i_mmap i)) = Z.to_nat (i_size i)).
  { rewrite length_firstn. unfold len in *. lia. }
  cbn [i_mmap i_size].
  remember (firstn (Z.to_nat (i_size i)) (i_mmap i)) as pre eqn:Hpre.
  split; [exact HK0|]. split; [|split].
  - unfold holds. cbn [i_mmap i_size]. split; [lia|].
    unfold len in *. rewrite !length_app, Hl, length_skipn.
    change (length (entry_bytes (off, pos))) with 12%nat. lia.
  - rewrite <- Hl. apply firstn_len_app.
  - rewrite entry_at_skipn by exact HK0. rewrite <- HK, <- Hl, skipn_len_app.
    apply entry_at_here.
Qed.

(** X12: an index entry that was never written is not found: with [K]
    entries in use, [Read(in)] for [in] other than [-1] whose [uint32]
    value is [K] or more returns [io.EOF]. *)
Theorem index_Read_unwritten (i : index) (K in_ : Z) :
  i_size i = K * entWidth -> in_ <> -1 -> K <= in_ mod 2 ^ 32 ->
  index_Read in_ i = Err io_EOF.
Proof.
  intros HK Hin Hge. apply index_Read_past.
  destruct (Z.eqb_spec in_ (-1)) as [|_]; [contradiction|].
  unfold u32, entWidth, offWidth, posWidth in *. lia.
Qed.

(** X13: on an index of [K] entries, fewer than [2^32], that [newIndex] and
    [Write] produced, a successful [Write(off, pos)] makes the index hold
    [K + 1] entries, and both [Read(-1)] and [Read(K)] return the pair
    written. *)
Theorem index_Write_Read (off pos : Z) (i i' : index) (K : Z) :
  index_reached i -> holds i K -> K < 2 ^ 32 ->
  0 <= off < 2 ^ 32 -> 0 <= pos < 2 ^ 64 ->
  index_Write off pos i = (Ok tt, i') ->
  holds i' (K + 1)
  /\ index_Read (-1) i' = Ok (off, pos)
  /\ index_Read K i' = Ok (off, pos).
Proof.
  intros Hr Hh HK Hoff Hpos E.
  destruct (@index_Write_Ok_facts _ _ _ _ _ Hr Hh E) as (HK0 & Hh' & _ & He).
  split; [exact Hh'|].
  rewrite (u32_small Hoff), (u64_small Hpos) in He.
  pose proof (holds_quot Hh') as Hq. destruct Hh' as (Hs' & Hm').
  assert (Hw : entWidth = 12) by reflexivity.
  split.
  - rewrite (@index_Read_at i' (-1) K); [congruence|lia|exact Hm'| |lia].
    cbn [Z.eqb]. rewrite Hq. replace (K + 1 - 1) with K by lia.
    rewrite u32_u64, u32_small by lia. reflexivity.
  - rewrite (@index_Read_at i' K K); [congruence|lia|exact Hm'| |lia].
    destruct (Z.eqb_spec K (-1)) as [|_]; [lia|].
    rewrite u32_small by lia. reflexivity.
Qed.

(** X14: a successful [Write] changes no other entry: with [K] entries
    before it, [Read(in)] for [in] other than [-1] and other than the new
    entry [K] returns after the [Write] what it returned before. *)
Theorem index_Write_keeps_entries (off pos : Z) (i i' : index) (K in_ : Z) :
  index_reached i -> holds i K ->
  index_Write off pos i = (Ok tt, i') ->
  in_ <> -1 -> in_ mod 2 ^ 32 <> K ->
  index_Read in_ i' = index_Read in_ i.
Proof.
  intros Hr Hh E Hin Hne.
  destruct (@index_Write_Ok_facts _ _ _ _ _ Hr Hh E) as (HK0 & Hh' & Hf & _).
  destruct Hh as (Hs & Hm). destruct Hh' as (Hs' & Hm').
  assert (Hw : entWidth = 12) by reflexivity.
  pose proof (u32_range in_) as Hj. unfold u32 in Hj.
  destruct (Z.lt_ge_cases (in_ mod 2 ^ 32) K) as [Hlt|Hge].
  - rewrite (@index_Read_at i' in_ (in_ mod 2 ^ 32)),
            (@index_Read_at i in_ (in_ mod 2 ^ 32));
      try lia;
      try (destruct (Z.eqb_spec in_ (-1)) as [|_]; [contradiction | reflexivity]).
    f_equal.
    rewrite <- (@entry_at_firstn (i_mmap i') (Z.to_nat (i_size i)) (in_ mod 2 ^ 32)),
            <- (@entry_at_firstn (i_mmap i) (Z.to_nat (i_size i)) (in_ mod 2 ^ 32));
      try lia.
    rewrite Hf. reflexivity.
  - rewrite !index_Read_past; [reflexivity| |];
      (destruct (Z.eqb_spec in_ (-1)) as [|_]; [contradiction|]); unfold u32; lia.
Qed.

Lemma index_rep_room es i : index_rep es i -> len es * entWidth <= len (i_mmap i).
Proof.
  intros ((tail & Hm) & _ & _). rewrite Hm, len_app, len_index_bytes.
  pose proof (len_nonneg tail). lia.
Qed.

Lemma index_rep_fresh c i :
  newIndex [] c = Ok i ->
  index_rep [] i /\ len (i_mmap i) = i64 (MaxIndexBytes c).
Proof.
  unfold newIndex. intros E.
  destruct (os_Truncate (i64 (MaxIndexBytes c)) []) as [mapped|e] eqn:Et; [|discriminate].
  injection E as <-. destruct (len_os_Truncate _ _ Et) as [_ Hl].
  unfold index_rep. cbn [i_mmap i_size]. split; [|exact Hl].
  split; [exists mapped; reflexivity|]. split; [reflexivity|].
  rewrite Hl. apply i64_le_max.
Qed.

Lemma index_Write_entry_rep es e i :
  index_rep es i ->
  (i_size i + entWidth <= len (i_mmap i) ->
   exists i', index_Write_entry e i = (Ok tt, i')
              /\ index_rep (es ++ [e]) i' /\ len (i_mmap i') = len (i_mmap i))
  /\ (len (i_mmap i) < i_size i + entWidth -> index_Write_entry e i = (Err io_EOF, i)).
Proof.
  intros ((tail & Hm) & Hs & Hmax). destruct e as [o p].
  pose proof (len_nonneg es) as Hes. assert (Hw : entWidth = 12) by reflexivity.
  assert (Hsz : 0 <= i_size i <= len (i_mmap i)).
  { rewrite Hs, Hm, len_app, len_index_bytes.
    pose proof (len_nonneg tail). lia. }
  unfold index_Write_entry, MaxInt64 in *. cbn [fst snd]. split.
  - intros Hroom. rewrite index_Write_room by lia.
    eexists. split; [reflexivity|]. unfold index_rep. cbn [i_mmap i_size].
    assert (Hl : Z.to_nat (i_size i) = length (index_bytes es)).
    { rewrite Hs, <- len_index_bytes. apply to_nat_len. }
    assert (Ht : 12 <= len tail).
    { rewrite Hm, len_app, len_index_bytes in Hroom. lia. }
    assert (Hlen : len (firstn (Z.to_nat (i_size i)) (i_mmap i) ++ entry_bytes (o, p)
                        ++ skipn (Z.to_nat (i_size i + entWidth)) (i_mmap i))
                   = len (i_mmap i)).
    { unfold len in *. rewrite !length_app, length_firstn, length_skipn.
      change (length (entry_bytes (o, p))) with 12%nat. lia. }
    split; [split; [|split]|].
    + exists (skipn 12 tail). rewrite index_bytes_app. cbn [index_bytes flat_map].
      rewrite app_nil_r, <- app_assoc. rewrite Hm at 1. rewrite Hl, firstn_len_app.
      do 2 f_equal. rewrite Hm.
      replace (Z.to_nat (i_size i + entWidth)) with (length (index_bytes es) + 12)%nat
        by lia.
      apply skipn_len_add_app.
    + rewrite len_app. change (len [(o, p)]) with 1. rewrite Hs. ring.
    + rewrite Hlen. exact Hmax.
    + exact Hlen.
  - intros Hfull. apply index_Write_no_room; lia.
Qed.

Lemma index_Write_all_rep es : forall es0 i,
  index_rep es0 i ->
  ((len es0 + len es) * entWidth <= len (i_mmap i) ->
   exists i', mapM index_Write_entry es i = (Ok (map (fun _ => tt) es), i')
              /\ index_rep (es0 ++ es) i' /\ len (i_mmap i') = len (i_mmap i))
  /\ (len (i_mmap i) < (len es0 + len es) * entWidth ->
      fst (mapM index_Write_entry es i) = Err io_EOF).
Proof.
  induction es as [|e es IH]; intros es0 i Hrep.
  - change (len (@nil (Z * Z))) with 0. rewrite Z.add_0_r, app_nil_r. split.
    + intros _. exists i. auto.
    + intros H. pose proof (index_rep_room Hrep). lia.
  - pose proof (len_nonneg es) as Hes. assert (Hw : entWidth = 12) by reflexivity.
    rewrite len_cons. rewrite mapM_cons.
    destruct (index_Write_entry_rep e Hrep) as (Hok & Hfull).
    destruct Hrep as (Hm & Hs & Hmax).
    destruct (Z.lt_ge_cases (len (i_mmap i)) (i_size i + entWidth)) as [Hf|Hr].
    + rewrite (Hfull Hf). split; [intros; lia | reflexivity].
    + destruct (Hok Hr) as (i1 & E1 & Hrep1 & Hl1). rewrite E1.
      destruct (IH (es0 ++ [e]) i1 Hrep1) as (IHok & IHfull).
      rewrite len_app in IHok, IHfull. change (len [e]) with 1 in IHok, IHfull.
      rewrite Hl1 in IHok, IHfull. split.
      * intros Hroom. destruct IHok as (i' & E' & Hrep' & Hl'); [lia|].
        rewrite E'. exists i'. rewrite <- app_assoc in Hrep'. auto.
      * intros Hover. specialize (IHfull ltac:(lia)).
        destruct (mapM index_Write_entry es i1) as [[us|e'] i2]; cbn [fst] in *;
          [discriminate | exact IHfull].
Qed.

Lemma index_rep_Read es i (k : nat) d :
  index_rep es i -> (k < length es)%nat -> len es <= 2 ^ 32 ->
  index_Read (Z.of_nat k) i = Ok (u32 (fst (nth k es d)), u64 (snd (nth k es d))).
Proof.
  intros Hrep Hk Hn. pose proof (index_rep_room Hrep) as Hroom.
  destruct Hrep as ((tail & Hm) & Hs & Hmax).
  assert (Hw : entWidth = 12) by reflexivity. unfold len in Hn.
  rewrite (@index_Read_at i (Z.of_nat k) (Z.of_nat k)).
  - rewrite Hm. f_equal. apply entry_at_index_bytes. exact Hk.
  - unfold len in *. lia.
  - lia.
  - destruct (Z.eqb_spec (Z.of_nat k) (-1)) as [|_]; [lia|].
    symmetry. apply u32_small. lia.
  - unfold len in *. lia.
Qed.

(** X15: the entries written to a new index are read back by number: after
    [N] successful [Write]s on an index [newIndex] opened over an empty
    file, with [N] at most [2^32], [Read(k)] returns the [k]-th pair
    written, for every [k] below [N]. *)
Theorem index_roundtrip (c : Config) (es : list (Z * Z)) (i0 i1 : index)
    (us : list unit) (d : Z * Z) :
  newIndex [] c = Ok i0 ->
  mapM index_Write_entry es i0 = (Ok us, i1) ->
  len es <= 2 ^ 32 ->
  Forall (fun e => 0 <= fst e < 2 ^ 32 /\ 0 <= snd e < 2 ^ 64) es ->
  holds i1 (len es)
  /\ forall k, (k < length es)%nat -> index_Read (Z.of_nat k) i1 = Ok (nth k es d).
Proof.
  intros E0 E1 Hn Hall. destruct (index_rep_fresh _ E0) as (Hrep0 & Hl0).
  destruct (@index_Write_all_rep es [] i0 Hrep0) as (Hok & Hfull).
  change (len (@nil (Z * Z))) with 0 in Hok, Hfull. rewrite Z.add_0_l in Hok, Hfull.
  destruct (Z.lt_ge_cases (len (i_mmap i0)) (len es * entWidth)) as [Hf|Hr].
  { rewrite E1 in Hfull. specialize (Hfull Hf). discriminate. }
  destruct (Hok Hr) as (i' & E' & Hrep & _). rewrite E1 in E'.
  apply pair_equal_spec in E'. destruct E' as [_ <-]. cbn [app] in Hrep.
  split.
  - pose proof (index_rep_room Hrep). destruct Hrep as (_ & Hs & _).
    unfold holds. lia.
  - intros k Hk. rewrite (index_rep_Read d Hrep Hk Hn).
    rewrite Forall_forall in Hall.
    destruct (Hall (nth k es d) (nth_In es d Hk)) as (Ho & Hp).
    rewrite (u32_small Ho), (u64_small Hp). destruct (nth k es d). reflexivity.
Qed.

(** X16: a new index over an empty file has room for [MaxIndexBytes / 12]
    entries and no more: a run of [Write]s succeeds when its entries fit in
    [MaxIndexBytes], and otherwise fails with [io.EOF]. *)
Theorem index_capacity (c : Config) (es : list (Z * Z)) (i0 : index) :
  newIndex [] c = Ok i0 ->
  (len es * entWidth <= i64 (MaxIndexBytes c) ->
     exists us i1, mapM index_Write_entry es i0 = (Ok us, i1)
                   /\ i_size i1 = len es * entWidth)
  /\ (i64 (MaxIndexBytes c) < len es * entWidth ->
      fst (mapM index_Write_entry es i0) = Err io_EOF).
Proof.
  intros E0. destruct (index_rep_fresh _ E0) as (Hrep0 & Hl0).
  destruct (@index_Write_all_rep es [] i0 Hrep0) as (Hok & Hfull).
  change (len (@nil (Z * Z))) with 0 in Hok, Hfull. rewrite Z.add_0_l in Hok, Hfull.
  rewrite Hl0 in Hok, Hfull. split.
  - intros Hroom. destruct (Hok Hroom) as (i1 & E1 & Hrep & _).
    exists (map (fun _ => tt) es), i1. split; [exact E1|].
    destruct Hrep as (_ & Hs & _). exact Hs.
  - exact Hfull.
Qed.

Lemma os_Truncate_cut size data :
  0 <= size <= len data -> os_Truncate size data = Ok (firstn (Z.to_nat size) data).
Proof.
  intros H. unfold os_Truncate.
  destruct (Z.ltb_spec size 0); [lia|].
  replace (Z.to_nat size - length data)%nat with O by (unfold len in H; lia).
  cbn [repeat]. rewrite app_nil_r. reflexivity.
Qed.

(** X17: closing an index and opening it again loses nothing: [Close] cuts
    the file to the [K] entries in use, and an index opened over that file
    with room for them holds [K] entries and answers every [Read] as the
    closed index did. *)
Theorem index_Close_reopen (i i' : index) (K : Z) (f : list byte) (c : Config) :
  index_reached i -> holds i K ->
  index_Close i = Ok f ->
  K * entWidth <= i64 (MaxIndexBytes c) ->
  newIndex f c = Ok i' ->
  len f = K * entWidth
  /\ holds i' K
  /\ forall in_, index_Read in_ i' = index_Read in_ i.
Proof.
  intros Hr (HK & Hle) EC Hroom EN.
  destruct (index_reached_bounds Hr) as (Hs & Hm).
  unfold index_Close in EC. rewrite i64_small in EC by (unfold MaxInt64 in Hs; lia).
  rewrite os_Truncate_cut in EC by lia. injection EC as <-.
  assert (Hlf : len (firstn (Z.to_nat (i_size i)) (i_mmap i)) = i_size i)
    by (apply len_firstn_le; lia).
  unfold newIndex in EN. rewrite Hlf in EN.
  destruct (os_Truncate (i64 (MaxIndexBytes c)) (firstn (Z.to_nat (i_size i)) (i_mmap i)))
    as [mapped|e] eqn:Et; [|discriminate].
  injection EN as <-.
  destruct (len_os_Truncate _ _ Et) as [_ Hl].
  assert (Hu : u64 (i_size i) = i_size i) by (apply u64_small; unfold MaxInt64 in Hs; lia).
  split; [lia|]. split.
  - unfold holds. cbn [i_size i_mmap]. rewrite Hu, Hl. lia.
  - intros in_. apply index_Read_ext; cbn [i_size i_mmap].
    + exact Hu.
    + lia.
    + lia.
    + rewrite (@firstn_os_Truncate _ _ _ (Z.to_nat (i_size i)) Et).
      * rewrite firstn_firstn, Nat.min_id. reflexivity.
      * lia.
      * unfold len in Hlf. lia.
Qed.

(** The index of two entries after [Write(2, 25)], and the entries a new
    index of 36 bytes is given. *)
Definition three_entries : index :=
  Eval vm_compute in snd (index_Write 2 25 two_entries).

Definition three_pairs : list (Z * Z) := [(0, 0); (1, 11); (2, 25)].

Definition three_written : index :=
  Eval vm_compute in snd (mapM index_Write_entry three_pairs (mkIndex (repeat Byte.x00 36) 0)).

Lemma index_Read_unwritten_witness :
  i_size two_entries = 2 * entWidth /\ 2 <> -1 /\ 2 <= 2 mod 2 ^ 32
  /\ index_Read 2 two_entries = Err io_EOF.
Proof.
  assert (H1 : i_size two_entries = 2 * entWidth) by reflexivity.
  assert (H2 : 2 <> -1) by lia.
  assert (H3 : 2 <= 2 mod 2 ^ 32) by (vm_compute; discriminate).
  repeat (split; [assumption|]).
  exact (@index_Read_unwritten two_entries 2 2 H1 H2 H3).
Defined.

Lemma index_Write_Read_witness :
  index_reached two_entries /\ holds two_entries 2 /\ 2 < 2 ^ 32
  /\ 0 <= 2 < 2 ^ 32 /\ 0 <= 25 < 2 ^ 64
  /\ index_Write 2 25 two_entries = (Ok tt, three_entries)
  /\ holds three_entries (2 + 1)
  /\ index_Read (-1) three_entries = Ok (2, 25)
  /\ index_Read 2 three_entries = Ok (2, 25).
Proof.
  assert (H1 : index_reached two_entries).
  { apply (@reached_newIndex two_entries_file small_config).
    - vm_compute. discriminate.
    - vm_compute. reflexivity. }
  assert (H2 : holds two_entries 2).
  { split; [reflexivity | vm_compute; discriminate]. }
  assert (H3 : 2 < 2 ^ 32) by lia.
  assert (H4 : 0 <= 2 < 2 ^ 32) by lia.
  assert (H5 : 0 <= 25 < 2 ^ 64) by lia.
  assert (H6 : index_Write 2 25 two_entries = (Ok tt, three_entries))
    by (vm_compute; reflexivity).
  repeat (split; [assumption|]).
  exact (@index_Write_Read 2 25 two_entries three_entries 2 H1 H2 H3 H4 H5 H6).
Defined.

Lemma index_Write_keeps_entries_witness :
  index_reached two_entries /\ holds two_entries 2
  /\ index_Write 2 25 two_entries = (Ok tt, three_entries)
  /\ 1 <> -1 /\ 1 mod 2 ^ 32 <> 2
  /\ index_Read 1 three_entries = index_Read 1 two_entries.
Proof.
  assert (H1 : index_reached two_entries).
  { apply (@reached_newIndex two_entries_file small_config).
    - vm_compute. discriminate.
    - vm_compute. reflexivity. }
  assert (H2 : holds two_entries 2).
  { split; [reflexivity | vm_compute; discriminate]. }
  assert (H3 : index_Write 2 25 two_entries = (Ok tt, three_entries))
    by (vm_compute; reflexivity).
  assert (H4 : 1 <> -1) by lia.
  assert (H5 : 1 mod 2 ^ 32 <> 2) by (vm_compute; discriminate).
  repeat (split; [assumption|]).
  exact (@index_Write_keeps_entries 2 25 two_entries three_entries 2 1 H1 H2 H3 H4 H5).
Defined.

Lemma index_roundtrip_witness :
  newIndex [] small_config = Ok (mkIndex (repeat Byte.x00 36) 0)
  /\ mapM index_Write_entry three_pairs (mkIndex (repeat Byte.x00 36) 0)
     = (Ok [tt; tt; tt], three_written)
  /\ len three_pairs <= 2 ^ 32
  /\ Forall (fun e => 0 <= fst e < 2 ^ 32 /\ 0 <= snd e < 2 ^ 64) three_pairs
  /\ holds three_written (len three_pairs)
  /\ forall k, (k < length three_pairs)%nat ->
       index_Read (Z.of_nat k) three_written = Ok (nth k three_pairs (0, 0)).
Proof.
  assert (H1 : newIndex [] small_config = Ok (mkIndex (repeat Byte.x00 36) 0))
    by (vm_compute; reflexivity).
  assert (H2 : mapM index_Write_entry three_pairs (mkIndex (repeat Byte.x00 36) 0)
               = (Ok [tt; tt; tt], three_written))
    by (vm_compute; reflexivity).
  assert (H3 : len three_pairs <= 2 ^ 32) by (vm_compute; discriminate).
  assert (H4 : Forall (fun e => 0 <= fst e < 2 ^ 32 /\ 0 <= snd e < 2 ^ 64) three_pairs).
  { repeat (constructor; [cbn [fst snd]; lia|]). constructor. }
  repeat (split; [assumption|]).
  exact (@index_roundtrip small_config three_pairs (mkIndex (repeat Byte.x00 36) 0)
           three_written [tt; tt; tt] (0, 0) H1 H2 H3 H4).
Defined.

Lemma index_capacity_witness :
  newIndex [] small_config = Ok (mkIndex (repeat Byte.x00 36) 0)
  /\ (exists us i1,
        mapM index_Write_entry three_pairs (mkIndex (repeat Byte.x00 36) 0) = (Ok us, i1)
        /\ i_size i1 = len three_pairs * entWidth)
  /\ fst (mapM index_Write_entry (three_pairs ++ [(3, 40)]) (mkIndex (repeat Byte.x00 36) 0))
     = Err io_EOF.
Proof.
  assert (H1 : newIndex [] small_config = Ok (mkIndex (repeat Byte.x00 36) 0))
    by (vm_compute; reflexivity).
  assert (H2 : len three_pairs * entWidth <= i64 (MaxIndexBytes small_config))
    by (vm_compute; discriminate).
  assert (H3 : i64 (MaxIndexBytes small_config) < len (three_pairs ++ [(3, 40)]) * entWidth)
    by (vm_compute; reflexivity).
  split; [assumption|]. split.
  - exact (proj1 (@index_capacity small_config three_pairs _ H1) H2).
  - exact (proj2 (@index_capacity small_config (three_pairs ++ [(3, 40)]) _ H1) H3).
Defined.

Lemma index_Close_reopen_witness :
  index_reached three_entries /\ holds three_entries 3
  /\ index_Close three_entries = Ok (index_bytes three_pairs)
  /\ 3 * entWidth <= i64 (MaxIndexBytes spec_config)
  /\ newIndex (index_bytes three_pairs) spec_config
     = Ok (mkIndex (index_bytes three_pairs ++ repeat Byte.x00 84) 36)
  /\ len (index_bytes three_pairs) = 3 * entWidth
  /\ holds (mkIndex (index_bytes three_pairs ++ repeat Byte.x00 84) 36) 3
  /\ forall in_, index_Read in_ (mkIndex (index_bytes three_pairs ++ repeat Byte.x00 84) 36)
                 = index_Read in_ three_entries.
Proof.
  assert (H1 : index_reached three_entries).
  { apply (@reached_Write 2 25 two_entries).
    apply (@reached_newIndex two_entries_file small_config).
    - vm_compute. discriminate.
    - vm_compute. reflexivity. }
  assert (H2 : holds three_entries 3).
  { split; [reflexivity | vm_compute; discriminate]. }
  assert (H3 : index_Close three_entries = Ok (index_bytes three_pairs))
    by (vm_compute; reflexivity).
  assert (H4 : 3 * entWidth <= i64 (MaxIndexBytes spec_config))
    by (vm_compute; discriminate).
  assert (H5 : newIndex (index_bytes three_pairs) spec_config
               = Ok (mkIndex (index_bytes three_pairs ++ repeat Byte.x00 84) 36))
    by (vm_compute; reflexivity).
  repeat (split; [assumption|]).
  exact (@index_Close_reopen three_entries
           (mkIndex (index_bytes three_pairs ++ repeat Byte.x00 84) 36) 3
           (index_bytes three_pairs) spec_config H1 H2 H3 H4 H5).
Defined.

(** ** More of the segment *)

Section SegmentMore.
Context {codec : Codec}.

(** The segment a run of appends to a fresh segment leaves. *)
Lemma segment_appended_rep limit base c rs s0 offs s1 :
  0 <= base < 2 ^ 64 ->
  newSegment (mkFile [] limit) [] base c = Ok s0 ->
  mapM segment_Append rs s0 = (Ok offs, s1) ->
  exists log,
    seg_rep log s1
    /\ length log = length rs
    /\ map (fun rp => Value (fst rp)) log = map Value rs
    /\ offs = map (fun k => u64 (base + Z.of_nat k)) (seq 0 (length rs))
    /\ baseOffset s1 = base
    /\ len (i_mmap (seg_index s1)) = i64 (MaxIndexBytes c).
Proof.
  intros Hb E0 E1.
  destruct (@seg_rep_fresh _ limit base c s0 Hb E0) as (Hrep0 & Hbase & _ & _ & Hl0).
  destruct (@segment_Append_all_rep _ rs [] s0 offs s1 Hrep0 E1)
    as (log & Hrep1 & Hv & Hoffs & Hb1 & _ & Hl1).
  cbn [app] in Hrep1. exists log. split; [exact Hrep1|].
  split.
  { apply (f_equal (@length _)) in Hv. rewrite !length_map in Hv. exact Hv. }
  split; [exact Hv|]. split.
  { rewrite Hoffs. apply map_ext. intros k. rewrite Hbase.
    change (len (@nil (Record_ * list byte))) with 0. f_equal. lia. }
  split; congruence.
Qed.

(** X18: a record that was not appended is not found: after [N] appends to
    a fresh segment, [Read] of the offset [base + k] for [k] from [N] up to
    [2^32 - 1], the next offset among them, returns [io.EOF] and leaves the
    segment as it was. *)
Theorem segment_Read_past_end (limit base : Z) (c : Config) (rs : list Record_)
    (s0 s1 : segment) (offs : list Z) (k : Z) :
  0 <= base < 2 ^ 64 ->
  newSegment (mkFile [] limit) [] base c = Ok s0 ->
  mapM segment_Append rs s0 = (Ok offs, s1) ->
  len rs <= k < 2 ^ 32 ->
  segment_Read (u64 (base + k)) s1 = (Err io_EOF, s1).
Proof.
  intros Hb E0 E1 Hk.
  destruct (@segment_appended_rep _ _ _ _ _ _ _ Hb E0 E1) as (log & Hrep & Hll & _ & _ & Hb1 & _).
  destruct Hrep as (_ & _ & _ & Hsz & _).
  pose proof (len_nonneg rs) as H0.
  rewrite segment_Read_unfold, Hb1, u64_add_sub.
  rewrite (u64_small (z := k)), (i64_small (z := k)) by lia.
  rewrite index_Read_past; [reflexivity|].
  destruct (Z.eqb_spec k (-1)) as [|_]; [lia|].
  rewrite (u32_small (z := k)) by lia.
  rewrite Hsz. unfold len in *. rewrite Hll.
  unfold entWidth, offWidth, posWidth. lia.
Qed.

(** X19: an [Append] that finds the index full fails with [io.EOF] after
    the store has taken the record: the next offset and the index are as
    before, and the store has grown by the record's frame, which no index
    entry points to. *)
Theorem segment_Append_index_full (limit base : Z) (c : Config) (rs : list Record_)
    (s0 s1 : segment) (offs : list Z) (r : Record_) (p : list byte) :
  0 <= base < 2 ^ 64 ->
  newSegment (mkFile [] limit) [] base c = Ok s0 ->
  mapM segment_Append rs s0 = (Ok offs, s1) ->
  i64 (MaxIndexBytes c) < (len rs + 1) * entWidth ->
  Marshal (mkRecord (Value r) (nextOffset s1)) = Ok p ->
  s_size (seg_store s1) + lenWidth + len p <= File_room (s_File (seg_store s1)) ->
  exists s2,
    segment_Append r s1 = (Err io_EOF, s2)
    /\ nextOffset s2 = nextOffset s1
    /\ seg_index s2 = seg_index s1
    /\ store_contents (seg_store s2) = store_contents (seg_store s1) ++ frame p
    /\ s_size (seg_store s2) = s_size (seg_store s1) + lenWidth + len p.
Proof.
  intros Hb E0 E1 Hfull Hp Hroom.
  destruct (@segment_appended_rep _ _ _ _ _ _ _ Hb E0 E1) as (log & Hrep & Hll & _ & _ & _ & Hl1).
  destruct Hrep as (Hst & _ & (tail & Hmap) & Hsz & Hml & _).
  assert (Hin : len log * entWidth <= len (i_mmap (seg_index s1))).
  { rewrite Hmap, len_app, len_index_bytes. unfold len.
    rewrite index_entries_length, length_map. lia. }
  destruct (store_Append_fits p Hst Hroom) as (st & EA).
  destruct (store_Append_Ok_inv p Hst EA) as (_ & _ & Hsz' & Hc' & _).
  pose proof (len_nonneg log) as H0.
  assert (Hw : entWidth = 12) by reflexivity.
  assert (Hlr : len log = len rs) by (unfold len; rewrite Hll; reflexivity).
  rewrite segment_Append_unfold, Hp, EA.
  rewrite index_Write_no_room
    by (rewrite ?Hsz, ?Hl1, ?Hlr; unfold MaxInt64 in *; rewrite ?Hw in *; lia).
  eexists. split; [reflexivity|].
  cbn [with_index with_store nextOffset seg_index seg_store].
  split; [reflexivity|]. split; [reflexivity|]. split; [exact Hc' | exact Hsz'].
Qed.

(** Closing a segment and opening it again gives a segment that holds the
    same log. *)
Lemma segment_reopen_rep log s c ixf sf :
  seg_rep log s -> store_fits s -> len log <= 2 ^ 32 ->
  len (i_mmap (seg_index s)) = i64 (MaxIndexBytes c) ->
  segment_CLose s = Ok (ixf, sf) ->
  exists s2,
    newSegment sf ixf (baseOffset s) c = Ok s2
    /\ seg_rep log s2 /\ store_fits s2
    /\ baseOffset s2 = baseOffset s /\ nextOffset s2 = nextOffset s.
Proof.
  intros (Hst & Hc & (tail & Hmap) & Hsz & Hml & Hb & Hn & Hall) Hfit HK Hmax E.
  set (es := index_entries (map snd log)) in *.
  assert (Hles : length es = length log).
  { subst es. rewrite index_entries_length, length_map. reflexivity. }
  assert (Hlen : len (index_bytes es) = i_size (seg_index s)).
  { rewrite len_index_bytes, Hsz. unfold len. rewrite Hles. reflexivity. }
  pose proof (len_nonneg log) as H0. pose proof (len_nonneg tail) as Ht.
  assert (Hw : entWidth = 12) by reflexivity.
  assert (Hin : i_size (seg_index s) <= len (i_mmap (seg_index s))).
  { rewrite Hmap, len_app, Hlen. lia. }
  (* what Close leaves on disk *)
  unfold segment_CLose, index_Close in E.
  rewrite i64_small in E by (unfold MaxInt64 in *; lia).
  rewrite os_Truncate_cut in E by lia.
  destruct (store_Flush_fits Hst Hfit) as (st & EF).
  unfold store_Close in E. rewrite EF in E.
  apply (f_equal (fun r => match r with Ok x => x | Err _ => (ixf, sf) end)) in E.
  apply pair_equal_spec in E. destruct E as [Eix Esf].
  assert (Hixf : ixf = index_bytes es).
  { rewrite <- Eix, Hmap, <- Hlen, to_nat_len. apply firstn_len_app. }
  destruct (store_Flush_inv _ EF) as (_ & _ & Hlim & _ & _ & Hd & _).
  rewrite Esf in Hlim, Hd.
  assert (Hroom : File_room sf = File_room (s_File (seg_store s))).
  { unfold File_room. rewrite Hlim. reflexivity. }
  unfold store_fits in Hfit.
  assert (Hdmax : len (f_data sf) <= MaxInt64).
  { rewrite Hd. unfold File_room in Hfit. lia. }
  (* the index opened over the cut file *)
  assert (Hix : newIndex ixf c
                = Ok (mkIndex (index_bytes es
                               ++ repeat Byte.x00 (Z.to_nat (i64 (MaxIndexBytes c))
                                                   - length (index_bytes es)))
                              (i_size (seg_index s)))).
  { unfold newIndex, os_Truncate. rewrite Hixf, Hlen.
    destruct (Z.ltb_spec (i64 (MaxIndexBytes c)) 0); [lia|].
    rewrite u64_small by (unfold MaxInt64 in *; lia).
    rewrite firstn_all2 by (unfold len in *; lia). reflexivity. }
  set (ix := mkIndex _ (i_size (seg_index s))) in Hix.
  assert (Hlix : len (i_mmap ix) = i64 (MaxIndexBytes c)).
  { subst ix. cbn [i_mmap]. rewrite len_app, len_repeat. unfold len in *. lia. }
  assert (Hrd : match index_Read (-1) ix with
                | Err go_panic => False
                | Err _ => len log = 0
                | Ok (off, _) => 1 <= len log /\ off = len log - 1
                end).
  { destruct (Z.eq_dec (len log) 0) as [Hz|Hnz].
    - rewrite index_Read_size0 by (subst ix; cbn [i_size]; lia). exact Hz.
    - assert (He : fst (entry_at (i_mmap ix) (len log - 1)) = len log - 1).
      { subst ix. cbn [i_mmap].
        replace (len log - 1) with (Z.of_nat (length log - 1))
          by (unfold len in *; lia).
        rewrite (entry_at_index_bytes _ _ (0, 0)) by (unfold len in *; lia).
        subst es. rewrite index_entries_nth by (rewrite length_map; unfold len in *; lia).
        cbn [fst].
        do 2 rewrite (u32_small (z := Z.of_nat (length log - 1)))
          by (unfold len in *; lia).
        reflexivity. }
      rewrite (@index_Read_at ix (-1) (len log - 1)).
      + destruct (entry_at (i_mmap ix) (len log - 1)) as [off pos].
        cbn [fst] in He. split; [lia | exact He].
      + subst ix. cbn [i_size]. lia.
      + subst ix. cbn [i_size i_mmap]. cbn [i_mmap] in Hlix. rewrite Hlix. lia.
      + subst ix. cbn [i_size Z.eqb]. rewrite Hsz, Z.div_mul by discriminate.
        rewrite u32_u64, u32_small by lia. reflexivity.
      + subst ix. cbn [i_size]. lia. }
  assert (Hnew : store_ok (newStore sf)) by (apply newStore_ok; exact Hdmax).
  assert (Hnc : store_contents (newStore sf) = log_bytes (map snd log)).
  { unfold store_contents, newStore. cbn [s_File s_buf NewWriter w_buf].
    rewrite app_nil_r, Hd. exact Hc. }
  assert (Hrep : forall n, n = nextOffset s ->
            seg_rep log (mkSegment (newStore sf) ix (baseOffset s) n c)).
  { intros n ->. unfold seg_rep.
    cbn [seg_store seg_index baseOffset nextOffset config].
    split; [exact Hnew|]. split; [exact Hnc|]. split.
    { subst ix. cbn [i_mmap]. eexists. reflexivity. }
    split; [subst ix; exact Hsz|]. split.
    { rewrite Hlix. apply i64_le_max. }
    split; [exact Hb|]. split; [exact Hn | exact Hall]. }
  assert (Hfit2 : forall n, store_fits (mkSegment (newStore sf) ix (baseOffset s) n c)).
  { intros n. unfold store_fits. cbn [seg_store]. rewrite Hnc, <- Hc.
    unfold newStore. cbn [s_File]. rewrite Hroom. exact Hfit. }
  unfold newSegment. rewrite Hix.
  destruct (index_Read (-1) ix) as [[off pos]|e].
  - destruct Hrd as (H1 & ->).
    assert (Hnx : u64 (baseOffset s + u64 (len log - 1) + 1) = nextOffset s).
    { rewrite Hn, (u64_small (z := len log - 1)) by lia. f_equal. lia. }
    eexists. split; [reflexivity|].
    split; [apply Hrep; exact Hnx|]. split; [apply Hfit2|].
    split; [reflexivity | exact Hnx].
  - assert (Hnx : baseOffset s = nextOffset s).
    { destruct e; try contradiction; rewrite Hn, Hrd, Z.add_0_r;
        symmetry; apply u64_small; exact Hb. }
    destruct e; try contradiction;
      (eexists; split; [reflexivity|];
       split; [apply Hrep; exact Hnx|]; split; [apply Hfit2|];
       split; [reflexivity | exact Hnx]).
Qed.

(** X20: closing and reopening a segment keeps its records and its next
    offset: after at most [2^32] appends to a fresh segment, [CLose], and
    [newSegment] over the two files it left with the same base offset and
    configuration, the next offset is the one the closed segment had, and
    reading the offsets the appends returned gives the payloads appended,
    in order. *)
Theorem segment_reopen (limit base : Z) (c : Config) (rs : list Record_)
    (s0 s1 : segment) (offs : list Z) (ixf : list byte) (sf : File) :
  0 <= base < 2 ^ 64 ->
  newSegment (mkFile [] limit) [] base c = Ok s0 ->
  mapM segment_Append rs s0 = (Ok offs, s1) ->
  store_fits s1 ->
  len rs <= 2 ^ 32 ->
  segment_CLose s1 = Ok (ixf, sf) ->
  exists s2,
    newSegment sf ixf base c = Ok s2
    /\ nextOffset s2 = nextOffset s1
    /\ exists rs' s3,
         mapM segment_Read offs s2 = (Ok rs', s3)
         /\ map Value rs' = map Value rs.
Proof.
  intros Hb E0 E1 Hfit Hlen EC.
  destruct (@segment_appended_rep _ _ _ _ _ _ _ Hb E0 E1)
    as (log & Hrep & Hll & Hv & Ho & Hb1 & Hl1).
  assert (Hlog : len log <= 2 ^ 32) by (unfold len in *; rewrite Hll; exact Hlen).
  destruct (@segment_reopen_rep log s1 c ixf sf Hrep Hfit Hlog Hl1 EC)
    as (s2 & EN & Hrep2 & Hfit2 & Hb2 & Hn2).
  rewrite Hb1 in EN. exists s2. split; [exact EN|]. split; [exact Hn2|].
  destruct (@segment_Read_all _ log (mkRecord [] 0, []) (seq 0 (length rs)) s2 Hrep2 Hfit2)
    as (s3 & E2 & _).
  { lia. }
  { apply Forall_forall. intros k Hk. apply in_seq in Hk. lia. }
  rewrite Hb2, Hb1, <- Ho in E2.
  eexists _, s3. split; [exact E2|].
  rewrite <- Hv, map_map, <- Hll.
  rewrite <- (map_nth_seq (fun rp => Value (fst rp)) log (mkRecord [] 0, [])).
  apply map_ext_in. intros k Hk. apply in_seq in Hk.
  rewrite u32_small, Nat2Z.id by (unfold len in Hlog; lia). reflexivity.
Qed.

End SegmentMore.

Section SegmentReached.
Context {codec : Codec}.

Lemma segment_reached_parts s :
  segment_reached s -> store_reached (seg_store s) /\ index_reached (seg_index s).
Proof.
  induction 1 as [sf ixf base c s Hsf Hixf E|r s _ [Hst Hix]|off s _ [Hst Hix]].
  - unfold newSegment in E.
    destruct (newIndex ixf c) as [ix|e] eqn:EI; [|discriminate].
    assert (Hs : seg_store s = newStore sf /\ seg_index s = ix).
    { destruct (index_Read (-1) ix) as [[o p]|[]]; try discriminate;
        injection E as <-; auto. }
    destruct Hs as [-> ->]. split.
    + apply reached_newStore. exact Hsf.
    + exact (reached_newIndex ixf c Hixf EI).
  - rewrite segment_Append_unfold.
    destruct (Marshal (mkRecord (Value r) (nextOffset s))) as [p|e]; [|auto].
    pose proof (reached_Append p Hst) as Hst'.
    destruct (store_Append p (seg_store s)) as [[[n pos]|e] st]; cbn [snd] in *; [|auto].
    pose proof (reached_Write (u32 (u64 (nextOffset s - u64 (baseOffset s)))) pos Hix)
      as Hix'.
    destruct (index_Write _ pos (seg_index s)) as [[u|e] ix]; cbn [snd] in *; auto.
  - rewrite segment_Read_unfold.
    destruct (index_Read _ (seg_index s)) as [[o pos]|e]; [|auto].
    pose proof (reached_Read pos Hst) as Hst'.
    destruct (store_Read pos (seg_store s)) as [[p|e] st]; cbn [snd] in *; auto.
Qed.

Lemma store_Append_size_le p s :
  store_reached s -> s_size s <= s_size (snd (store_Append p s)).
Proof.
  intros Hr. destruct (store_Append p s) as [[[n pos]|e] s'] eqn:E; cbn [snd].
  - pose proof (store_reached_Append_ok _ Hr E) as Hok.
    destruct (store_Append_Ok_inv p Hok E) as (_ & _ & Hsz & _).
    pose proof (len_nonneg p). unfold lenWidth in Hsz. lia.
  - destruct (store_Append_Err_inv _ _ E) as (Hsz & _). lia.
Qed.

Lemma index_Write_size_le off pos i :
  index_reached i -> i_size i <= i_size (snd (index_Write off pos i)).
Proof.
  intros Hr. destruct (index_reached_bounds Hr) as (Hs & Hm).
  assert (He : entWidth = 12) by reflexivity. unfold MaxInt64 in *.
  destruct (Z.lt_ge_cases (len (i_mmap i)) (i_size i + entWidth)) as [Hfull|Hroom].
  - rewrite index_Write_no_room by lia. cbn [snd]. lia.
  - rewrite index_Write_room by lia. cbn [snd i_size]. lia.
Qed.

Lemma segment_Append_grows r s :
  segment_reached s ->
  config (snd (segment_Append r s)) = config s
  /\ s_size (seg_store s) <= s_size (seg_store (snd (segment_Append r s)))
  /\ i_size (seg_index s) <= i_size (seg_index (snd (segment_Append r s))).
Proof.
  intros Hr. destruct (segment_reached_parts Hr) as (Hst & Hix).
  rewrite segment_Append_unfold.
  destruct (Marshal (mkRecord (Value r) (nextOffset s))) as [p|e];
    [|cbn [snd]; repeat split; lia].
  pose proof (store_Append_size_le p Hst) as Hs.
  destruct (store_Append p (seg_store s)) as [[[n pos]|e] st]; cbn [snd] in *;
    [|cbn [with_store config seg_store seg_index]; repeat split; [exact Hs | lia]].
  pose proof (index_Write_size_le (u32 (u64 (nextOffset s - u64 (baseOffset s)))) pos Hix)
    as Hi.
  destruct (index_Write _ pos (seg_index s)) as [[u|e] ix]; cbn [snd] in *;
    cbn [with_nextOffset with_index with_store config seg_store seg_index];
    repeat split; assumption.
Qed.

Lemma segment_Read_sizes off s :
  config (snd (segment_Read off s)) = config s
  /\ s_size (seg_store (snd (segment_Read off s))) = s_size (seg_store s)
  /\ seg_index (snd (segment_Read off s)) = seg_index s.
Proof.
  rewrite segment_Read_unfold.
  destruct (index_Read _ (seg_index s)) as [[o pos]|e]; [|auto].
  pose proof (store_Read_state pos (seg_store s)) as Hst.
  destruct (store_io Flush (seg_store s)) as [r0 s1] eqn:EF.
  destruct (store_Flush_inv _ EF) as (Hsz & _).
  destruct (store_Read pos (seg_store s)) as [[p|e] st]; cbn [snd] in *; subst st;
    cbn [with_store config seg_store seg_index]; auto.
Qed.

Lemma segment_IsMaxed_mono s s' :
  config s' = config s ->
  s_size (seg_store s) <= s_size (seg_store s') ->
  i_size (seg_index s) <= i_size (seg_index s') ->
  segment_IsMaxed s = true -> segment_IsMaxed s' = true.
Proof.
  unfold segment_IsMaxed. intros -> Hs Hi H.
  apply orb_true_iff in H. apply orb_true_iff.
  rewrite !Z.geb_le in *. lia.
Qed.

(** X21: a segment that is maxed stays maxed: on a segment [newSegment],
    [Append] and [Read] produced, neither an [Append] nor a [Read], failed
    or not, makes [IsMaxed] go from true to false; the sizes it compares
    never shrink and the configuration does not change. *)
Theorem segment_IsMaxed_stays (r : Record_) (off : Z) (s : segment) :
  segment_reached s -> segment_IsMaxed s = true ->
  segment_IsMaxed (snd (segment_Append r s)) = true
  /\ segment_IsMaxed (snd (segment_Read off s)) = true.
Proof.
  intros Hr Hm. split.
  - destruct (segment_Append_grows r Hr) as (Hc & Hs & Hi).
    exact (@segment_IsMaxed_mono _ _ Hc Hs Hi Hm).
  - destruct (segment_Read_sizes off s) as (Hc & Hs & Hi).
    apply (@segment_IsMaxed_mono s); [exact Hc | lia | rewrite Hi; lia | exact Hm].
Qed.

End SegmentReached.

(** X22: opening a segment whose index file is longer than the configured
    [MaxIndexBytes] panics: [newIndex] keeps the file's old length as
    [size] while the file is cut to [MaxIndexBytes] and mapped, and
    [Read(-1)] then slices the mapping beyond its end.  The index file
    holds [K] whole entries, from 1 to [2^32]. *)
Theorem newSegment_shrunk_index (sf : File) (ixf : list byte) (base : Z) (c : Config)
    (K : Z) :
  len ixf = K * entWidth -> 1 <= K <= 2 ^ 32 ->
  0 < i64 (MaxIndexBytes c) < len ixf ->
  newSegment sf ixf base c = Err go_panic.
Proof.
  intros HK Hr Hmax. assert (Hw : entWidth = 12) by reflexivity.
  unfold newSegment, newIndex.
  destruct (os_Truncate (i64 (MaxIndexBytes c)) ixf) as [mapped|e] eqn:Et.
  2:{ unfold os_Truncate in Et. destruct (Z.ltb_spec (i64 (MaxIndexBytes c)) 0);
        [lia | discriminate]. }
  destruct (len_os_Truncate _ _ Et) as [_ Hl].
  rewrite (u64_small (z := len ixf)) by lia.
  assert (Hp : index_Read (-1) (mkIndex mapped (len ixf)) = Err go_panic).
  { unfold index_Read. cbn [i_size i_mmap]. change (-1 =? -1) with true. cbv iota.
    destruct (Z.eqb_spec (len ixf) 0) as [|_]; [lia|].
    rewrite HK, Z.div_mul by discriminate.
    rewrite u32_u64, (u32_small (z := K - 1)) by lia.
    unfold entWidth, offWidth, posWidth in *. change (4 + 8) with 12 in *.
    rewrite (u64_small (z := (K - 1) * 12)) by lia.
    rewrite !u64_small by lia.
    destruct (Z.ltb_spec (K * 12) ((K - 1) * 12 + 12)); [lia|].
    destruct (slice mapped ((K - 1) * 12) ((K - 1) * 12 + 4)) as [o|]; [|reflexivity].
    destruct (slice mapped ((K - 1) * 12 + 4) ((K - 1) * 12 + 12)) as [p|] eqn:E2;
      [|reflexivity].
    apply slice_Some_inv in E2. lia. }
  rewrite Hp. reflexivity.
Qed.

(** The scenario's records appended to a segment whose index has room for
    three entries, the wire bytes of a fourth record, a configuration with
    a store ceiling of 10 bytes and the segment after one append under it,
    and a configuration whose index ceiling is two entries. *)
Definition small_fresh : segment :=
  mkSegment (newStore spec_file) (mkIndex (repeat Byte.x00 36) 0) 0 0 small_config.

Definition small_full : segment :=
  Eval vm_compute in snd (mapM segment_Append abc small_fresh).

Definition fourth_bytes : list byte :=
  Eval vm_compute in Wire.encode (mkRecord [Byte.x61] 3).

Definition low_config : Config := mkConfig 10 120 0.

Definition low_fresh : segment :=
  mkSegment (newStore spec_file) (mkIndex (repeat Byte.x00 120) 0) 0 0 low_config.

Definition low_maxed : segment :=
  Eval vm_compute in snd (segment_Append rec_a low_fresh).

Definition shrunk_config : Config := mkConfig 1024 24 0.

Lemma segment_Read_past_end_witness :
  0 <= 0 < 2 ^ 64
  /\ newSegment spec_file [] 0 spec_config = Ok abc_fresh
  /\ mapM segment_Append abc abc_fresh = (Ok [0; 1; 2], abc_appended)
  /\ len abc <= 3 < 2 ^ 32
  /\ segment_Read (u64 (0 + 3)) abc_appended = (Err io_EOF, abc_appended).
Proof.
  assert (H1 : 0 <= 0 < 2 ^ 64) by lia.
  assert (H2 : newSegment spec_file [] 0 spec_config = Ok abc_fresh) by reflexivity.
  assert (H3 : mapM segment_Append abc abc_fresh = (Ok [0; 1; 2], abc_appended))
    by (vm_compute; reflexivity).
  assert (H4 : len abc <= 3 < 2 ^ 32) by (vm_compute; split; [discriminate|reflexivity]).
  repeat (split; [assumption|]).
  exact (@segment_Read_past_end wire_codec 65536 0 spec_config abc abc_fresh abc_appended
           [0; 1; 2] 3 H1 H2 H3 H4).
Defined.

Lemma segment_Append_index_full_witness :
  0 <= 0 < 2 ^ 64
  /\ newSegment spec_file [] 0 small_config = Ok small_fresh
  /\ mapM segment_Append abc small_fresh = (Ok [0; 1; 2], small_full)
  /\ i64 (MaxIndexBytes small_config) < (len abc + 1) * entWidth
  /\ Marshal (mkRecord (Value rec_a) (nextOffset small_full)) = Ok fourth_bytes
  /\ s_size (seg_store small_full) + lenWidth + len fourth_bytes
     <= File_room (s_File (seg_store small_full))
  /\ exists s2,
       segment_Append rec_a small_full = (Err io_EOF, s2)
       /\ nextOffset s2 = nextOffset small_full
       /\ seg_index s2 = seg_index small_full
       /\ store_contents (seg_store s2)
          = store_contents (seg_store small_full) ++ frame fourth_bytes
       /\ s_size (seg_store s2)
          = s_size (seg_store small_full) + lenWidth + len fourth_bytes.
Proof.
  assert (H1 : 0 <= 0 < 2 ^ 64) by lia.
  assert (H2 : newSegment spec_file [] 0 small_config = Ok small_fresh) by reflexivity.
  assert (H3 : mapM segment_Append abc small_fresh = (Ok [0; 1; 2], small_full))
    by (vm_compute; reflexivity).
  assert (H4 : i64 (MaxIndexBytes small_config) < (len abc + 1) * entWidth)
    by (vm_compute; reflexivity).
  assert (H5 : Marshal (mkRecord (Value rec_a) (nextOffset small_full)) = Ok fourth_bytes)
    by (vm_compute; reflexivity).
  assert (H6 : s_size (seg_store small_full) + lenWidth + len fourth_bytes
               <= File_room (s_File (seg_store small_full)))
    by (vm_compute; discriminate).
  repeat (split; [assumption|]).
  exact (@segment_Append_index_full wire_codec 65536 0 small_config abc small_fresh
           small_full [0; 1; 2] rec_a fourth_bytes H1 H2 H3 H4 H5 H6).
Defined.

Lemma segment_reopen_witness :
  0 <= 0 < 2 ^ 64
  /\ newSegment spec_file [] 0 spec_config = Ok abc_fresh
  /\ mapM segment_Append abc abc_fresh = (Ok [0; 1; 2], abc_appended)
  /\ store_fits abc_appended
  /\ len abc <= 2 ^ 32
  /\ segment_CLose abc_appended = Ok (abc_index_file, abc_store_file)
  /\ exists s2,
       newSegment abc_store_file abc_index_file 0 spec_config = Ok s2
       /\ nextOffset s2 = nextOffset abc_appended
       /\ exists rs' s3,
            mapM segment_Read [0; 1; 2] s2 = (Ok rs', s3)
            /\ map Value rs' = map Value abc.
Proof.
  assert (H1 : 0 <= 0 < 2 ^ 64) by lia.
  assert (H2 : newSegment spec_file [] 0 spec_config = Ok abc_fresh) by reflexivity.
  assert (H3 : mapM segment_Append abc abc_fresh = (Ok [0; 1; 2], abc_appended))
    by (vm_compute; reflexivity).
  assert (H4 : store_fits abc_appended) by (vm_compute; discriminate).
  assert (H5 : len abc <= 2 ^ 32) by (vm_compute; discriminate).
  assert (H6 : segment_CLose abc_appended = Ok (abc_index_file, abc_store_file))
    by (vm_compute; reflexivity).
  repeat (split; [assumption|]).
  exact (@segment_reopen wire_codec 65536 0 spec_config abc abc_fresh abc_appended
           [0; 1; 2] abc_index_file abc_store_file H1 H2 H3 H4 H5 H6).
Defined.

Lemma segment_IsMaxed_stays_witness :
  segment_reached low_maxed
  /\ segment_IsMaxed low_maxed = true
  /\ segment_IsMaxed (snd (segment_Append rec_bb low_maxed)) = true
  /\ segment_IsMaxed (snd (segment_Read 0 low_maxed)) = true.
Proof.
  assert (H1 : segment_reached low_maxed).
  { apply (@reached_segment_Append wire_codec rec_a low_fresh).
    apply (@reached_newSegment wire_codec spec_file [] 0 low_config).
    - vm_compute. discriminate.
    - vm_compute. discriminate.
    - reflexivity. }
  assert (H2 : segment_IsMaxed low_maxed = true) by (vm_compute; reflexivity).
  split; [exact H1|]. split; [exact H2|].
  exact (@segment_IsMaxed_stays wire_codec rec_bb 0 low_maxed H1 H2).
Defined.

Lemma newSegment_shrunk_index_witness :
  len abc_index_file = 3 * entWidth
  /\ 1 <= 3 <= 2 ^ 32
  /\ 0 < i64 (MaxIndexBytes shrunk_config) < len abc_index_file
  /\ newSegment abc_store_file abc_index_file 0 shrunk_config = Err go_panic.
Proof.
  assert (H1 : len abc_index_file = 3 * entWidth) by (vm_compute; reflexivity).
  assert (H2 : 1 <= 3 <= 2 ^ 32) by lia.
  assert (H3 : 0 < i64 (MaxIndexBytes shrunk_config) < len abc_index_file)
    by (vm_compute; split; reflexivity).
  repeat (split; [assumption|]).
  exact (@newSegment_shrunk_index abc_store_file abc_index_file 0 shrunk_config 3
           H1 H2 H3).
Defined.

Section SegmentCount.
Context {codec : Codec}.

Lemma segment_from_reached s0 s :
  segment_reached s0 -> segment_from s0 s -> segment_reached s.
Proof.
  intros H0. induction 1 as [|r s _ IH|off s _ IH].
  - exact H0.
  - apply reached_segment_Append. exact IH.
  - apply reached_segment_Read. exact IH.
Qed.

Lemma u64_succ a : u64 (u64 a + 1) = u64 (a + 1).
Proof. unfold u64. apply Zplus_mod_idemp_l. Qed.

(** What [Append] does to the entries in use, the base and the next
    offset. *)
Lemma segment_Append_count r s :
  index_reached (seg_index s) ->
  i_size (seg_index s) mod entWidth = 0 ->
  nextOffset s = u64 (baseOffset s + i_size (seg_index s) / entWidth) ->
  let s' := snd (segment_Append r s) in
  baseOffset s' = baseOffset s
  /\ i_size (seg_index s') mod entWidth = 0
  /\ nextOffset s' = u64 (baseOffset s' + i_size (seg_index s') / entWidth).
Proof.
  intros Hix Hmod Hn. cbv zeta. rewrite segment_Append_unfold.
  destruct (Marshal (mkRecord (Value r) (nextOffset s))) as [p|e]; [|cbn [snd]; auto].
  destruct (store_Append p (seg_store s)) as [[[n pos]|e] st];
    [|cbn [snd with_store baseOffset seg_index nextOffset]; auto].
  destruct (index_Write _ pos (seg_index s)) as [[[]|e] ix] eqn:EW;
    cbn [snd with_nextOffset with_index with_store baseOffset seg_index nextOffset].
  - destruct (@index_Write_Ok_inv _ _ _ _ Hix EW) as (_ & ->). cbn [i_size].
    assert (Hw : entWidth = 12) by reflexivity. rewrite Hw in *.
    split; [reflexivity|]. split.
    + rewrite <- Zplus_mod_idemp_l, Hmod. reflexivity.
    + rewrite Hn, u64_succ. f_equal.
      replace (i_size (seg_index s) + 12) with (i_size (seg_index s) + 1 * 12) by lia.
      rewrite Z.div_add by lia. lia.
  - destruct (index_reached_bounds Hix) as (Hs & Hm).
    assert (Hw : entWidth = 12) by reflexivity. unfold MaxInt64 in *.
    destruct (Z.lt_ge_cases (len (i_mmap (seg_index s))) (i_size (seg_index s) + entWidth))
      as [Hfull|Hroom].
    + rewrite index_Write_no_room in EW by lia. injection EW as _ <-. auto.
    + rewrite index_Write_room in EW by lia. discriminate.
Qed.

(** X23: the next offset counts the index entries: in every state a fresh
    segment reaches under [Append] and [Read], failed calls included, the
    index holds whole entries and [nextOffset] is the base offset plus
    their number. *)
Theorem nextOffset_counts_entries (limit base : Z) (c : Config) (s0 s : segment) :
  0 <= base < 2 ^ 64 ->
  newSegment (mkFile [] limit) [] base c = Ok s0 ->
  segment_from s0 s ->
  baseOffset s = base
  /\ i_size (seg_index s) mod entWidth = 0
  /\ nextOffset s = u64 (base + i_size (seg_index s) / entWidth).
Proof.
  intros Hb E0 Hfrom.
  assert (Hr0 : segment_reached s0).
  { apply (@reached_newSegment _ (mkFile [] limit) [] base c); [| |exact E0];
      vm_compute; discriminate. }
  assert (H : baseOffset s = base
              /\ i_size (seg_index s) mod entWidth = 0
              /\ nextOffset s = u64 (baseOffset s + i_size (seg_index s) / entWidth)).
  { induction Hfrom as [|r s Hfrom IH|off s Hfrom IH].
    - apply newSegment_fresh in E0. destruct E0 as [_ ->].
      cbn [baseOffset seg_index i_size nextOffset].
      split; [reflexivity|]. split; [reflexivity|].
      rewrite Z.add_0_r. symmetry. apply u64_small. exact Hb.
    - destruct IH as (Hbase & Hmod & Hn).
      destruct (@segment_reached_parts _ _ (@segment_from_reached _ _ Hr0 Hfrom)) as (_ & Hix).
      destruct (@segment_Append_count r s Hix Hmod Hn) as (Hb' & Hmod' & Hn').
      split; [congruence|]. split; assumption.
    - destruct IH as (Hbase & Hmod & Hn).
      destruct (segment_Read_sizes off s) as (_ & _ & Hi).
      assert (Hs : baseOffset (snd (segment_Read off s)) = baseOffset s
                   /\ nextOffset (snd (segment_Read off s)) = nextOffset s).
      { rewrite segment_Read_unfold.
        destruct (index_Read _ (seg_index s)) as [[o pos]|e]; [|auto].
        destruct (store_Read pos (seg_store s)) as [[p|e] st]; cbn [snd]; auto. }
      destruct Hs as (Hb' & Hn'). rewrite Hi, Hb', Hn'. auto. }
  destruct H as (Hbase & Hmod & Hn). rewrite Hbase in Hn. auto.
Qed.

End SegmentCount.

Lemma nextOffset_counts_entries_witness :
  0 <= 0 < 2 ^ 64
  /\ newSegment spec_file [] 0 small_config = Ok small_fresh
  /\ segment_from small_fresh (snd (segment_Append rec_a small_full))
  /\ baseOffset (snd (segment_Append rec_a small_full)) = 0
  /\ i_size (seg_index (snd (segment_Append rec_a small_full))) mod entWidth = 0
  /\ nextOffset (snd (segment_Append rec_a small_full))
     = u64 (0 + i_size (seg_index (snd (segment_Append rec_a small_full))) / entWidth).
Proof.
  assert (H1 : 0 <= 0 < 2 ^ 64) by lia.
  assert (H2 : newSegment spec_file [] 0 small_config = Ok small_fresh) by reflexivity.
  assert (H3 : segment_from small_fresh (snd (segment_Append rec_a small_full))).
  { apply from_Append.
    change small_full
      with (snd (segment_Append rec_ccc
                   (snd (segment_Append rec_bb (snd (segment_Append rec_a small_fresh)))))).
    apply from_Append. apply from_Append. apply from_Append. apply from_start. }
  split; [exact H1|]. split; [exact H2|]. split; [exact H3|].
  exact (@nextOffset_counts_entries wire_codec 65536 0 small_config small_fresh
           (snd (segment_Append rec_a small_full)) H1 H2 H3).
Defined.

Section SegmentStamp.
Context {codec : Codec}.

(** The log a run of appends adds, with the offsets its records carry. *)
Lemma segment_Append_all_offsets rs : forall log s offs s',
  seg_rep log s -> mapM segment_Append rs s = (Ok offs, s') ->
  exists log',
    seg_rep (log ++ log') s'
    /\ map (fun rp => Value (fst rp)) log' = map Value rs
    /\ map (fun rp => Offset (fst rp)) log' = offs
    /\ offs = map (fun k => u64 (baseOffset s + len log + Z.of_nat k)) (seq 0 (length rs))
    /\ baseOffset s' = baseOffset s.
Proof.
  induction rs as [|r rs IH]; intros log s offs s' Hrep E.
  - cbn [mapM] in E. unfold ret in E. injection E as <- <-.
    exists []. rewrite app_nil_r. split; [assumption|]. repeat split.
  - rewrite mapM_cons in E.
    destruct (segment_Append r s) as [[off|e] s1] eqn:E1; [|discriminate].
    destruct (mapM segment_Append rs s1) as [[offs1|e] s2] eqn:E2; [|discriminate].
    injection E as <- <-.
    assert (Hn : nextOffset s = u64 (baseOffset s + len log)).
    { destruct Hrep as (_ & _ & _ & _ & _ & _ & Hn & _). exact Hn. }
    destruct (segment_Append_rep r Hrep E1) as (p & Hm & Hrep1 & -> & Hb1 & _).
    destruct (IH _ _ _ _ Hrep1 E2) as (log' & Hrep2 & Hv & Ho & Hoffs & Hb2).
    exists ((mkRecord (Value r) (nextOffset s), p) :: log').
    rewrite <- app_assoc in Hrep2. cbn [app] in Hrep2.
    split; [assumption|]. split; [cbn [map fst Value]; f_equal; assumption|].
    split; [cbn [map fst Offset]; f_equal; [exact Hn | exact Ho]|].
    split; [|congruence].
    cbn [length seq map]. f_equal; [f_equal; lia|].
    rewrite Hoffs, <- seq_shift, map_map. apply map_ext. intros k.
    rewrite Hb1, len_app. change (len [(mkRecord (Value r) (nextOffset s), p)]) with 1.
    f_equal. lia.
Qed.

(** X24: a record read back carries the offset it was appended under:
    after at most [2^32] appends to a fresh segment, reading the offsets
    the appends returned gives records whose [Offset] fields are those
    offsets and whose payloads are the ones appended, whatever [Offset]
    the caller's records carried. *)
Theorem segment_Read_stamped (limit base : Z) (c : Config) (rs : list Record_)
    (s0 s1 : segment) (offs : list Z) :
  0 <= base < 2 ^ 64 ->
  newSegment (mkFile [] limit) [] base c = Ok s0 ->
  mapM segment_Append rs s0 = (Ok offs, s1) ->
  store_fits s1 ->
  len rs <= 2 ^ 32 ->
  exists rs' s2,
    mapM segment_Read offs s1 = (Ok rs', s2)
    /\ map Offset rs' = offs
    /\ map Value rs' = map Value rs.
Proof.
  intros Hb E0 E1 Hfit Hlen.
  destruct (@seg_rep_fresh _ limit base c s0 Hb E0) as (Hrep0 & Hbase & _).
  destruct (@segment_Append_all_offsets rs [] s0 offs s1 Hrep0 E1)
    as (log & Hrep1 & Hv & Ho & Hoffs & Hb1).
  cbn [app] in Hrep1.
  assert (Hll : length log = length rs).
  { apply (f_equal (@length _)) in Hv. rewrite !length_map in Hv. exact Hv. }
  destruct (@segment_Read_all _ log (mkRecord [] 0, []) (seq 0 (length rs)) s1 Hrep1 Hfit)
    as (s2 & E2 & _).
  { unfold len in *. lia. }
  { apply Forall_forall. intros k Hk. apply in_seq in Hk. lia. }
  assert (Hsame : map (fun k => u64 (baseOffset s1 + Z.of_nat k)) (seq 0 (length rs)) = offs).
  { rewrite Hoffs. apply map_ext. intros k. rewrite Hb1.
    change (len (@nil (Record_ * list byte))) with 0. f_equal. lia. }
  rewrite Hsame in E2. eexists _, s2. split; [exact E2|].
  assert (Hnth : forall k, In k (seq 0 (length rs)) ->
            fst (nth (Z.to_nat (u32 (Z.of_nat k))) log (mkRecord [] 0, []))
            = fst (nth k log (mkRecord [] 0, []))).
  { intros k Hk. apply in_seq in Hk.
    rewrite u32_small, Nat2Z.id by (unfold len in Hlen; lia). reflexivity. }
  rewrite !map_map. split.
  - rewrite <- Ho, <- Hll.
    rewrite <- (map_nth_seq (fun rp => Offset (fst rp)) log (mkRecord [] 0, [])).
    apply map_ext_in. intros k Hk. rewrite Hnth by (rewrite <- Hll; exact Hk).
    reflexivity.
  - rewrite <- Hv, <- Hll.
    rewrite <- (map_nth_seq (fun rp => Value (fst rp)) log (mkRecord [] 0, [])).
    apply map_ext_in. intros k Hk. rewrite Hnth by (rewrite <- Hll; exact Hk).
    reflexivity.
Qed.

End SegmentStamp.

(** The scenario's records with offsets of the caller's that [Append]
    replaces. *)
Definition abc_mislabelled : list Record_ :=
  [mkRecord [Byte.x61] 7; mkRecord [Byte.x62; Byte.x62] 7;
   mkRecord [Byte.x63; Byte.x63; Byte.x63] 0].

Lemma segment_Read_stamped_witness :
  0 <= 0 < 2 ^ 64
  /\ newSegment spec_file [] 0 spec_config = Ok abc_fresh
  /\ mapM segment_Append abc_mislabelled abc_fresh = (Ok [0; 1; 2], abc_appended)
  /\ store_fits abc_appended
  /\ len abc_mislabelled <= 2 ^ 32
  /\ exists rs' s2,
       mapM segment_Read [0; 1; 2] abc_appended = (Ok rs', s2)
       /\ map Offset rs' = [0; 1; 2]
       /\ map Value rs' = map Value abc_mislabelled.
Proof.
  assert (H1 : 0 <= 0 < 2 ^ 64) by lia.
  assert (H2 : newSegment spec_file [] 0 spec_config = Ok abc_fresh) by reflexivity.
  assert (H3 : mapM segment_Append abc_mislabelled abc_fresh
               = (Ok [0; 1; 2], abc_appended))
    by (vm_compute; reflexivity).
  assert (H4 : store_fits abc_appended) by (vm_compute; discriminate).
  assert (H5 : len abc_mislabelled <= 2 ^ 32) by (vm_compute; discriminate).
  repeat (split; [assumption|]).
  exact (@segment_Read_stamped wire_codec 65536 0 spec_config abc_mislabelled abc_fresh
           abc_appended [0; 1; 2] H1 H2 H3 H4 H5).
Defined.

Section SegmentFailure.
Context {codec : Codec}.

(** X25: an [Append] that fails adds nothing to the index: on a segment
    [newSegment], [Append] and [Read] produced, whatever step failed
    (marshalling, the store, the index), the index with its mapped bytes
    and size, the next offset, the base offset and the configuration are as
    before the call; when marshalling failed the store is untouched too. *)
Theorem segment_Append_failure (r : Record_) (s s' : segment) (e : error) :
  segment_reached s ->
  segment_Append r s = (Err e, s') ->
  seg_index s' = seg_index s
  /\ nextOffset s' = nextOffset s
  /\ baseOffset s' = baseOffset s
  /\ config s' = config s
  /\ (Marshal (mkRecord (Value r) (nextOffset s)) = Err e -> s' = s).
Proof.
  intros Hr E. destruct (segment_reached_parts Hr) as (_ & Hix).
  rewrite segment_Append_unfold in E.
  destruct (Marshal (mkRecord (Value r) (nextOffset s))) as [p|e0].
  2:{ injection E as _ <-. repeat split. }
  destruct (store_Append p (seg_store s)) as [[[n pos]|e1] st].
  2:{ injection E as _ <-. cbn [with_store seg_index nextOffset baseOffset config].
      repeat split. discriminate. }
  destruct (index_reached_bounds Hix) as (Hs & Hm).
  assert (Hw : entWidth = 12) by reflexivity. unfold MaxInt64 in *.
  destruct (Z.lt_ge_cases (len (i_mmap (seg_index s))) (i_size (seg_index s) + entWidth))
    as [Hfull|Hroom].
  - rewrite index_Write_no_room in E by lia. injection E as _ <-.
    cbn [with_index with_store seg_index nextOffset baseOffset config].
    repeat split. discriminate.
  - rewrite index_Write_room in E by lia. discriminate.
Qed.

End SegmentFailure.

Lemma segment_Append_failure_witness :
  segment_reached small_full
  /\ segment_Append rec_a small_full = (Err io_EOF, snd (segment_Append rec_a small_full))
  /\ seg_index (snd (segment_Append rec_a small_full)) = seg_index small_full
  /\ nextOffset (snd (segment_Append rec_a small_full)) = nextOffset small_full
  /\ baseOffset (snd (segment_Append rec_a small_full)) = baseOffset small_full
  /\ config (snd (segment_Append rec_a small_full)) = config small_full
  /\ (Marshal (mkRecord (Value rec_a) (nextOffset small_full)) = Err io_EOF ->
      snd (segment_Append rec_a small_full) = small_full).
Proof.
  assert (H1 : segment_reached small_full).
  { change small_full
      with (snd (segment_Append rec_ccc
                   (snd (segment_Append rec_bb (snd (segment_Append rec_a small_fresh)))))).
    do 3 apply reached_segment_Append.
    apply (@reached_newSegment wire_codec spec_file [] 0 small_config).
    - vm_compute. discriminate.
    - vm_compute. discriminate.
    - reflexivity. }
  assert (H2 : segment_Append rec_a small_full
               = (Err io_EOF, snd (segment_Append rec_a small_full)))
    by (vm_compute; reflexivity).
  split; [exact H1|]. split; [exact H2|].
  exact (@segment_Append_failure wire_codec rec_a small_full
           (snd (segment_Append rec_a small_full)) io_EOF H1 H2).
Defined.
